(** * soq: the multi-process pipe sort and the rational-number library

    A shallow embedding of two programs of the repository:

    - [src/so-1321-3864/multi-pipe-sort.c]: a coordinator that deals the
      lines of its standard input round-robin to a pool of child
      processes, lets every child sort its share, and merges the sorted
      streams of the children back into one sorted output;
    - [rational.c]: rational numbers stored as a non-negative numerator
      and a signed, non-zero denominator.

    Conventions of the embedding.

    - A byte is a [Byte.byte]; a C string is the list of its bytes before
      the terminating NUL; a stream open for reading is the list of the
      bytes not yet read; a stream open for writing is the list of the
      bytes written so far.
    - A [FILE *] that the code sets to 0 after [fclose] is [None].
    - The processes are first sequentialised in the order the data
      flows: the coordinator distributes, the children run, the
      coordinator merges and reaps ([sort_pipeline], [main]).  A child
      writes nothing before it has read everything, so the bytes that
      travel do not depend on the interleaving.  Whether the processes
      come to an end does: the pipes are finite and the children hold
      ends of each other's pipes.  [sort_pipeline_run] and [main_run]
      take the capacity of a pipe and tell when the processes wait for
      each other for ever (the outcome [Deadlock]); they agree with
      [sort_pipeline] and [main] for a single child, on empty input, and
      whenever no child but the first is sent more than a pipe takes.
    - Undefined behaviour (a null pointer handed to the C library, an
      index outside an array, signed overflow, a failed [assert],
      division by zero) is the outcome [Fault]; a loop whose fuel ran out
      is the outcome [Timeout].
    - [malloc], [realloc] and the writes into a pipe are taken to
      succeed; signals are left out.
    - What the operating system decides ([pipe], [fork], the order and
      the statuses that [waitpid] reports) is an input of [main].

    The file first gives the programs, then the vocabulary of the
    statements, then the lemmas about each component, then the
    properties of the design document, numbered as there, and last
    further properties of the code, numbered X1 and up. *)

From Stdlib Require Import ZArith QArith Lia.
From Stdlib Require Import Strings.Byte Strings.String.
From stdpp Require Import base decidable option numbers list sorting.

Local Open Scope Z_scope.

(** ** Outcomes of a run *)

(** What [err_exit(fmt, ...)] prints on the standard error: the format and
    its integer arguments. *)
Definition diagnostic : Type := string * list Z.

Inductive outcome (A : Type) : Type :=
  | Done (a : A)
  | Exit (status : Z) (stderr : diagnostic)   (* the process left through [exit] *)
  | Fault
  | Timeout.
Arguments Done {A} a.
Arguments Exit {A} status stderr.
Arguments Fault {A}.
Arguments Timeout {A}.

#[global] Instance outcome_ret : MRet outcome := λ A a, Done a.
#[global] Instance outcome_bind : MBind outcome := λ A B f m,
  match m with
  | Done a => f a
  | Exit status stderr => Exit status stderr
  | Fault => Fault
  | Timeout => Timeout
  end.

#[global] Instance outcome_fmap : FMap outcome := λ A B f m,
  match m with
  | Done a => Done (f a)
  | Exit status stderr => Exit status stderr
  | Fault => Fault
  | Timeout => Timeout
  end.

(** [for (i = 0; i < n; i++) body], threading the state [s]. *)
Definition for_loop {S : Type} (n : nat) (body : nat → S → outcome S) (s : S)
  : outcome S :=
  foldl (λ acc i, s' ← acc; body i s') (Done s) (seq 0 n).

(** Processes that wait for each other may never come to an outcome. *)
Inductive run (A : Type) : Type :=
  | Ends (o : outcome A)
  | Deadlock.
Arguments Ends {A} o.
Arguments Deadlock {A}.

(** A step that cannot block, and the run that goes on after it. *)
Definition and_then {A B : Type} (o : outcome A) (k : A → run B) : run B :=
  match o with
  | Done a => k a
  | Exit status stderr => Ends (Exit status stderr)
  | Fault => Ends Fault
  | Timeout => Ends Timeout
  end.

(** ** The C library, as far as the programs use it *)

#[global] Instance byte_eq_dec : EqDecision byte := Byte.byte_eq_dec.

Definition NUL : byte := x00.
Definition newline : byte := x0a.

(** The value of a byte as [unsigned char]. *)
Definition uchar (b : byte) : Z := Z.of_N (Byte.to_N b).

(** The C string held by a buffer: the bytes before the first NUL. *)
Fixpoint cstr (buf : list byte) : list byte :=
  match buf with
  | [] => []
  | c :: buf' => if decide (c = NUL) then [] else c :: cstr buf'
  end.

Definition strlen (s : list byte) : nat := length s.

(** [strcmp]: the difference of the first two bytes that differ, taken as
    [unsigned char]; the end of a string is its NUL.  Callers only look at
    the sign. *)
Fixpoint strcmp (s1 s2 : list byte) : Z :=
  match s1, s2 with
  | [], [] => 0
  | [], c2 :: _ => 0 - uchar c2
  | c1 :: _, [] => uchar c1 - 0
  | c1 :: t1, c2 :: t2 =>
      if decide (c1 = c2) then strcmp t1 t2 else uchar c1 - uchar c2
  end.

(** The bytes [fgets] takes from a stream: at most [room], stopping after
    the first newline. *)
Fixpoint fgets_scan (room : nat) (stream : list byte) : list byte * list byte :=
  match room with
  | O => ([], stream)
  | S room' =>
      match stream with
      | [] => ([], [])
      | c :: stream' =>
          if decide (c = newline) then ([c], stream')
          else let '(got, rest) := fgets_scan room' stream' in (c :: got, rest)
      end
  end.

(** [fgets(buffer, size, fp)]: [None] is the null pointer returned at end
    of file; otherwise the string left in the buffer and the rest of the
    stream. *)
Definition fgets (size : nat) (stream : list byte)
  : option (list byte * list byte) :=
  match stream with
  | [] => None
  | _ :: _ =>
      let '(got, rest) := fgets_scan (size - 1) stream in Some (cstr got, rest)
  end.

(** [fputs(s, fp)]: the string is appended to what was written. *)
Definition fputs (s : list byte) (written : list byte) : list byte :=
  written ++ s.

(** [qsort(base, n, size, compar)]: the array ordered by [compar].  The
    algorithm is the library's own; here a merge sort. *)
Definition in_order {A : Type} (compar : A → A → Z) : relation A :=
  λ a b, compar a b ≤ 0.

#[global] Instance in_order_dec {A : Type} (compar : A → A → Z) :
  RelDecision (in_order compar) := λ a b, decide (compar a b ≤ 0).

Definition qsort {A : Type} (compar : A → A → Z) (base : list A) : list A :=
  merge_sort (in_order compar) base.

(** ** multi-pipe-sort.c *)

Module PipeSort.

Record Child : Type := mkChild {
  fp_to : option (list byte);    (* stream to the child, bytes written so far *)
  fp_from : option (list byte);  (* stream from the child, bytes still unread *)
  pid : Z
}.

Definition MAX_LINE : nat := 4096.

Definition qs_compare (v1 v2 : list byte) : Z := strcmp v1 v2.

Definition estrdup (str : list byte) : list byte := str.

(** The reading loop of [be_childish]: [lines] grows by one string per
    [fgets]; [max_lines] is the capacity of the array. *)
Fixpoint be_childish_read (fuel : nat) (stdin : list byte)
    (lines : list (list byte)) (max_lines : nat) : outcome (list (list byte)) :=
  match fuel with
  | O => Timeout
  | S fuel' =>
      match fgets MAX_LINE stdin with
      | None => Done lines
      | Some (input, stdin') =>
          let max_lines' :=
            if decide (max_lines ≤ length lines)%nat
            then (2 * max_lines + 2)%nat else max_lines in
          be_childish_read fuel' stdin' (lines ++ [estrdup input]) max_lines'
      end
  end.

(** [be_childish]: what the child writes to its standard output, given
    what arrives on its standard input.  Every [fgets] that does not
    return null takes at least one byte, so one more turn than there are
    bytes is enough. *)
Definition be_childish (stdin : list byte) : outcome (list byte) :=
  lines ← be_childish_read (S (length stdin)) stdin [] 0%nat;
  mret (foldl (λ stdout line, fputs line stdout) [] (qsort qs_compare lines)).

(** [distribute], the loop over the input: [n] is the cursor. *)
Fixpoint distribute_loop (fuel : nat) (nkids : nat) (stdin : list byte)
    (kids : list Child) (n : nat) : outcome (list Child) :=
  match fuel with
  | O => Timeout
  | S fuel' =>
      match fgets MAX_LINE stdin with
      | None => Done kids
      | Some (input, stdin') =>
          match kids !! n with
          | None => Fault
          | Some kid =>
              match fp_to kid with
              | None => Fault
              | Some written =>
                  let kid' :=
                    mkChild (Some (fputs input written)) (fp_from kid) (pid kid) in
                  let n' := if decide (nkids ≤ S n)%nat then O else S n in
                  distribute_loop fuel' nkids stdin' (<[n := kid']> kids) n'
              end
          end
      end
  end.

(** [fclose(kids[i].fp_to); kids[i].fp_to = 0]: what was written reaches
    the pipe, and so the standard input of child [i]. *)
Definition distribute_close (i : nat) (st : list Child * list (list byte))
  : outcome (list Child * list (list byte)) :=
  let '(kids, sent) := st in
  match kids !! i with
  | None => Fault
  | Some kid =>
      match fp_to kid with
      | None => Fault
      | Some written =>
          Done (<[i := mkChild None (fp_from kid) (pid kid)]> kids,
                sent ++ [written])
      end
  end.

(** [distribute]: the children afterwards, and for each child the bytes
    it finds on its standard input. *)
Definition distribute (nkids : nat) (kids : list Child) (stdin : list byte)
  : outcome (list Child * list (list byte)) :=
  kids' ← distribute_loop (S (length stdin)) nkids stdin kids O;
  for_loop nkids distribute_close (kids', []).

(** [read_line]: the child afterwards, the buffer and the length. *)
Definition read_line (kid : Child) (maxlen : nat)
  : outcome (Child * list byte * Z) :=
  match fp_from kid with
  | None => Fault
  | Some stream =>
      match fgets maxlen stream with
      | Some (buffer, stream') =>
          Done (mkChild (fp_to kid) (Some stream') (pid kid), buffer,
                Z.of_nat (strlen buffer))
      | None =>
          Done (mkChild (fp_to kid) None (pid kid), [], -1)
      end
  end.

Definition not_all_done (nkids : nat) (lengths : list Z) : outcome bool :=
  foldr (λ i later,
           match lengths !! i with
           | None => Fault
           | Some l => if decide (0 < l) then Done true else later
           end)
        (Done false) (seq 0 nkids).

(** The loop of [min_line]: [min_kid] and [min_str] ([None] is the null
    pointer). *)
Definition min_line_scan (len : list Z) (lines : list (list byte)) (i : nat)
    (st : nat * option (list byte)) : outcome (nat * option (list byte)) :=
  let '(min_kid, min_str) := st in
  match len !! i, lines !! i with
  | Some l, Some line =>
      if decide (l ≤ 0) then Done (min_kid, min_str)
      else
        match min_str with
        | None => Done (i, Some line)
        | Some m =>
            if decide (strcmp m line > 0) then Done (i, Some line)
            else Done (min_kid, min_str)
        end
  | _, _ => Fault
  end.

(** The variables of [merge] that change while it runs. *)
Record Frontier : Type := mkFrontier {
  kids : list Child;
  lines : list (list byte);
  len : list Z
}.

(** [min_line]: the frontier afterwards and the string copied to
    [output]. *)
Definition min_line (nkids : nat) (maxlen : nat) (fr : Frontier)
  : outcome (Frontier * list byte) :=
  '(min_kid, min_str) ← for_loop nkids (min_line_scan (len fr) (lines fr)) (O, None);
  match min_str with
  | None => Fault
  | Some output =>
      match kids fr !! min_kid with
      | None => Fault
      | Some kid =>
          '(kid', buffer, length) ← read_line kid maxlen;
          Done (mkFrontier (<[min_kid := kid']> (kids fr))
                           (<[min_kid := buffer]> (lines fr))
                           (<[min_kid := length]> (len fr)),
                output)
      end
  end.

(** [merge], preloading the first line of kid [i]. *)
Definition merge_preload (i : nat) (fr : Frontier) : outcome Frontier :=
  match kids fr !! i with
  | None => Fault
  | Some kid =>
      '(kid', buffer, length) ← read_line kid MAX_LINE;
      Done (mkFrontier (<[i := kid']> (kids fr))
                       (<[i := buffer]> (lines fr))
                       (<[i := length]> (len fr)))
  end.

(** [merge], the loop; [stdout] is what the coordinator has written. *)
Fixpoint merge_loop (fuel : nat) (nkids : nat) (fr : Frontier)
    (stdout : list byte) : outcome (Frontier * list byte) :=
  match fuel with
  | O => Timeout
  | S fuel' =>
      more ← not_all_done nkids (len fr);
      if more : bool then
        '(fr', output) ← min_line nkids MAX_LINE fr;
        merge_loop fuel' nkids fr' (fputs output stdout)
      else Done (fr, stdout)
  end.

(** The bytes the children still hold for the coordinator. *)
Definition unread (kids : list Child) : nat :=
  sum_list_with (λ kid, length (default [] (fp_from kid))) kids.

(** [merge]: the frontier at the end and the bytes written to the
    standard output.  Every turn of the loop takes a byte from a child or
    retires a child, whence the fuel. *)
Definition merge (nkids : nat) (kids : list Child)
  : outcome (Frontier * list byte) :=
  fr ← for_loop nkids merge_preload
         (mkFrontier kids (replicate nkids []) (replicate nkids 0));
  merge_loop (S (nkids + unread kids)) nkids fr [].

(** [err_exit]. *)
Definition err_exit {A : Type} (fmt : string) (args : list Z) : outcome A :=
  Exit 1 (fmt, args).

(** [wait_for_kids], the loop over [waitpid]: [waited] lists the pairs of
    process and status that the successive calls return; the call after
    the last returns -1. *)
Fixpoint wait_for_kids_reap (nkids : nat) (kids : list Child)
    (waited : list (Z * Z)) : outcome (list Child) :=
  match waited with
  | [] => Done kids
  | (p, status) :: waited' =>
      if decide (p = -1) then Done kids
      else
        kids' ← for_loop nkids
                  (λ i kids,
                     match kids !! i with
                     | None => Fault
                     | Some kid =>
                         if decide (p = pid kid)
                         then Done (<[i := mkChild (fp_to kid) (fp_from kid) (-1)]> kids)
                         else Done kids
                     end) kids;
        wait_for_kids_reap nkids kids' waited'
  end.

Definition wait_for_kids (nkids : nat) (kids : list Child)
    (waited : list (Z * Z)) : outcome (list Child) :=
  kids' ← wait_for_kids_reap nkids kids waited;
  for_loop nkids
    (λ i kids,
       match kids !! i with
       | None => Fault
       | Some kid =>
           if decide (pid kid ≠ -1)
           then err_exit "Child %d died without being tracked\n" [pid kid]
           else Done kids
       end) kids'.

(** [make_kid] in the coordinator: [forked] is the process number that
    [fork] returns, or [None] when [pipe] or [fork] fails and [make_kid]
    returns -1. *)
Definition make_kid (forked : option Z) : option Child :=
  match forked with
  | None => None
  | Some p => Some (mkChild (Some []) (Some []) p)
  end.

(** The children run: each reads its standard input to the end and
    writes its standard output, which is what the coordinator will read
    from it. *)
Fixpoint children_run (kids : list Child) (sent : list (list byte))
  : outcome (list Child) :=
  match kids, sent with
  | kid :: kids', input :: sent' =>
      out ← be_childish input;
      rest ← children_run kids' sent';
      Done (mkChild (fp_to kid) (Some out) (pid kid) :: rest)
  | _, _ => Done []
  end.

(** [distribute(nkids, kids); merge(nkids, kids)] with the children in
    between: the bytes on the standard output, when no process waits
    for ever ([sort_pipeline_run] below tells when). *)
Definition sort_pipeline (nkids : nat) (kids : list Child) (stdin : list byte)
  : outcome (list Child * list byte) :=
  '(kids1, sent) ← distribute nkids kids stdin;
  kids2 ← children_run kids1 sent;
  '(fr, stdout) ← merge nkids kids2;
  Done (PipeSort.kids fr, stdout).

(** What the operating system answers: the result of the [i]-th
    [make_kid], and the results of the [waitpid] calls. *)
Record Env : Type := mkEnv {
  forked : nat → option Z;
  waited : list (Z * Z)
}.

Definition NUM_KIDS : nat := 5.

(** [main]: the exit status and the standard output, when no process
    waits for ever ([main_run] below tells when). *)
Definition main (env : Env) (stdin : list byte) : outcome (Z * list byte) :=
  kids ← for_loop NUM_KIDS
           (λ i kids,
              match make_kid (forked env i) with
              | None => err_exit "Fault starting child %d\n" [Z.of_nat i]
              | Some kid => Done (kids ++ [kid])
              end) [];
  '(kids', stdout) ← sort_pipeline NUM_KIDS kids stdin;
  _ ← wait_for_kids NUM_KIDS kids' (waited env);
  Done (0, stdout).

(** *** The processes together, with finite pipes

    [sort_pipeline] and [main] above follow the data and take it that no
    process waits for ever.  The pipes are finite, though, and [make_kid]
    leaves more ends open than the data needs.  It forks child [i] while
    the streams to the children [0 .. i-1] are open in the coordinator,
    and the child closes the ends of its own two pipes and no other
    (lines 48 to 59): until it exits, child [i] holds a write end of the
    pipe into every earlier child.  A child therefore meets the end of
    its standard input only when the coordinator has closed its stream
    and every later child has exited.  A child writes when it has read
    everything ([be_childish]) and exits when all it wrote is in its
    pipe.  [merge] reads its first line from kid 0, and kid 0 has nothing
    to write before all the other children have exited.  So every child
    but kid 0 must put its whole output into its pipe with nobody
    reading.  Either the output fits; or the child waits for room, the
    children before it wait for the end of their input and the
    coordinator waits for kid 0, all of them for ever and with nothing
    written to the standard output.  Once the other children have
    exited the coordinator finds their whole output in the pipes and
    reads from kid 0 whenever it needs a line of it: nothing else
    blocks.  During [distribute] every child reads what it is sent, so
    nothing blocks there either. *)

(** [capacity] is the number of bytes that a pipe takes before a write
    into it blocks.  The output of the child fits its pipe: *)
Definition fits (capacity : nat) (kid : Child) : bool :=
  bool_decide (length (default [] (fp_from kid)) ≤ capacity)%nat.

(** Every child exits: the children after kid 0 get rid of their
    output with nobody reading.  [kids] are the children with their
    output in [fp_from], as [children_run] leaves them. *)
Definition children_exit (capacity : nat) (kids : list Child) : bool :=
  forallb (fits capacity) (tail kids).

(** [distribute(nkids, kids); merge(nkids, kids)] with the children in
    between, on pipes of [capacity] bytes. *)
Definition sort_pipeline_run (capacity nkids : nat) (kids : list Child)
    (stdin : list byte) : run (list Child * list byte) :=
  and_then ('(kids1, sent) ← distribute nkids kids stdin;
            children_run kids1 sent)
    (λ kids2,
       if children_exit capacity kids2
       then Ends ('(fr, stdout) ← merge nkids kids2;
                  Done (PipeSort.kids fr, stdout))
       else Deadlock).

(** [main] on pipes of [capacity] bytes. *)
Definition main_run (capacity : nat) (env : Env) (stdin : list byte)
  : run (Z * list byte) :=
  and_then
    (for_loop NUM_KIDS
       (λ i kids,
          match make_kid (forked env i) with
          | None => err_exit "Fault starting child %d\n" [Z.of_nat i]
          | Some kid => Done (kids ++ [kid])
          end) [])
    (λ kids,
       match sort_pipeline_run capacity NUM_KIDS kids stdin with
       | Ends o =>
           Ends ('(kids', stdout) ← o;
                 _ ← wait_for_kids NUM_KIDS kids' (waited env);
                 Done (0, stdout))
       | Deadlock => Deadlock
       end).

End PipeSort.

(** ** rational.c *)

Module Rational.

Record RationalInt : Type := mkRationalInt {
  numerator : Z;
  denominator : Z
}.

Definition INT_MAX : Z := 2147483647.
Definition INT_MIN : Z := -2147483648.

(** A value of type [int]: arithmetic whose result does not fit is
    undefined. *)
Definition int_of (z : Z) : outcome Z :=
  if decide (INT_MIN ≤ z ≤ INT_MAX) then Done z else Fault.

Definition assert (b : bool) : outcome unit :=
  if b then Done tt else Fault.

(** [a / b] of C: the quotient truncated towards zero. *)
Definition c_div (a b : Z) : outcome Z :=
  if decide (b = 0) then Fault else Done (a ÷ b).

Definition iabs (x : Z) : outcome Z :=
  if decide (x < 0) then int_of (- x) else Done x.

Definition signum (x : Z) : Z :=
  if decide (x > 0) then 1 else if decide (x < 0) then -1 else 0.

(** Modelled from the spec: [gcd] is declared in gcd.h, which is not
    among the sources; storage rule 4 and the call in [ri_new] take it to
    be the greatest common divisor of two positive integers. *)
Definition gcd (x y : Z) : Z := Z.gcd x y.

Definition ri_chk (val : RationalInt) : outcome unit :=
  _ ← assert (bool_decide (denominator val ≠ 0 ∧ denominator val ≠ INT_MIN));
  _ ← assert (bool_decide (numerator val >= 0));
  if decide (numerator val = 0) then Done tt
  else
    an ← iabs (numerator val);
    ad ← iabs (denominator val);
    assert (bool_decide (gcd an ad = 1)).

Definition LLONG_MAX : Z := 9223372036854775807.
Definition LLONG_MIN : Z := -9223372036854775808.

(** [x % y] on [long long]: the remainder of the truncated division;
    undefined when [y] is zero or the quotient does not fit, which is
    [LLONG_MIN % -1]. *)
Definition ll_rem (x y : Z) : outcome Z :=
  if decide (y = 0 ∨ (x = LLONG_MIN ∧ y = -1)) then Fault
  else Done (Z.rem x y).

(** The loop of [gcd_ll]. *)
Fixpoint gcd_ll_loop (fuel : nat) (x y : Z) : outcome Z :=
  match fuel with
  | O => Timeout
  | S fuel' =>
      r ← ll_rem x y;
      if decide (r ≠ 0) then gcd_ll_loop fuel' y r else Done y
  end.

(** [gcd_ll]: two turns of the loop at least halve [y] in absolute
    value, whence the fuel. *)
Definition gcd_ll (x y : Z) : outcome Z :=
  if decide (x = 0 ∨ y = 0) then Done 0
  else gcd_ll_loop (Z.to_nat (2 * Z.log2 (Z.abs y) + 3)) x y.

Definition ri_new (numerator denominator : Z) : outcome RationalInt :=
  _ ← assert (bool_decide (denominator ≠ 0));
  if decide (numerator = 0) then Done (mkRationalInt 0 1)
  else
    let sign :=
      1 - 2 * (if bool_decide ((numerator < 0 ∧ denominator > 0) ∨
                               (numerator > 0 ∧ denominator < 0))
               then 1 else 0) in
    _ ← assert (bool_decide (sign = 1 ∨ sign = -1));
    an ← iabs numerator;
    ad ← iabs denominator;
    let dv := gcd an ad in
    _ ← assert (bool_decide (dv ≠ 0));
    n ← c_div an dv;
    sd ← int_of (sign * ad);
    d ← c_div sd dv;
    Done (mkRationalInt n d).

(** The common end of the four operations: reduce [rn / rd] by
    [gcd_ll] and hand the result to [ri_new]. *)
Definition ri_reduce (rn rd : Z) : outcome RationalInt :=
  dv ← gcd_ll rn rd;
  nr ← c_div rn dv;
  dr ← c_div rd dv;
  _ ← assert (bool_decide (nr <= INT_MAX ∧ nr >= INT_MIN));
  _ ← assert (bool_decide (dr <= INT_MAX ∧ dr >= INT_MIN));
  ri_new nr dr.

Definition ri_add (lhs rhs : RationalInt) : outcome RationalInt :=
  a ← int_of (numerator lhs * denominator rhs);
  b ← int_of (numerator rhs * denominator lhs);
  rn ← int_of (a + b);
  if decide (rn = 0) then ri_new 0 1
  else
    rd ← int_of (denominator lhs * denominator rhs);
    ri_reduce rn rd.

Definition ri_sub (lhs rhs : RationalInt) : outcome RationalInt :=
  a ← int_of (numerator lhs * denominator rhs);
  b ← int_of (numerator rhs * denominator lhs);
  rn ← int_of (a - b);
  if decide (rn = 0) then ri_new 0 1
  else
    rd ← int_of (denominator lhs * denominator rhs);
    ri_reduce rn rd.

Definition ri_mul (lhs rhs : RationalInt) : outcome RationalInt :=
  rn ← int_of (numerator lhs * numerator rhs);
  if decide (rn = 0) then ri_new 0 1
  else
    rd ← int_of (denominator lhs * denominator rhs);
    ri_reduce rn rd.

Definition ri_div (lhs rhs : RationalInt) : outcome RationalInt :=
  _ ← assert (bool_decide (numerator rhs ≠ 0));
  if decide (numerator lhs = 0) then ri_new 0 1
  else
    rn ← int_of (numerator lhs * denominator rhs);
    rd ← int_of (denominator lhs * numerator rhs);
    ri_reduce rn rd.

(** [a / b] and [a % b] on [int]: undefined when [b] is zero or the
    quotient does not fit. *)
Definition int_div (a b : Z) : outcome Z :=
  q ← c_div a b;
  int_of q.

Definition int_rem (a b : Z) : outcome Z :=
  _ ← int_div a b;
  Done (Z.rem a b).

Definition ri_cmp (lhs rhs : RationalInt) : outcome Z :=
  if decide (denominator lhs = denominator rhs ∧
             numerator lhs = numerator rhs) then Done 0
  else if decide (signum (denominator lhs) ≠ signum (denominator rhs)) then
    if decide (signum (denominator lhs) < signum (denominator rhs))
    then Done (-1) else Done 1
  else
    ad ← iabs (denominator rhs);
    v1 ← int_of (numerator lhs * ad);
    ad' ← iabs (denominator lhs);
    v2 ← int_of (numerator rhs * ad');
    _ ← assert (bool_decide (v1 ≠ v2));
    if decide (v1 < v2) then Done (-1) else Done 1.

Definition ri_integer (val : RationalInt) : outcome RationalInt :=
  q ← int_div (numerator val) (denominator val);
  ri_new q 1.

Definition ri_fraction (val : RationalInt) : outcome RationalInt :=
  r ← int_rem (numerator val) (denominator val);
  ri_new r (denominator val).

End Rational.

Import PipeSort.
Import Rational.

(** ** Vocabulary of the statements *)

Definition bytes (s : string) : list byte := list_byte_of_string s.
Definition text_line (s : string) : list byte := bytes s ++ [newline].

(** A C string proper: no NUL inside. *)
Definition c_string (s : list byte) : Prop := Forall (λ c, c ≠ NUL) s.

(** A record: text without NUL, ended by its only newline. *)
Fixpoint line_body (l : list byte) : bool :=
  match l with
  | [] => false
  | c :: l' =>
      if decide (c = newline) then bool_decide (l' = [])
      else if decide (c = NUL) then false else line_body l'
  end.

(** A record that [fgets] reads in one piece into a buffer of [MAX_LINE]
    bytes. *)
Definition is_line (l : list byte) : Prop :=
  line_body l = true ∧ (length l < MAX_LINE)%nat.

(** Lexicographic order on the bytes taken as [unsigned char]. *)
Fixpoint lex_le (s1 s2 : list byte) : Prop :=
  match s1, s2 with
  | [], _ => True
  | _ :: _, [] => False
  | c1 :: t1, c2 :: t2 => uchar c1 < uchar c2 ∨ (c1 = c2 ∧ lex_le t1 t2)
  end.

(** The order of the sort and of the merge. *)
Definition line_le : relation (list byte) := in_order qs_compare.

(** A run of the operating system: five children, numbered 100 to 104,
    reported by [waitpid] in some order; the last one is reported with
    status 9, killed by a signal. *)
Definition env5 : Env :=
  mkEnv (λ i, Some (100 + Z.of_nat i)) [(102,0);(100,0);(101,0);(104,9);(103,0)].

(** Round robin: of the records numbered from [k] on, those whose number
    is [i] modulo [nkids]. *)
Fixpoint dealt (nkids k i : nat) (input : list (list byte)) : list (list byte) :=
  match input with
  | [] => []
  | l :: input' =>
      if decide (k mod nkids = i)%nat then l :: dealt nkids (S k) i input'
      else dealt nkids (S k) i input'
  end.

(** The children after [extra i] more bytes were written to child [i]. *)
Definition sent_more (extra : nat → list byte) (kids : list Child) : list Child :=
  imap (λ i kid, mkChild ((λ w, w ++ extra i) <$> fp_to kid) (fp_from kid) (pid kid))
       kids.

(** A child whose stream from the coordinator is open. *)
Definition listening (kid : Child) : Prop := is_Some (fp_to kid).

(** A child as [make_kid] leaves it: nothing written yet. *)
Definition newborn (kid : Child) : Prop := fp_to kid = Some [].

(** The child after [fclose(kid.fp_to); kid.fp_to = 0]. *)
Definition close_to (kid : Child) : Child :=
  mkChild None (fp_from kid) (pid kid).

(** What was written to the child. *)
Definition written_to (kid : Child) : list byte := default [] (fp_to kid).

(** The slot of a kid holds a line: the test of [not_all_done] and of
    [min_line]. *)
Definition has_head (len : list Z) (i : nat) : Prop :=
  ∃ l, len !! i = Some l ∧ 0 < l.

(** What the loop of [min_line] has found among the first [k] slots:
    nothing when none holds a line; otherwise the slot [min_kid] that
    holds the least line, the first of them when several lines tie. *)
Definition scanned (len : list Z) (lines : list (list byte)) (k : nat)
    (st : nat * option (list byte)) : Prop :=
  match st.2 with
  | None => st.1 = O ∧ ∀ j, (j < k)%nat → ¬ has_head len j
  | Some min_str =>
      (st.1 < k)%nat ∧ has_head len st.1 ∧ lines !! st.1 = Some min_str ∧
      ∀ j line, (j < k)%nat → has_head len j → lines !! j = Some line →
        strcmp min_str line ≤ 0 ∧ ((j < st.1)%nat → strcmp min_str line < 0)
  end.

(** A frontier that [merge] can work on: a slot for every kid, strings in
    the buffers, and an open stream behind every slot that holds a
    line. *)
Definition frontier_wf (nkids : nat) (fr : Frontier) : Prop :=
  length (kids fr) = nkids ∧ length (lines fr) = nkids ∧
  length (len fr) = nkids ∧ Forall c_string (lines fr) ∧
  ∀ i kid, has_head (len fr) i → kids fr !! i = Some kid → is_Some (fp_from kid).

(** What bounds the turns left to the loop of [merge]: the bytes not yet
    read and the slots that hold a line. *)
Definition heads (len : list Z) : nat :=
  sum_list_with (λ l, if decide (0 < l) then 1%nat else 0%nat) len.

Definition turns_left (fr : Frontier) : nat :=
  (unread (kids fr) + heads (len fr))%nat.

(** The frontier after slot [m] was refilled by [read_line]. *)
Definition refilled (fr : Frontier) (m : nat) (kid' : Child)
    (buffer : list byte) (length : Z) : Frontier :=
  mkFrontier (<[m := kid']> (kids fr)) (<[m := buffer]> (lines fr))
             (<[m := length]> (len fr)).

(** The turns of the loop of [merge]: from a frontier and what was
    written, the frontiers that the loop passes through. *)
Inductive merge_reaches (nkids : nat) (fr0 : Frontier) (out0 : list byte)
  : Frontier → list byte → Prop :=
  | reaches_start : merge_reaches nkids fr0 out0 fr0 out0
  | reaches_turn fr out fr' output :
      merge_reaches nkids fr0 out0 fr out →
      not_all_done nkids (len fr) = Done true →
      min_line nkids MAX_LINE fr = Done (fr', output) →
      merge_reaches nkids fr0 out0 fr' (fputs output out).

(** The slot of a kid whose stream still has the records [pending] to
    give: it is exhausted when there is none, and otherwise the buffer
    holds the first while the rest waits in the stream. *)
Definition slot_holds (kid : Child) (line : list byte) (l : Z)
    (pending : list (list byte)) : Prop :=
  match pending with
  | [] => fp_from kid = None ∧ line = [] ∧ l = -1
  | head :: rest =>
      fp_from kid = Some (concat rest) ∧ line = head ∧ l = Z.of_nat (strlen head)
  end.

Definition frontier_holds (fr : Frontier) (pending : list (list (list byte)))
  : Prop :=
  length (kids fr) = length pending ∧ length (lines fr) = length pending ∧
  length (len fr) = length pending ∧
  ∀ i p, pending !! i = Some p →
    ∃ kid line l, kids fr !! i = Some kid ∧ lines fr !! i = Some line ∧
                  len fr !! i = Some l ∧ slot_holds kid line l p.

(** The invariant of the merge of the sorted streams [streams]: each
    stream splits into the records already written and those pending,
    the frontier holds the pending ones, and what was written is sorted
    and below everything pending. *)
Definition merging (streams : list (list (list byte))) (fr : Frontier)
    (stdout : list byte) : Prop :=
  ∃ emitted pending merged,
    streams = zip_with app emitted pending ∧
    length emitted = length streams ∧ length pending = length streams ∧
    frontier_holds fr pending ∧
    Forall (Forall is_line) pending ∧
    Forall (StronglySorted line_le) pending ∧
    stdout = concat merged ∧ merged ≡ₚ concat emitted ∧
    StronglySorted line_le merged ∧
    (∀ x y, x ∈ merged → y ∈ concat pending → line_le x y).

(** The children hold the streams [streams] for the coordinator. *)
Definition holding (kids : list Child) (streams : list (list (list byte)))
  : Prop :=
  length kids = length streams ∧
  ∀ i kid s, kids !! i = Some kid → streams !! i = Some s →
    fp_from kid = Some (concat s).

(** [wait_for_kids] marks the kid that [waitpid] reported. *)
Definition reap (p : Z) (kid : Child) : Child :=
  if decide (p = pid kid) then mkChild (fp_to kid) (fp_from kid) (-1) else kid.

Definition reap_all (waited : list (Z * Z)) (kid : Child) : Child :=
  foldl (λ kid pw, reap pw.1 kid) kid waited.

(** The status that [waitpid] reports for a child that called [exit(0)];
    any other status tells of an [exit] with a non-zero code or of a
    signal. *)
Definition exited_normally (status : Z) : Prop := status = 0.

(** Every [make_kid] of [main] succeeds, with these process numbers. *)
Definition all_forked (env : Env) (pids : list Z) : Prop :=
  forked env <$> seq 0 NUM_KIDS = Some <$> pids.

(** [waitpid] reports every child before it returns -1. *)
Definition all_waited (env : Env) (pids : list Z) : Prop :=
  Forall (λ p, p ∈ (waited env).*1) pids ∧ -1 ∉ (waited env).*1.

(** The kid that [make_kid] fills in for process [p]. *)
Definition new_kid (p : Z) : Child := mkChild (Some []) (Some []) p.

(** A value of type [int]. *)
Definition is_int (z : Z) : Prop := INT_MIN ≤ z ≤ INT_MAX.

(** The storage rules of rational.c: the denominator is neither zero nor
    [INT_MIN] and carries the sign, the numerator is not negative, and
    the two have no common divisor unless the numerator is zero. *)
Definition normalized (r : RationalInt) : Prop :=
  is_int (numerator r) ∧ is_int (denominator r) ∧
  denominator r ≠ 0 ∧ denominator r ≠ INT_MIN ∧
  0 ≤ numerator r ∧
  (numerator r = 0 ∨ Z.gcd (numerator r) (denominator r) = 1).

#[global] Instance is_line_dec (l : list byte) : Decision (is_line l).
Proof. unfold is_line. apply _. Defined.

(** Round robin by position: the records of the input whose position is
    [i] modulo [nkids], in the order of the input. *)
Definition share_of (nkids i : nat) (input : list (list byte)) : list (list byte) :=
  (filter (λ kl, (kl.1 mod nkids)%nat = i) (zip (seq 0 (length input)) input)).*2.

(** Sample data. *)
Definition two_kids : list Child := [new_kid 11; new_kid 12].
Definition three_kids : list Child := [new_kid 11; new_kid 12; new_kid 13].
Definition baba : list (list byte) :=
  [text_line "b"; text_line "a"; text_line "b"; text_line "a"].

Definition three_shares : list (list (list byte)) :=
  [[text_line "b"; text_line "a"]; []; [text_line "b"; text_line "a"; text_line ""]].

Definition pids5 : list Z := [100; 101; 102; 103; 104].

(** The text "a" and a longer text that starts with it and goes on with
    a TAB. *)
Definition short_text : list byte := bytes "a".
Definition long_text : list byte := bytes "a" ++ [x09] ++ bytes "b".

#[global] Instance line_le_dec : RelDecision line_le := in_order_dec qs_compare.

(** A frontier where the heads of kids 1 and 2 tie below the head of
    kid 0. *)
Definition tie_frontier : Frontier :=
  mkFrontier
    [mkChild None (Some (text_line "c")) 11; mkChild None (Some []) 12;
     mkChild None (Some (text_line "z")) 13]
    [text_line "b"; text_line "a"; text_line "a"]
    [2; 2; 2].




(** Operands small enough for the products of [ri_add] and its kin to be
    computed without overflow. *)
Definition small (r : RationalInt) : Prop :=
  Z.abs (numerator r) ≤ 32767 ∧ 0 < Z.abs (denominator r) ≤ 32767.

Definition one_kid : list Child := [new_kid 11].

(** [p1_tests] of rational.c: numerator, denominator and the expected
    result of [ri_new]. *)
Definition p1_tests : list (Z * Z * RationalInt) :=
  [ (1, 1, mkRationalInt 1 1); (0, 1, mkRationalInt 0 1);
    (2, 2, mkRationalInt 1 1); (1, 2, mkRationalInt 1 2);
    (15, 3, mkRationalInt 5 1); (28, 6, mkRationalInt 14 3);
    (6, 28, mkRationalInt 3 14); (6, 8, mkRationalInt 3 4);
    (6, -8, mkRationalInt 3 (-4)); (-6, 8, mkRationalInt 3 (-4));
    (-6, -8, mkRationalInt 3 4) ].

(** [p3_tests] of rational.c: operation, operands and expected result. *)
Definition p3_tests
  : list ((RationalInt → RationalInt → outcome RationalInt)
          * RationalInt * RationalInt * RationalInt) :=
  let q := mkRationalInt in
  [ (ri_add, q 0 1, q 0 1, q 0 1); (ri_add, q 1 1, q 0 1, q 1 1);
    (ri_add, q 1 1, q 1 1, q 2 1); (ri_add, q 1 1, q 1 (-1), q 0 1);
    (ri_add, q 23 31, q 37 19, q 1584 589);
    (ri_add, q 14 (-9), q 12 (-7), q 206 (-63));
    (ri_add, q 14 (-9), q 12 7, q 10 63);
    (ri_add, q 14 9, q 12 (-7), q 10 (-63));
    (ri_add, q 14 9, q 12 7, q 206 63);
    (ri_sub, q 0 1, q 0 1, q 0 1); (ri_sub, q 1 1, q 0 1, q 1 1);
    (ri_sub, q 1 1, q 1 1, q 0 1); (ri_sub, q 1 (-1), q 1 1, q 2 (-1));
    (ri_sub, q 1 (-1), q 2 (-1), q 1 1); (ri_sub, q 1 1, q 1 (-1), q 2 1);
    (ri_sub, q 23 31, q 37 19, q 710 (-589));
    (ri_sub, q 14 (-9), q 12 (-7), q 10 63);
    (ri_sub, q 14 (-9), q 12 7, q 206 (-63));
    (ri_sub, q 14 9, q 12 (-7), q 206 63);
    (ri_sub, q 14 9, q 12 7, q 10 (-63));
    (ri_mul, q 0 1, q 0 1, q 0 1); (ri_mul, q 1 1, q 0 1, q 0 1);
    (ri_mul, q 1 1, q 1 1, q 1 1); (ri_mul, q 1 (-1), q 1 1, q 1 (-1));
    (ri_mul, q 1 (-1), q 2 (-1), q 2 1); (ri_mul, q 1 1, q 1 (-1), q 1 (-1));
    (ri_mul, q 23 31, q 37 19, q 851 589);
    (ri_mul, q 14 (-9), q 12 (-7), q 8 3);
    (ri_mul, q 14 (-9), q 12 7, q 8 (-3));
    (ri_mul, q 14 9, q 12 (-7), q 8 (-3));
    (ri_mul, q 14 9, q 12 7, q 8 3);
    (ri_div, q 0 1, q 1 1, q 0 1); (ri_div, q 1 1, q 1 1, q 1 1);
    (ri_div, q 1 (-1), q 1 1, q 1 (-1)); (ri_div, q 1 (-1), q 2 (-1), q 1 2);
    (ri_div, q 1 1, q 1 (-1), q 1 (-1));
    (ri_div, q 23 31, q 37 19, q 437 1147);
    (ri_div, q 14 (-9), q 12 (-7), q 49 54);
    (ri_div, q 14 (-9), q 12 7, q 49 (-54));
    (ri_div, q 14 9, q 12 (-7), q 49 (-54));
    (ri_div, q 14 9, q 12 7, q 49 54) ].

(** Text whose bytes are all above the newline, as printable text is. *)
Definition above_newline (text : list byte) : Prop :=
  Forall (λ b, uchar newline < uchar b) text.

(** The storage rules together with the form [ri_new] gives to zero:
    a value in canonical form. *)
Definition canonical (r : RationalInt) : Prop :=
  normalized r ∧ (numerator r = 0 → denominator r = 1).

(** The rational number that a [RationalInt] stands for. *)
Definition value (r : RationalInt) : Q :=
  (inject_Z (numerator r) / inject_Z (denominator r))%Q.

(** [p2_tests] of rational.c: operands and the expected result of
    [ri_cmp]. *)
Definition p2_tests : list (RationalInt * RationalInt * Z) :=
  let q := mkRationalInt in
  [ (q 0 1, q 0 1, 0); (q 1 1, q 0 1, 1); (q 0 1, q 1 1, -1);
    (q 0 1, q 1 (-1), 1); (q 1 (-1), q 1 1, -1); (q 1 1, q 1 (-1), 1);
    (q 9 10, q 1 1, -1); (q 11 10, q 1 1, 1); (q 9 10, q 19 20, -1);
    (q 9 10, q 17 20, 1) ].

(** [p4_tests] of rational.c: a value, its integer part and its
    fraction. *)
Definition p4_tests : list (RationalInt * RationalInt * RationalInt) :=
  let q := mkRationalInt in
  [ (q 0 1, q 0 1, q 0 1); (q 1 1, q 1 1, q 0 1); (q 1 2, q 0 1, q 1 2);
    (q 3 2, q 1 1, q 1 2); (q 23 12, q 1 1, q 11 12);
    (q 23 (-12), q 1 (-1), q 11 (-12)); (q 12 23, q 0 1, q 12 23);
    (q 12 (-23), q 0 1, q 12 (-23)) ].

#[global] Instance canonical_dec (r : RationalInt) : Decision (canonical r).
Proof. unfold canonical, normalized, is_int. apply _. Defined.

(** Sample values. *)
Definition ri_zero : RationalInt := mkRationalInt 0 1.
Definition ri_one : RationalInt := mkRationalInt 1 1.

(** The bytes a child still holds for the coordinator. *)
Definition unread_bytes (kid : Child) : list byte := default [] (fp_from kid).

(** A child whose stream to the coordinator is open and has no NUL. *)
Definition holds_text (kid : Child) : Prop :=
  ∃ stream, fp_from kid = Some stream ∧ c_string stream.


(** The slot of a kid whose stream has no NUL: it holds a string that is
    not empty in front of the open stream, or the stream was closed at
    its end. *)
Definition slot_bytes (kid : Child) (line : list byte) (l : Z) : Prop :=
  (0 < l ∧ c_string line ∧ holds_text kid) ∨
  (l = -1 ∧ line = [] ∧ fp_from kid = None).

Definition frontier_bytes (nkids : nat) (fr : Frontier) : Prop :=
  length (kids fr) = nkids ∧ length (lines fr) = nkids ∧
  length (len fr) = nkids ∧
  ∀ i kid line l, kids fr !! i = Some kid → lines fr !! i = Some line →
    len fr !! i = Some l → slot_bytes kid line l.

(** The bytes that [merge] has still to write: the buffers and what the
    streams hold. *)
Definition in_flight (fr : Frontier) : list byte :=
  concat (lines fr) ++ concat (unread_bytes <$> kids fr).

(** A piece of text as one [fgets] into a buffer of [MAX_LINE] bytes
    delivers it. *)
Definition is_piece (p : list byte) : Prop :=
  p ≠ [] ∧ (length p < MAX_LINE)%nat ∧ c_string p.

#[global] Instance c_string_dec (s : list byte) : Decision (c_string s).
Proof. unfold c_string. apply _. Defined.

(** Text whose last line has no newline, with a line longer than the
    buffer of [fgets] before it. *)
Definition ragged_text : list byte :=
  text_line "pear" ++ replicate 5000 x62 ++ [newline] ++ bytes "apple".

(** Two children after the merge, and a run of [waitpid] that reports
    only the second, killed by a signal. *)
Definition two_closed : list Child :=
  [mkChild None None 11; mkChild None None 12].

Definition one_report : list (Z * Z) := [(12, 9)].

(** What was sent to every child but kid 0 fits a pipe of [capacity]
    bytes. *)
Definition sent_fits (capacity : nat) (sent : list (list byte)) : Prop :=
  Forall (λ s, (length s ≤ capacity)%nat) (tail sent).

#[global] Instance sent_fits_dec capacity sent : Decision (sent_fits capacity sent).
Proof. unfold sent_fits. apply _. Defined.

(** The records dealt to every child but kid 0 fit a pipe of [capacity]
    bytes. *)
Definition shares_fit (capacity nkids : nat) (input : list (list byte)) : Prop :=
  Forall (λ i, (length (concat (share_of nkids i input)) ≤ capacity)%nat)
         (seq 1 (nkids - 1)).

#[global] Instance shares_fit_dec capacity nkids input :
  Decision (shares_fit capacity nkids input).
Proof. unfold shares_fit. apply _. Defined.

(** Five children just made, and a record as long as the buffer of
    [fgets] allows; the capacity of a pipe on Linux is 65536 bytes. *)
Definition five_kids : list Child := new_kid <$> pids5.
Definition long_record : list byte := replicate 4094 x78 ++ [newline].
Definition linux_pipe : nat := Z.to_nat 65536.

(** * Properties *)

(** ** Outcomes and loops *)

Lemma for_loop_S {S : Type} (n : nat) (body : nat → S → outcome S) (s : S) :
  for_loop (Datatypes.S n) body s = s' ← for_loop n body s; body n s'.
Proof.
  unfold for_loop. rewrite seq_S, foldl_app. reflexivity.
Qed.

(** The rule of the [for] loop: an invariant that every turn
    re-establishes holds at the end, and the loop ends. *)
Lemma for_loop_inv {S : Type} (I : nat → S → Prop) (n : nat)
    (body : nat → S → outcome S) (s : S) :
  I O s →
  (∀ i t, (i < n)%nat → I i t → ∃ t', body i t = Done t' ∧ I (Datatypes.S i) t') →
  ∃ s', for_loop n body s = Done s' ∧ I n s'.
Proof.
  intros H0 Hstep. induction n as [|n IH].
  - exists s. split; [reflexivity | assumption].
  - destruct IH as (s1 & E1 & I1).
    { intros i t Hi. apply Hstep. lia. }
    destruct (Hstep n s1) as (s2 & E2 & I2); [lia | assumption |].
    exists s2. split; [| assumption].
    rewrite for_loop_S, E1. exact E2.
Qed.

Lemma for_loop_exit {S : Type} (n i : nat) (body : nat → S → outcome S)
    (s s' : S) (status : Z) (stderr : diagnostic) :
  (i < n)%nat → for_loop i body s = Done s' → body i s' = Exit status stderr →
  for_loop n body s = Exit status stderr.
Proof.
  intros Hi E Ebody. induction n as [|n IH]; [lia|].
  rewrite for_loop_S. destruct (decide (i = n)) as [->|Hne].
  - rewrite E. exact Ebody.
  - rewrite IH by lia. reflexivity.
Qed.

Lemma bind_Done {A B : Type} (m : outcome A) (f : A → outcome B) (b : B) :
  m ≫= f = Done b → ∃ a, m = Done a ∧ f a = Done b.
Proof. destruct m; simpl; try discriminate. eauto. Qed.

(** ** Strings *)

Lemma uchar_inj (a b : byte) : uchar a = uchar b → a = b.
Proof.
  unfold uchar. intros H. apply N2Z.inj in H.
  assert (Some a = Some b) as E
    by (rewrite <- (Byte.of_to_N a), <- (Byte.of_to_N b); congruence).
  congruence.
Qed.

Lemma uchar_pos (c : byte) : c ≠ NUL → 0 < uchar c.
Proof.
  intros Hc. assert (uchar c ≠ uchar NUL) as Hne
    by (intros E; apply Hc, uchar_inj, E).
  unfold uchar in *. change (Z.of_N (Byte.to_N NUL)) with 0 in Hne. lia.
Qed.

Lemma strcmp_sym (s1 s2 : list byte) : strcmp s2 s1 = - strcmp s1 s2.
Proof.
  revert s2. induction s1 as [|c1 t1 IH]; intros [|c2 t2]; simpl; try lia.
  repeat case_decide; subst; try congruence; try lia; auto.
Qed.

Lemma strcmp_refl (s : list byte) : strcmp s s = 0.
Proof. induction s; simpl; [reflexivity | case_decide; congruence]. Qed.

Lemma strcmp_lex (s1 s2 : list byte) :
  c_string s1 → c_string s2 → strcmp s1 s2 ≤ 0 ↔ lex_le s1 s2.
Proof.
  unfold c_string. revert s2.
  induction s1 as [|c1 t1 IH]; intros [|c2 t2] H1 H2; simpl.
  - split; [tauto | lia].
  - apply Forall_cons in H2 as [H2 _]. apply uchar_pos in H2. split; [tauto | lia].
  - apply Forall_cons in H1 as [H1 _]. apply uchar_pos in H1. split; [lia | tauto].
  - apply Forall_cons in H1 as [_ H1]. apply Forall_cons in H2 as [_ H2].
    case_decide as E.
    + subst. rewrite (IH t2 H1 H2). split; [tauto |].
      intros [?|[_ ?]]; [lia | assumption].
    + split; [intros ?; left |].
      * assert (uchar c1 ≠ uchar c2) by (intros ?; apply E, uchar_inj; assumption). lia.
      * intros [?|[? _]]; [lia | contradiction].
Qed.

Lemma strcmp_eq (s1 s2 : list byte) :
  c_string s1 → c_string s2 → strcmp s1 s2 = 0 → s1 = s2.
Proof.
  unfold c_string. revert s2.
  induction s1 as [|c1 t1 IH]; intros [|c2 t2] H1 H2; simpl; intros E.
  - reflexivity.
  - apply Forall_cons in H2 as [H2 _]. apply uchar_pos in H2. lia.
  - apply Forall_cons in H1 as [H1 _]. apply uchar_pos in H1. lia.
  - apply Forall_cons in H1 as [_ H1]. apply Forall_cons in H2 as [_ H2].
    case_decide as Ec.
    + subst. f_equal. apply IH; assumption.
    + exfalso. apply Ec, uchar_inj. lia.
Qed.

Lemma lex_le_trans (s1 s2 s3 : list byte) :
  lex_le s1 s2 → lex_le s2 s3 → lex_le s1 s3.
Proof.
  revert s2 s3. induction s1 as [|c1 t1 IH]; intros [|c2 t2] [|c3 t3]; simpl; try tauto.
  intros [?|[-> ?]] [?|[-> ?]]; try (left; lia). right. split; [reflexivity | eauto].
Qed.

Lemma line_le_trans (s1 s2 s3 : list byte) :
  c_string s1 → c_string s2 → c_string s3 →
  line_le s1 s2 → line_le s2 s3 → line_le s1 s3.
Proof.
  unfold line_le, in_order, qs_compare. intros H1 H2 H3.
  rewrite !strcmp_lex by assumption. apply lex_le_trans.
Qed.

Lemma line_le_antisym (s1 s2 : list byte) :
  c_string s1 → c_string s2 → line_le s1 s2 → line_le s2 s1 → s1 = s2.
Proof.
  unfold line_le, in_order, qs_compare. intros H1 H2 L1 L2.
  apply strcmp_eq; try assumption. rewrite (strcmp_sym s1 s2) in L2. lia.
Qed.

#[global] Instance line_le_total : Total line_le.
Proof.
  intros s1 s2. unfold line_le, in_order, qs_compare.
  rewrite (strcmp_sym s1 s2). lia.
Qed.

Lemma strcmp_common_prefix (c s1 s2 : list byte) :
  strcmp (c ++ s1) (c ++ s2) = strcmp s1 s2.
Proof.
  induction c as [|b c IH]; simpl; [reflexivity|].
  rewrite decide_True by reflexivity. exact IH.
Qed.

(** A record against a longer one that starts with its text: the byte
    after the text decides, against the newline. *)
Lemma qs_compare_prefix (c : list byte) (b : byte) (rest : list byte) :
  b ≠ newline →
  qs_compare (c ++ [newline]) (c ++ b :: rest) < 0 ↔ uchar newline < uchar b.
Proof.
  intros Hb. unfold qs_compare. rewrite strcmp_common_prefix. simpl.
  rewrite decide_False by congruence. lia.
Qed.

(** On text above the newline the order of the records is the order of
    their texts. *)
Lemma lex_le_records (text1 text2 : list byte) :
  above_newline text1 → above_newline text2 →
  lex_le (text1 ++ [newline]) (text2 ++ [newline]) ↔ lex_le text1 text2.
Proof.
  unfold above_newline. intros H1. revert text2.
  induction H1 as [|a text1 Ha _ IH]; intros text2 H2.
  - destruct H2 as [|b text2 Hb _]; simpl; [tauto|]. split; [tauto|]. intros _. left. exact Hb.
  - destruct H2 as [|b text2 Hb H2]; simpl.
    + split; [|tauto]. intros [Hlt|[-> _]]; lia.
    + rewrite (IH text2 H2). reflexivity.
Qed.

(** A string that starts a longer one comes before it. *)
Lemma qs_compare_strict_prefix (s more : list byte) :
  more ≠ [] → c_string more → qs_compare s (s ++ more) < 0.
Proof.
  intros Hne Hc. unfold qs_compare.
  rewrite <- (app_nil_r s) at 1. rewrite strcmp_common_prefix.
  destruct more as [|c more]; [contradiction|].
  apply Forall_cons in Hc as [Hc _]. apply uchar_pos in Hc. simpl. lia.
Qed.

Lemma cstr_c_string buf : c_string (cstr buf).
Proof.
  unfold c_string. induction buf as [|c buf IH]; simpl; [constructor|].
  case_decide; [constructor|]. constructor; assumption.
Qed.

Lemma cstr_id s : c_string s → cstr s = s.
Proof.
  unfold c_string. induction 1 as [|c s Hc _ IH]; simpl; [reflexivity|].
  case_decide; [contradiction | congruence].
Qed.

Lemma line_body_c_string l : line_body l = true → c_string l.
Proof.
  unfold c_string. induction l as [|c l IH]; simpl; [constructor|].
  case_decide as E1.
  - intros E%bool_decide_eq_true. subst. repeat constructor. discriminate.
  - case_decide; [discriminate|]. intros. constructor; auto.
Qed.

Lemma line_body_nonempty l : line_body l = true → l ≠ [].
Proof. destruct l; [discriminate | discriminate]. Qed.

Lemma fgets_scan_line room l rest :
  line_body l = true → (length l ≤ room)%nat → fgets_scan room (l ++ rest) = (l, rest).
Proof.
  revert room. induction l as [|c l IH]; intros room; simpl; [discriminate|].
  destruct room as [|room]; [lia|]. simpl.
  case_decide as E1.
  - intros E%bool_decide_eq_true _. subst. reflexivity.
  - case_decide; [discriminate|]. intros Hb Hl.
    rewrite IH by (assumption || lia). reflexivity.
Qed.

Lemma fgets_line l rest :
  is_line l → fgets MAX_LINE (l ++ rest) = Some (l, rest).
Proof.
  intros [Hb Hl]. unfold fgets.
  destruct (l ++ rest) as [|c s] eqn:E.
  - destruct l; [discriminate | discriminate].
  - rewrite <- E, fgets_scan_line by (assumption || lia).
    rewrite cstr_id by (apply line_body_c_string; assumption). reflexivity.
Qed.

Lemma fgets_eof size : fgets size [] = None.
Proof. reflexivity. Qed.

(** Whatever the stream, [fgets] hands out a C string and, when there is
    room for a byte, shortens the stream. *)
Lemma fgets_scan_length room stream got rest :
  fgets_scan room stream = (got, rest) → (length got + length rest = length stream)%nat.
Proof.
  revert stream got rest. induction room as [|room IH]; intros stream got rest; simpl.
  - intros [= <- <-]. reflexivity.
  - destruct stream as [|c s]; [intros [= <- <-]; reflexivity|].
    case_decide.
    + intros [= <- <-]. reflexivity.
    + destruct (fgets_scan room s) as [g r] eqn:E. intros [= <- <-].
      apply IH in E. simpl. lia.
Qed.

Lemma fgets_shortens size stream buffer rest :
  (2 ≤ size)%nat → fgets size stream = Some (buffer, rest) →
  c_string buffer ∧ (length rest < length stream)%nat.
Proof.
  intros Hs. unfold fgets. destruct stream as [|c s]; [discriminate|].
  destruct (fgets_scan (size - 1) (c :: s)) as [g r] eqn:E.
  intros [= <- <-]. split; [apply cstr_c_string|].
  destruct (size - 1)%nat as [|room] eqn:Er; [lia|].
  simpl in E. case_decide.
  - injection E as <- <-. simpl. lia.
  - destruct (fgets_scan room s) as [g' r'] eqn:E'. injection E as <- <-.
    apply fgets_scan_length in E'. simpl. lia.
Qed.

(** ** Sorted lists of strings *)

Lemma is_line_c_string l : is_line l → c_string l.
Proof. intros [Hb _]. apply line_body_c_string, Hb. Qed.

Lemma lines_c_strings (ls : list (list byte)) : Forall is_line ls → Forall c_string ls.
Proof. intros H. eapply Forall_impl; [exact H | apply is_line_c_string]. Qed.

(** [line_le] is transitive on strings without NUL, so a list of such
    strings that is sorted link by link is sorted throughout. *)
Lemma Sorted_line_le_strongly (ls : list (list byte)) :
  Forall c_string ls → Sorted line_le ls → StronglySorted line_le ls.
Proof.
  induction 1 as [|s ls Hs Hls IH]; intros HS; [constructor|].
  apply Sorted_inv in HS as [HS Hhd]. specialize (IH HS).
  constructor; [assumption|].
  destruct Hhd as [|s' ls' Hle]; [constructor|].
  apply StronglySorted_inv in IH as [_ Hall].
  apply Forall_cons in Hls as [Hs' Hls].
  constructor; [assumption|].
  rewrite Forall_forall in Hall, Hls |- *. intros x Hx.
  eapply (line_le_trans s s' x); auto.
Qed.

Lemma StronglySorted_line_le_Sorted (ls : list (list byte)) :
  StronglySorted line_le ls → Sorted line_le ls.
Proof. apply StronglySorted_Sorted. Qed.

(** Two sorted arrangements of the same strings are the same list: ties
    under [strcmp] are identical strings. *)
Lemma sorted_lines_unique (l1 l2 : list (list byte)) :
  Forall c_string l1 → Sorted line_le l1 → Sorted line_le l2 → l1 ≡ₚ l2 → l1 = l2.
Proof.
  intros Hc S1 S2 HP.
  assert (Forall c_string l2) as Hc2 by (rewrite <- HP; assumption).
  apply (StronglySorted_unique_strong line_le); try assumption.
  - rewrite Forall_forall in Hc, Hc2. intros x1 x2 ????.
    apply line_le_antisym; auto.
  - apply Sorted_line_le_strongly; assumption.
  - apply Sorted_line_le_strongly; assumption.
Qed.

Lemma Sorted_line_le_lex (ls : list (list byte)) :
  Forall c_string ls → Sorted line_le ls → Sorted lex_le ls.
Proof.
  intros Hc HS. induction HS as [|s ls HS IH Hhd]; [constructor|].
  apply Forall_cons in Hc as [Hs Hls]. constructor; [auto|].
  destruct Hhd as [|s' ls' Hle]; constructor.
  apply Forall_cons in Hls as [Hs' _].
  apply strcmp_lex; assumption.
Qed.

Lemma qsort_Permutation (ls : list (list byte)) : qsort qs_compare ls ≡ₚ ls.
Proof. apply merge_sort_Permutation. Qed.

Lemma qsort_Sorted (ls : list (list byte)) : Sorted line_le (qsort qs_compare ls).
Proof. apply (Sorted_merge_sort line_le). Qed.

(** Whatever algorithm [qsort] runs, on strings it can only return this
    array. *)
Lemma qsort_unique (ls sorted : list (list byte)) :
  Forall c_string ls → sorted ≡ₚ ls → Sorted line_le sorted →
  sorted = qsort qs_compare ls.
Proof.
  intros Hc HP HS. apply sorted_lines_unique.
  - rewrite HP. assumption.
  - assumption.
  - apply qsort_Sorted.
  - rewrite HP. symmetry. apply qsort_Permutation.
Qed.

(** ** The worker *)

Lemma fputs_all (ls : list (list byte)) (written : list byte) :
  foldl (λ stdout line, fputs line stdout) written ls = written ++ concat ls.
Proof.
  revert written. induction ls as [|l ls IH]; intros written; simpl.
  - rewrite app_nil_r. reflexivity.
  - rewrite IH. unfold fputs. rewrite <- app_assoc. reflexivity.
Qed.

Lemma is_line_length l : is_line l → (0 < length l)%nat.
Proof. intros [Hb _]. destruct l; [discriminate | simpl; lia]. Qed.

Lemma be_childish_read_lines (input : list (list byte)) :
  Forall is_line input →
  ∀ fuel acc cap, (length (concat input) < fuel)%nat →
  be_childish_read fuel (concat input) acc cap = Done (acc ++ input).
Proof.
  induction 1 as [|l input Hl Hin IH]; intros fuel acc cap Hfuel.
  - destruct fuel; [simpl in Hfuel; lia|]. simpl. rewrite app_nil_r. reflexivity.
  - destruct fuel; [lia|]. cbn [concat] in *. cbn [be_childish_read].
    rewrite fgets_line by assumption.
    rewrite length_app in Hfuel. apply is_line_length in Hl.
    rewrite IH by lia. unfold estrdup. rewrite <- app_assoc. reflexivity.
Qed.

(** A worker fed with records writes them back in the order of
    [qs_compare]. *)
Lemma be_childish_lines (input : list (list byte)) :
  Forall is_line input →
  be_childish (concat input) = Done (concat (qsort qs_compare input)).
Proof.
  intros Hin. unfold be_childish.
  rewrite be_childish_read_lines by (assumption || lia). simpl.
  rewrite fputs_all. reflexivity.
Qed.

(** A worker ends whatever it is fed. *)
Lemma be_childish_read_total (fuel : nat) :
  ∀ stdin acc cap, (length stdin < fuel)%nat →
  ∃ lines, be_childish_read fuel stdin acc cap = Done lines.
Proof.
  induction fuel as [|fuel IH]; intros stdin acc cap Hfuel; [lia|].
  simpl. destruct (fgets MAX_LINE stdin) as [[input rest]|] eqn:E.
  - apply fgets_shortens in E as [_ Hlen]; [| unfold MAX_LINE; lia].
    apply IH. lia.
  - eexists. reflexivity.
Qed.

Lemma be_childish_total (stdin : list byte) : ∃ out, be_childish stdin = Done out.
Proof.
  unfold be_childish.
  destruct (be_childish_read_total (S (length stdin)) stdin [] 0%nat) as [ls E]; [lia|].
  rewrite E. eexists. reflexivity.
Qed.

(** ** The distributor *)

Lemma next_cursor (nkids k : nat) :
  (0 < nkids)%nat →
  (if decide (nkids ≤ S (k mod nkids))%nat then O else S (k mod nkids))
  = (S k mod nkids)%nat.
Proof.
  intros Hn.
  pose proof (Nat.mod_upper_bound k nkids ltac:(lia)) as Hk.
  pose proof (Nat.div_mod_eq k nkids) as Hd.
  case_decide as Hc.
  - apply (Nat.mod_unique _ _ (S (k / nkids)) 0); lia.
  - apply (Nat.mod_unique _ _ (k / nkids) (S (k mod nkids))); lia.
Qed.

Lemma sent_more_nothing (kids : list Child) :
  sent_more (λ _, []) kids = kids.
Proof.
  unfold sent_more. apply list_eq. intros i. rewrite list_lookup_imap.
  destruct (kids !! i) as [[to from p]|]; simpl; [|reflexivity].
  destruct to; simpl; [rewrite app_nil_r|]; reflexivity.
Qed.

Lemma sent_more_length extra kids : length (sent_more extra kids) = length kids.
Proof. apply length_imap. Qed.

Lemma distribute_loop_lines (nkids : nat) (input : list (list byte)) :
  (0 < nkids)%nat → Forall is_line input →
  ∀ fuel k kids,
    (length (concat input) < fuel)%nat →
    length kids = nkids → Forall listening kids →
    distribute_loop fuel nkids (concat input) kids (k mod nkids)
    = Done (sent_more (λ i, concat (dealt nkids k i input)) kids).
Proof.
  intros Hn. induction 1 as [|l input Hl Hin IH]; intros fuel k kids Hfuel Hlen Hopen.
  - destruct fuel; [simpl in Hfuel; lia|]. simpl. rewrite sent_more_nothing. reflexivity.
  - destruct fuel; [lia|]. cbn [concat] in *. cbn [distribute_loop].
    rewrite fgets_line by assumption.
    pose proof (Nat.mod_upper_bound k nkids ltac:(lia)) as Hk.
    destruct (lookup_lt_is_Some_2 kids (k mod nkids)) as [kid Hkid]; [lia|].
    rewrite Hkid.
    destruct (Forall_lookup_1 _ _ _ _ Hopen Hkid) as [w Hw]. rewrite Hw.
    rewrite next_cursor by assumption.
    rewrite length_app in Hfuel. apply is_line_length in Hl.
    rewrite IH; [| lia | rewrite length_insert; assumption |].
    + f_equal. unfold sent_more. apply list_eq. intros i.
      rewrite !list_lookup_imap. cbn [dealt].
      destruct (decide (k mod nkids = i)%nat) as [<-|Hne].
      * rewrite list_lookup_insert_eq by lia. rewrite Hkid. simpl.
        rewrite Hw. simpl. unfold fputs. rewrite <- app_assoc. reflexivity.
      * rewrite list_lookup_insert_ne by assumption. reflexivity.
    + apply Forall_insert; [assumption|]. eexists. reflexivity.
Qed.

Lemma distribute_loop_total (nkids : nat) (fuel : nat) :
  ∀ stdin kids n,
    (length stdin < fuel)%nat → (n < nkids)%nat →
    length kids = nkids → Forall listening kids →
    ∃ kids', distribute_loop fuel nkids stdin kids n = Done kids' ∧
      length kids' = nkids ∧ Forall listening kids' ∧
      pid <$> kids' = pid <$> kids.
Proof.
  induction fuel as [|fuel IH]; intros stdin kids n Hfuel Hn Hlen Hopen; [lia|].
  simpl. destruct (fgets MAX_LINE stdin) as [[input rest]|] eqn:E.
  - apply fgets_shortens in E as [_ Hshort]; [| unfold MAX_LINE; lia].
    destruct (lookup_lt_is_Some_2 kids n) as [kid Hkid]; [lia|]. rewrite Hkid.
    destruct (Forall_lookup_1 _ _ _ _ Hopen Hkid) as [w Hw]. rewrite Hw.
    edestruct (IH rest) as (kids' & E' & Hlen' & Hopen' & Hpid'); cycle 4.
    + exists kids'. split; [exact E'|]. split; [exact Hlen'|]. split; [exact Hopen'|].
      rewrite Hpid'. rewrite list_fmap_insert. simpl.
      apply list_insert_id. rewrite list_lookup_fmap, Hkid. reflexivity.
    + lia.
    + case_decide; lia.
    + rewrite length_insert. assumption.
    + apply Forall_insert; [assumption|]. eexists. reflexivity.
  - exists kids. auto.
Qed.

(** The closing loop hands every child what was written for it. *)
Lemma distribute_close_all (nkids : nat) (kids : list Child) :
  length kids = nkids → Forall listening kids →
  for_loop nkids distribute_close (kids, [])
  = Done (close_to <$> kids, written_to <$> kids).
Proof.
  intros Hlen Hopen.
  destruct (for_loop_inv
    (λ i st, st = ((close_to <$> take i kids) ++ drop i kids, written_to <$> take i kids))
    nkids distribute_close (kids, [])) as (st & E & HI).
  - reflexivity.
  - intros i [ks sent] Hi [= -> ->].
    destruct (lookup_lt_is_Some_2 kids i) as [kid Hkid]; [lia|].
    destruct (Forall_lookup_1 _ _ _ _ Hopen Hkid) as [w Hw].
    eexists. split.
    + unfold distribute_close.
      rewrite lookup_app_r by (rewrite length_fmap, length_take; lia).
      rewrite length_fmap, length_take, Nat.min_l by lia.
      rewrite Nat.sub_diag, lookup_drop, Nat.add_0_r, Hkid, Hw. reflexivity.
    + rewrite (take_S_r _ _ _ Hkid), !fmap_app. simpl.
      f_equal.
      * rewrite insert_app_r_alt by (rewrite length_fmap, length_take; lia).
        rewrite length_fmap, length_take, Nat.min_l by lia.
        rewrite Nat.sub_diag, <- app_assoc. f_equal.
        rewrite (drop_S _ _ _ Hkid). reflexivity.
      * unfold written_to at 3. rewrite Hw. reflexivity.
  - rewrite E, HI. rewrite <- Hlen, firstn_all, drop_all, app_nil_r. reflexivity.
Qed.

Lemma sent_more_listening extra kids :
  Forall listening kids → Forall listening (sent_more extra kids).
Proof.
  rewrite !Forall_lookup. intros H i kid. unfold sent_more.
  rewrite list_lookup_imap. destruct (kids !! i) as [k0|] eqn:E; [|discriminate].
  intros [= <-]. destruct (H _ _ E) as [w Hw]. unfold listening. simpl.
  rewrite Hw. eexists. reflexivity.
Qed.

(** What every child has received when [distribute] returns. *)
Lemma distribute_lines (nkids : nat) (kids : list Child) (input : list (list byte)) :
  (0 < nkids)%nat → length kids = nkids → Forall newborn kids → Forall is_line input →
  distribute nkids kids (concat input)
  = Done (close_to <$> kids, (λ i, concat (dealt nkids 0 i input)) <$> seq 0 nkids).
Proof.
  intros Hn Hlen Hfresh Hin.
  assert (Forall listening kids) as Hopen.
  { eapply Forall_impl; [exact Hfresh|]. intros kid Hk. unfold listening. rewrite Hk. eexists; reflexivity. }
  unfold distribute.
  pose proof (distribute_loop_lines nkids input Hn Hin
                (S (length (concat input))) O kids) as Eloop.
  rewrite Nat.Div0.mod_0_l in Eloop. rewrite Eloop by (assumption || lia).
  simpl. rewrite distribute_close_all;
    [| rewrite sent_more_length; assumption | apply sent_more_listening; assumption].
  f_equal. f_equal.
  - apply list_eq. intros i. unfold sent_more.
    rewrite !list_lookup_fmap, list_lookup_imap.
    destruct (kids !! i); reflexivity.
  - apply list_eq. intros i. unfold sent_more.
    rewrite !list_lookup_fmap, list_lookup_imap.
    destruct (kids !! i) as [kid|] eqn:E.
    + rewrite lookup_seq_lt by (apply lookup_lt_Some in E; lia). simpl.
      rewrite Forall_lookup in Hfresh. specialize (Hfresh _ _ E).
      unfold written_to. simpl. rewrite Hfresh. reflexivity.
    + rewrite lookup_seq_ge by (apply lookup_ge_None in E; lia). reflexivity.
Qed.

Lemma concat_cons_at {A : Type} (g : nat → list A) (x : A) (i0 : nat) (idx : list nat) :
  NoDup idx →
  concat ((λ i, if decide (i0 = i) then x :: g i else g i) <$> idx)
  ≡ₚ (if decide (i0 ∈ idx) then [x] else []) ++ concat (g <$> idx).
Proof.
  induction 1 as [|i idx Hi Hnd IH]; simpl.
  - reflexivity.
  - rewrite IH.
    destruct (decide (i0 ∈ idx)) as [Hin|Hnin],
      (decide (i0 ∈ i :: idx)) as [Hin'|Hnin'],
      (decide (i0 = i)) as [->|Hne]; simpl;
      try reflexivity; try contradiction.
    all: try (symmetry; apply Permutation_middle).
    all: exfalso; rewrite elem_of_cons in *; tauto.
Qed.

(** Dealing loses nothing and invents nothing. *)
Lemma dealt_Permutation (nkids : nat) (input : list (list byte)) :
  (0 < nkids)%nat →
  ∀ k, concat ((λ i, dealt nkids k i input) <$> seq 0 nkids) ≡ₚ input.
Proof.
  intros Hn. induction input as [|l input IH]; intros k.
  - simpl. induction (seq 0 nkids); [reflexivity | assumption].
  - cbn [dealt].
    rewrite (concat_cons_at (λ i, dealt nkids (S k) i input) l (k mod nkids))
      by apply NoDup_seq.
    rewrite decide_True.
    + simpl. rewrite IH. reflexivity.
    + apply elem_of_seq. pose proof (Nat.mod_upper_bound k nkids). lia.
Qed.

Lemma dealt_lines nkids k i input : Forall is_line input → Forall is_line (dealt nkids k i input).
Proof.
  intros H. revert k. induction H as [|l input Hl _ IH]; intros k; simpl; [constructor|].
  case_decide; [constructor|]; auto.
Qed.

Lemma dealt_share_of_from (nkids i : nat) (input : list (list byte)) (k : nat) :
  dealt nkids k i input
  = (filter (λ kl, (kl.1 mod nkids)%nat = i) (zip (seq k (length input)) input)).*2.
Proof.
  revert k. induction input as [|l input IH]; intros k; [reflexivity|].
  cbn [dealt length seq zip zip_with]. rewrite filter_cons. simpl.
  case_decide; simpl; rewrite IH; reflexivity.
Qed.

Lemma dealt_share_of (nkids i : nat) (input : list (list byte)) :
  dealt nkids 0 i input = share_of nkids i input.
Proof. apply dealt_share_of_from. Qed.

(** ** The merger: one turn *)

Lemma strcmp_le_trans (s1 s2 s3 : list byte) :
  c_string s1 → c_string s2 → c_string s3 →
  strcmp s1 s2 ≤ 0 → strcmp s2 s3 ≤ 0 → strcmp s1 s3 ≤ 0.
Proof. apply line_le_trans. Qed.

Lemma min_line_scan_step (len : list Z) (lines : list (list byte)) (k : nat)
    (st : nat * option (list byte)) :
  (k < length len)%nat → (k < length lines)%nat → Forall c_string lines →
  scanned len lines k st →
  ∃ st', min_line_scan len lines k st = Done st' ∧ scanned len lines (S k) st'.
Proof.
  intros Hk1 Hk2 Hc Hsc.
  destruct (lookup_lt_is_Some_2 len k Hk1) as [l Hl].
  destruct (lookup_lt_is_Some_2 lines k Hk2) as [line Hline].
  destruct st as [min_kid min_str]. unfold min_line_scan. rewrite Hl, Hline.
  assert (∀ j, (j < S k)%nat → j = k ∨ (j < k)%nat) as Hcase by lia.
  rewrite Forall_lookup in Hc.
  case_decide as Hpos.
  - (* the slot holds no line: [continue] *)
    eexists. split; [reflexivity|].
    assert (¬ has_head len k) as Hno.
    { intros (l' & Hl' & ?). rewrite Hl in Hl'. injection Hl' as <-. lia. }
    unfold scanned in *. simpl in *. destruct min_str as [m|].
    + destruct Hsc as (Hlt & Hh & Hm & Hmin).
      split; [lia|]. split; [assumption|]. split; [assumption|].
      intros j t Hj Hhj Ht. destruct (Hcase j Hj) as [->|Hj']; [contradiction|].
      eapply Hmin; eassumption.
    + destruct Hsc as [-> Hnone]. split; [reflexivity|].
      intros j Hj. destruct (Hcase j Hj) as [->|Hj']; auto.
  - assert (has_head len k) as Hhead by (exists l; split; [assumption | lia]).
    unfold scanned in *. simpl in *. destruct min_str as [m|].
    + destruct Hsc as (Hlt & Hh & Hm & Hmin).
      case_decide as Hcmp.
      * (* a smaller line: the slot becomes the minimum *)
        eexists. split; [reflexivity|]. simpl.
        split; [lia|]. split; [assumption|]. split; [assumption|].
        intros j t Hj Hhj Ht. destruct (Hcase j Hj) as [->|Hj'].
        -- rewrite Hline in Ht. injection Ht as <-. rewrite strcmp_refl. lia.
        -- destruct (Hmin j t Hj' Hhj Ht) as [Hle _].
           assert (strcmp line t < 0); [|lia].
           destruct (Z_lt_ge_dec (strcmp line t) 0) as [?|Hge]; [assumption|].
           exfalso. assert (strcmp m line ≤ 0); [|lia].
           apply (strcmp_le_trans m t line); eauto.
           rewrite (strcmp_sym line t). lia.
      * (* not smaller: the minimum stays *)
        eexists. split; [reflexivity|]. simpl.
        split; [lia|]. split; [assumption|]. split; [assumption|].
        intros j t Hj Hhj Ht. destruct (Hcase j Hj) as [->|Hj'].
        -- rewrite Hline in Ht. injection Ht as <-. lia.
        -- eapply Hmin; eassumption.
    + (* the first line met *)
      destruct Hsc as [-> Hnone].
      eexists. split; [reflexivity|]. simpl.
      split; [lia|]. split; [assumption|]. split; [assumption|].
      intros j t Hj Hhj Ht. destruct (Hcase j Hj) as [->|Hj'].
      * rewrite Hline in Ht. injection Ht as <-. rewrite strcmp_refl. lia.
      * exfalso. eapply Hnone; eassumption.
Qed.

(** The loop of [min_line] over all the slots. *)
Lemma min_line_scan_all (nkids : nat) (len : list Z) (lines : list (list byte)) :
  length len = nkids → length lines = nkids → Forall c_string lines →
  ∃ st, for_loop nkids (min_line_scan len lines) (O, None) = Done st ∧
        scanned len lines nkids st.
Proof.
  intros Hl1 Hl2 Hc.
  apply (for_loop_inv (scanned len lines)).
  - split; [reflexivity | intros j Hj; lia].
  - intros i st Hi Hsc. apply min_line_scan_step; try assumption; lia.
Qed.

(** The loop of [min_line] finds a line whenever a slot holds one. *)
Lemma min_line_scan_finds (nkids : nat) (len : list Z) (lines : list (list byte)) :
  length len = nkids → length lines = nkids →
  ∃ st, for_loop nkids (min_line_scan len lines) (O, None) = Done st ∧
        match st.2 with
        | None => ∀ j, (j < nkids)%nat → ¬ has_head len j
        | Some min_str =>
            (st.1 < nkids)%nat ∧ has_head len st.1 ∧ lines !! st.1 = Some min_str
        end.
Proof.
  intros Hl1 Hl2.
  apply (for_loop_inv
    (λ k st, match st.2 with
             | None => ∀ j, (j < k)%nat → ¬ has_head len j
             | Some min_str =>
                 (st.1 < k)%nat ∧ has_head len st.1 ∧ lines !! st.1 = Some min_str
             end)).
  - simpl. intros j Hj. lia.
  - intros k [min_kid min_str] Hk Hinv. simpl in Hinv.
    destruct (lookup_lt_is_Some_2 len k) as [l Hl]; [lia|].
    destruct (lookup_lt_is_Some_2 lines k) as [line Hline]; [lia|].
    unfold min_line_scan. rewrite Hl, Hline.
    case_decide as Hpos.
    + eexists. split; [reflexivity|]. simpl. destruct min_str as [m|].
      * destruct Hinv as (? & ? & ?). split; [lia | auto].
      * intros j Hj. destruct (decide (j = k)) as [->|]; [|apply Hinv; lia].
        intros (l' & Hl' & ?). rewrite Hl in Hl'. injection Hl' as <-. lia.
    + assert (has_head len k) as Hhead by (exists l; split; [assumption | lia]).
      destruct min_str as [m|].
      * destruct Hinv as (? & ? & ?).
        case_decide; (eexists; split; [reflexivity|]); simpl;
          (split; [lia | auto]).
      * eexists. split; [reflexivity|]. simpl. split; [lia | auto].
Qed.

Lemma not_all_done_spec (nkids : nat) (len : list Z) :
  length len = nkids →
  ∃ more, not_all_done nkids len = Done more ∧
          (more = true ↔ ∃ i, (i < nkids)%nat ∧ has_head len i).
Proof.
  intros Hlen. unfold not_all_done.
  assert (∀ n a, (a + n = nkids)%nat →
    ∃ more, foldr (λ i later,
                match len !! i with
                | None => Fault
                | Some l => if decide (0 < l) then Done true else later
                end) (Done false) (seq a n) = Done more ∧
            (more = true ↔ ∃ i, (a ≤ i < a + n)%nat ∧ has_head len i)) as H.
  { induction n as [|n IH]; intros a Ha; simpl.
    - exists false. split; [reflexivity|]. split; [discriminate|].
      intros (i & ? & _). lia.
    - destruct (lookup_lt_is_Some_2 len a) as [l Hl]; [lia|]. rewrite Hl.
      case_decide as Hpos.
      + exists true. split; [reflexivity|]. split; [|reflexivity]. intros _.
        exists a. split; [lia|]. exists l. auto.
      + destruct (IH (S a)) as (more & E & Hmore); [lia|].
        exists more. split; [exact E|]. rewrite Hmore. split.
        * intros (i & ? & ?). exists i. split; [lia | assumption].
        * intros (i & Hi & Hh). exists i. split; [|assumption].
          destruct (decide (i = a)) as [->|]; [|lia].
          destruct Hh as (l' & Hl' & ?). rewrite Hl in Hl'. injection Hl' as <-. lia. }
  destruct (H nkids O) as (more & E & Hmore); [lia|].
  exists more. split; [exact E|]. rewrite Hmore.
  split; intros (i & ? & ?); exists i; (split; [lia | assumption]).
Qed.

Lemma sum_list_with_insert {A : Type} (f : A → nat) (l : list A) (i : nat) (x y : A) :
  l !! i = Some x →
  (sum_list_with f (<[i := y]> l) + f x = sum_list_with f l + f y)%nat.
Proof.
  intros Hx. pose proof (lookup_lt_Some _ _ _ Hx) as Hi.
  rewrite insert_take_drop by assumption.
  rewrite <- (take_drop_middle l i x Hx) at 3.
  rewrite !sum_list_with_app. simpl. lia.
Qed.

(** [read_line] on an open stream. *)
Lemma read_line_open (kid : Child) (maxlen : nat) (stream : list byte) :
  (2 ≤ maxlen)%nat → fp_from kid = Some stream →
  ∃ kid' buffer l,
    read_line kid maxlen = Done (kid', buffer, l) ∧
    fp_to kid' = fp_to kid ∧ pid kid' = pid kid ∧ c_string buffer ∧
    (0 < l → is_Some (fp_from kid')) ∧
    (length (default [] (fp_from kid')) + (if decide (0 < l)%Z then 1 else 0)
     < length stream + 1)%nat.
Proof.
  intros Hmax Hopen. unfold read_line. rewrite Hopen.
  destruct (fgets maxlen stream) as [[buffer rest]|] eqn:E.
  - apply fgets_shortens in E as [Hc Hshort]; [|assumption].
    eexists _, _, _. split; [reflexivity|]. simpl.
    repeat split; try assumption.
    + intros _. eexists. reflexivity.
    + case_decide; lia.
  - eexists _, _, _. split; [reflexivity|]. simpl.
    repeat split; [constructor | lia | try rewrite decide_False by lia; simpl; lia].
Qed.

Lemma has_head_insert (len : list Z) (m i : nat) (l : Z) :
  has_head (<[m := l]> len) i →
  (i = m ∧ 0 < l) ∨ (i ≠ m ∧ has_head len i).
Proof.
  intros (l' & Hl' & Hpos).
  destruct (decide (i = m)) as [->|Hne].
  - left. split; [reflexivity|].
    apply list_lookup_insert_Some in Hl' as [(_ & -> & _)|(? & _)]; [assumption | congruence].
  - right. split; [assumption|]. rewrite list_lookup_insert_ne in Hl' by congruence.
    exists l'. auto.
Qed.

Lemma frontier_wf_intro (nkids : nat) (fr : Frontier) :
  length (kids fr) = nkids → length (lines fr) = nkids → length (len fr) = nkids →
  Forall c_string (lines fr) → Forall (λ kid, is_Some (fp_from kid)) (kids fr) →
  frontier_wf nkids fr.
Proof.
  intros H1 H2 H3 H4 H5. repeat (split; [assumption|]).
  intros i kid _ Hkid. exact (Forall_lookup_1 _ _ _ _ H5 Hkid).
Qed.

(** One turn of the loop of [merge] on a frontier with a line in some
    slot: [min_line] returns, having copied the least line and refilled
    the slot it came from, and fewer turns are left. *)
Lemma min_line_turn (nkids : nat) (fr : Frontier) :
  frontier_wf nkids fr → (∃ i, (i < nkids)%nat ∧ has_head (len fr) i) →
  ∃ m output kid kid' buffer l,
    scanned (len fr) (lines fr) nkids (m, Some output) ∧
    kids fr !! m = Some kid ∧
    read_line kid MAX_LINE = Done (kid', buffer, l) ∧
    min_line nkids MAX_LINE fr = Done (refilled fr m kid' buffer l, output) ∧
    frontier_wf nkids (refilled fr m kid' buffer l) ∧
    (turns_left (refilled fr m kid' buffer l) < turns_left fr)%nat.
Proof.
  intros (Hk & Hli & Hle & Hc & Hopen) (i & Hi & Hhead).
  destruct (min_line_scan_all nkids (len fr) (lines fr) Hle Hli Hc)
    as ([m ms] & Escan & Hsc).
  destruct ms as [output|]; cycle 1.
  { destruct Hsc as [_ Hnone]. exfalso. apply (Hnone i Hi Hhead). }
  pose proof Hsc as (Hm & Hmhead & Hmline & Hmin). simpl in Hm, Hmhead, Hmline.
  destruct (lookup_lt_is_Some_2 (kids fr) m) as [kid Hkid]; [lia|].
  destruct (Hopen m kid Hmhead Hkid) as [stream Hstream].
  destruct (read_line_open kid MAX_LINE stream) as
    (kid' & buffer & l & Eread & Hto & Hpid & Hcb & Hopen' & Hless);
    [unfold MAX_LINE; lia | assumption |].
  exists m, output, kid, kid', buffer, l.
  split; [assumption|]. split; [assumption|]. split; [assumption|].
  split; [| split].
  - unfold min_line. rewrite Escan. simpl. rewrite Hkid, Eread. reflexivity.
  - unfold frontier_wf, refilled. simpl. rewrite !length_insert.
    split; [assumption|]. split; [assumption|]. split; [assumption|]. split.
    + apply Forall_insert; assumption.
    + intros j kidj Hj Hkj. apply has_head_insert in Hj as [[-> Hpos]|[Hne Hj]].
      * rewrite list_lookup_insert_eq in Hkj by lia. injection Hkj as <-. auto.
      * rewrite list_lookup_insert_ne in Hkj by congruence. eauto.
  - unfold turns_left, refilled, unread, heads. simpl.
    destruct Hmhead as (l0 & Hl0 & Hpos0).
    pose proof (sum_list_with_insert
      (λ kid, length (default [] (fp_from kid))) (kids fr) m kid kid' Hkid) as H1.
    pose proof (sum_list_with_insert
      (λ l, if decide (0 < l) then 1%nat else 0%nat) (len fr) m l0 l Hl0) as H2.
    simpl in H1, H2. rewrite Hstream in H1. simpl in H1.
    rewrite (decide_True (P := 0 < l0)) in H2 by assumption.
    destruct (decide (0 < l)); lia.
Qed.

(** The rule of the loop of [merge]: an invariant of the turns holds
    when the loop ends, and the loop ends within the fuel. *)
Lemma merge_loop_rule (nkids : nat) (I : Frontier → list byte → Prop) :
  (∀ fr out, I fr out → frontier_wf nkids fr) →
  (∀ fr out fr' output,
     I fr out → not_all_done nkids (len fr) = Done true →
     min_line nkids MAX_LINE fr = Done (fr', output) → I fr' (fputs output out)) →
  ∀ fuel fr out,
    I fr out → (turns_left fr < fuel)%nat →
    ∃ fr' out', merge_loop fuel nkids fr out = Done (fr', out') ∧ I fr' out' ∧
                not_all_done nkids (len fr') = Done false.
Proof.
  intros Hwf Hturn. induction fuel as [|fuel IH]; intros fr out HI Hfuel; [lia|].
  pose proof (Hwf _ _ HI) as Hfr.
  destruct (not_all_done_spec nkids (len fr)) as (more & Emore & Hmore);
    [apply Hfr|].
  cbn [merge_loop]. rewrite Emore. simpl. destruct more.
  - destruct (min_line_turn nkids fr Hfr) as
      (m & output & kid & kid' & buffer & l & _ & _ & _ & Emin & _ & Hless);
      [apply Hmore; reflexivity|].
    rewrite Emin. simpl. apply IH; [|lia].
    eapply Hturn; eassumption.
  - exists fr, out. auto.
Qed.

Lemma merge_loop_reaches (nkids : nat) (fuel : nat) :
  ∀ fr out fr' out',
    merge_loop fuel nkids fr out = Done (fr', out') →
    merge_reaches nkids fr out fr' out'.
Proof.
  induction fuel as [|fuel IH]; intros fr out fr' out'; [discriminate|].
  cbn [merge_loop]. intros H.
  apply bind_Done in H as (more & Emore & H). destruct more.
  - apply bind_Done in H as ([fr1 output] & Emin & H).
    apply IH in H.
    clear IH. induction H as [|fr2 out2 fr3 output3 Hreach IH2 Hmore3 Emin3].
    + apply reaches_turn with (fr := fr) (out := out);
        [apply reaches_start | assumption | assumption].
    + eapply reaches_turn; eassumption.
  - injection H as <- <-. apply reaches_start.
Qed.

(** ** The merger: any streams *)

Lemma heads_le_length (len : list Z) : (heads len ≤ length len)%nat.
Proof.
  unfold heads. induction len as [|l len IH]; simpl; [lia|].
  case_decide; lia.
Qed.

Lemma merge_preload_all (nkids : nat) (kids0 : list Child) :
  length kids0 = nkids → Forall (λ kid, is_Some (fp_from kid)) kids0 →
  ∃ fr, for_loop nkids merge_preload
          (mkFrontier kids0 (replicate nkids []) (replicate nkids 0)) = Done fr ∧
        frontier_wf nkids fr ∧ (unread (kids fr) ≤ unread kids0)%nat ∧
        pid <$> kids fr = pid <$> kids0.
Proof.
  intros Hlen Hopen.
  destruct (for_loop_inv
    (λ i fr,
       length (kids fr) = nkids ∧ length (lines fr) = nkids ∧
       length (len fr) = nkids ∧ Forall c_string (lines fr) ∧
       (∀ j kid, (i ≤ j)%nat → kids fr !! j = Some kid → is_Some (fp_from kid)) ∧
       (∀ j kid, has_head (len fr) j → kids fr !! j = Some kid → is_Some (fp_from kid)) ∧
       (unread (kids fr) ≤ unread kids0)%nat ∧ pid <$> kids fr = pid <$> kids0)
    nkids merge_preload
    (mkFrontier kids0 (replicate nkids []) (replicate nkids 0))) as (fr & E & HI).
  - simpl. rewrite !length_replicate.
    repeat split; try assumption; try lia.
    + apply Forall_replicate. constructor.
    + intros j kid _ Hj. exact (Forall_lookup_1 _ _ _ _ Hopen Hj).
    + intros j kid (l & Hl & Hpos) _. apply lookup_replicate in Hl as [-> _]. lia.
  - intros i fr Hi (Hk & Hli & Hle & Hc & Hrest & Hhead & Hun & Hpid).
    destruct (lookup_lt_is_Some_2 (kids fr) i) as [kid Hkid]; [lia|].
    destruct (Hrest i kid (Nat.le_refl i) Hkid) as [stream Hstream].
    destruct (read_line_open kid MAX_LINE stream) as
      (kid' & buffer & l & Eread & Hto & Hpid' & Hcb & Hopen' & Hless);
      [unfold MAX_LINE; lia | assumption |].
    eexists. split.
    + unfold merge_preload. rewrite Hkid, Eread. reflexivity.
    + simpl. rewrite !length_insert.
      split; [assumption|]. split; [assumption|]. split; [assumption|].
      split; [apply Forall_insert; assumption|].
      split; [| split; [| split]].
      * intros j kidj Hj Hkj. rewrite list_lookup_insert_ne in Hkj by lia.
        apply (Hrest j kidj); [lia | assumption].
      * intros j kidj Hj Hkj. apply has_head_insert in Hj as [[-> Hpos]|[Hne Hj]].
        -- rewrite list_lookup_insert_eq in Hkj by lia. injection Hkj as <-. auto.
        -- rewrite list_lookup_insert_ne in Hkj by congruence. eauto.
      * pose proof (sum_list_with_insert
          (λ kid, length (default [] (fp_from kid))) (kids fr) i kid kid' Hkid) as H1.
        simpl in H1. rewrite Hstream in H1. simpl in H1.
        unfold unread in *. destruct (decide (0 < l)); lia.
      * rewrite list_fmap_insert, Hpid', <- Hpid.
        apply list_insert_id. rewrite list_lookup_fmap, Hkid. reflexivity.
  - exists fr. split; [exact E|].
    destruct HI as (Hk & Hli & Hle & Hc & _ & Hhead & Hun & Hpid).
    repeat split; assumption.
Qed.

(** [merge] returns whatever the children wrote. *)
Lemma merge_total (nkids : nat) (kids0 : list Child) :
  length kids0 = nkids → Forall (λ kid, is_Some (fp_from kid)) kids0 →
  ∃ fr out, merge nkids kids0 = Done (fr, out) ∧ frontier_wf nkids fr ∧
            pid <$> kids fr = pid <$> kids0.
Proof.
  intros Hlen Hopen. unfold merge.
  destruct (merge_preload_all nkids kids0 Hlen Hopen) as (fr0 & E0 & Hwf0 & Hun & Hpid0).
  rewrite E0. simpl.
  destruct (merge_loop_rule nkids
    (λ fr _, frontier_wf nkids fr ∧ pid <$> kids fr = pid <$> kids0))
    with (fuel := S (nkids + unread kids0)) (fr := fr0) (out := @nil byte)
    as (fr & out & E & [Hwf Hpid] & _).
  - tauto.
  - intros fr out fr' output [Hwf Hpid] Hmore Emin.
    destruct (not_all_done_spec nkids (len fr)) as (more & Emore & Hm); [apply Hwf|].
    rewrite Hmore in Emore. injection Emore as <-.
    destruct (min_line_turn nkids fr Hwf) as
      (m & o & kid & kid' & buffer & l & _ & Hkid & Eread & Emin' & Hwf' & _);
      [apply Hm; reflexivity|].
    rewrite Emin in Emin'. injection Emin' as -> ->. split; [assumption|].
    simpl. rewrite list_fmap_insert, <- Hpid.
    apply list_insert_id. rewrite list_lookup_fmap, Hkid. simpl.
    unfold read_line in Eread.
    destruct (fp_from kid); [|discriminate].
    destruct (fgets MAX_LINE l0) as [[? ?]|]; injection Eread as <- _ _; reflexivity.
  - auto.
  - unfold turns_left. pose proof (heads_le_length (len fr0)).
    destruct Hwf0 as (_ & _ & Hle & _). lia.
  - exists fr, out. auto.
Qed.

(** ** The merger: sorted streams of records *)

Lemma slot_holds_head kid line l p :
  Forall is_line p → slot_holds kid line l p →
  0 < l ↔ ∃ rest, p = line :: rest.
Proof.
  intros Hp. destruct p as [|h t]; simpl.
  - intros (_ & _ & ->). split; [lia | intros [? ?]; discriminate].
  - intros (_ & -> & ->). apply Forall_cons in Hp as [Hh _].
    apply is_line_length in Hh. unfold strlen. split; [eauto | lia].
Qed.

Lemma frontier_holds_head (fr : Frontier) pending i :
  frontier_holds fr pending → Forall (Forall is_line) pending →
  has_head (len fr) i ↔
  ∃ h t, pending !! i = Some (h :: t) ∧ lines fr !! i = Some h.
Proof.
  intros (Hk & Hli & Hle & Hslots) Hlines. split.
  - intros (l & Hl & Hpos).
    destruct (lookup_lt_is_Some_2 pending i) as [p Hp].
    { apply lookup_lt_Some in Hl. lia. }
    destruct (Hslots i p Hp) as (kid & line & l' & _ & Hline & Hl' & Hs).
    rewrite Hl in Hl'. injection Hl' as <-.
    apply slot_holds_head in Hs; [|exact (Forall_lookup_1 _ _ _ _ Hlines Hp)].
    destruct (proj1 Hs Hpos) as [rest Heq]. rewrite Heq in Hp. eauto.
  - intros (h & t & Hp & Hh).
    destruct (Hslots i _ Hp) as (kid & line & l & _ & Hline & Hl & Hs).
    exists l. split; [assumption|].
    eapply slot_holds_head; [exact (Forall_lookup_1 _ _ _ _ Hlines Hp) | exact Hs |].
    destruct Hs as (_ & -> & _). eauto.
Qed.

Lemma frontier_holds_wf (fr : Frontier) pending :
  frontier_holds fr pending → Forall (Forall is_line) pending →
  frontier_wf (length pending) fr.
Proof.
  intros Hholds Hlines. pose proof Hholds as (Hk & Hli & Hle & Hslots).
  split; [assumption|]. split; [assumption|]. split; [assumption|]. split.
  - apply Forall_lookup. intros i line Hline.
    destruct (lookup_lt_is_Some_2 pending i) as [p Hp].
    { apply lookup_lt_Some in Hline. lia. }
    destruct (Hslots i p Hp) as (kid & line' & l & _ & Hline' & _ & Hs).
    rewrite Hline in Hline'. injection Hline' as <-.
    destruct p as [|h t]; simpl in Hs.
    + destruct Hs as (_ & -> & _). constructor.
    + destruct Hs as (_ & -> & _). apply is_line_c_string.
      pose proof (Forall_lookup_1 _ _ _ _ Hlines Hp) as Hp'.
      apply Forall_cons in Hp' as [? _]. assumption.
  - intros i kid Hhead Hkid.
    apply (frontier_holds_head fr pending i Hholds Hlines) in Hhead
      as (h & t & Hp & _).
    destruct (Hslots i _ Hp) as (kid' & line & l & Hkid' & _ & _ & Hs).
    rewrite Hkid in Hkid'. injection Hkid' as <-.
    destruct Hs as (-> & _). eexists. reflexivity.
Qed.

(** [read_line] on a stream of records takes the first. *)
Lemma read_line_records (kid : Child) (pending : list (list byte)) :
  Forall is_line pending → fp_from kid = Some (concat pending) →
  ∃ kid' buffer l, read_line kid MAX_LINE = Done (kid', buffer, l) ∧
                   slot_holds kid' buffer l pending.
Proof.
  intros Hp Hstream. unfold read_line. rewrite Hstream.
  destruct Hp as [|h t Hh Ht]; cbn [concat].
  - eexists _, _, _. split; [reflexivity|]. simpl. auto.
  - rewrite fgets_line by assumption.
    eexists _, _, _. split; [reflexivity|]. simpl. auto.
Qed.

Lemma concat_insert_snoc {A : Type} (ls : list (list A)) (i : nat) (l : list A) (x : A) :
  ls !! i = Some l → concat (<[i := l ++ [x]]> ls) ≡ₚ concat ls ++ [x].
Proof.
  intros Hl. pose proof (lookup_lt_Some _ _ _ Hl) as Hi.
  rewrite insert_take_drop by assumption.
  rewrite <- (take_drop_middle ls i l Hl) at 3.
  rewrite !concat_app. simpl. rewrite <- !app_assoc.
  apply Permutation_app_head. apply Permutation_app_head.
  apply Permutation_app_comm.
Qed.

Lemma elem_of_concat {A : Type} (x : A) (ls : list (list A)) :
  x ∈ concat ls ↔ ∃ l, l ∈ ls ∧ x ∈ l.
Proof.
  induction ls as [|l ls IH]; simpl.
  - split; [intros H%elem_of_nil; contradiction|].
    intros (l & H%elem_of_nil & _). contradiction.
  - rewrite elem_of_app, IH. split.
    + intros [?|(l' & ? & ?)].
      * exists l. split; [left | assumption].
      * exists l'. split; [right |]; assumption.
    + intros (l' & [->|?]%elem_of_cons & ?); [left; assumption | right; eauto].
Qed.

Lemma elem_of_concat_insert {A : Type} (ls : list (list A)) (i : nat) (l : list A) (y : A) :
  y ∈ concat (<[i := l]> ls) →
  y ∈ l ∨ ∃ j p, j ≠ i ∧ ls !! j = Some p ∧ y ∈ p.
Proof.
  intros Hy. apply elem_of_concat in Hy as (p & Hp & Hyp).
  apply list_elem_of_lookup in Hp as [j Hj].
  destruct (decide (j = i)) as [->|Hne].
  - apply list_lookup_insert_Some in Hj as [(_ & <- & _)|(? & _)]; [auto | congruence].
  - rewrite list_lookup_insert_ne in Hj by congruence. right. eauto.
Qed.

Lemma strongly_sorted_head_le (h : list byte) (t : list (list byte)) (y : list byte) :
  StronglySorted line_le (h :: t) → y ∈ h :: t → line_le h y.
Proof.
  intros HS Hy. apply StronglySorted_inv in HS as [_ Hall].
  apply elem_of_cons in Hy as [->|Hy].
  - unfold line_le, in_order, qs_compare. rewrite strcmp_refl. lia.
  - rewrite Forall_forall in Hall. auto.
Qed.

(** A turn of the loop keeps the invariant of the merge. *)
Lemma merging_turn (streams : list (list (list byte))) (fr fr' : Frontier)
    (out output : list byte) :
  merging streams fr out →
  not_all_done (length streams) (len fr) = Done true →
  min_line (length streams) MAX_LINE fr = Done (fr', output) →
  merging streams fr' (fputs output out).
Proof.
  intros (emitted & pending & merged & Hzip & Hlen_e & Hlen_p & Hholds & Hlines
          & Hsorted & Hout & Hperm & Hmerged & Hbelow) Hmore Emin.
  pose proof (frontier_holds_wf fr pending Hholds Hlines) as Hwf.
  rewrite Hlen_p in Hwf.
  destruct (not_all_done_spec (length streams) (len fr)) as (more & Emore & Hm);
    [apply Hwf|].
  rewrite Hmore in Emore. injection Emore as <-.
  destruct (min_line_turn (length streams) fr Hwf) as
    (m & o & kid & kid' & buffer & l & Hsc & Hkid & Eread & Emin' & _ & _);
    [apply Hm; reflexivity|].
  rewrite Emin in Emin'. injection Emin' as -> <-.
  destruct Hsc as (Hmlt & Hmhead & Hmline & Hmin). simpl in Hmlt, Hmhead, Hmline, Hmin.
  apply (frontier_holds_head fr pending m Hholds Hlines) in Hmhead
    as (h & t & Hpm & Hh).
  rewrite Hmline in Hh. injection Hh as <-.
  pose proof (Forall_lookup_1 _ _ _ _ Hlines Hpm) as Hht.
  apply Forall_cons in Hht as [Hhline Htlines].
  pose proof (Forall_lookup_1 _ _ _ _ Hsorted Hpm) as Hhts.
  pose proof Hholds as (Hk & Hli & Hle & Hslots).
  destruct (Hslots m _ Hpm) as (kid0 & line0 & l0 & Hkid0 & _ & _ & Hs0).
  rewrite Hkid in Hkid0. injection Hkid0 as <-. destruct Hs0 as (Hstream & _ & _).
  destruct (read_line_records kid t Htlines Hstream) as (kid1 & b1 & l1 & Eread1 & Hs1).
  rewrite Eread in Eread1. injection Eread1 as <- <- <-.
  destruct (lookup_lt_is_Some_2 emitted m) as [em Hem]; [lia|].
  assert (streams !! m = Some (em ++ output :: t)) as Hsm.
  { rewrite Hzip, lookup_zip_with, Hem, Hpm. reflexivity. }
  exists (<[m := em ++ [output]]> emitted), (<[m := t]> pending), (merged ++ [output]).
  rewrite !length_insert.
  split; [| split; [assumption | split; [assumption | split; [| split; [| split;
    [| split; [| split; [| split]]]]]]]].
  - rewrite <- insert_zip_with, <- Hzip, <- app_assoc. simpl.
    symmetry. apply list_insert_id. assumption.
  - (* the frontier holds what is pending *)
    unfold frontier_holds, refilled. simpl. rewrite !length_insert.
    split; [assumption|]. split; [assumption|]. split; [assumption|].
    intros i p Hp. destruct (decide (i = m)) as [->|Hne].
    + rewrite list_lookup_insert_eq in Hp by lia. injection Hp as <-.
      exists kid', buffer, l. rewrite !list_lookup_insert_eq by lia. auto.
    + rewrite list_lookup_insert_ne in Hp by congruence.
      rewrite !list_lookup_insert_ne by congruence. auto.
  - apply Forall_insert; assumption.
  - apply Forall_insert; [assumption|].
    apply StronglySorted_inv in Hhts as [? _]. assumption.
  - unfold fputs. rewrite Hout, concat_app. simpl. rewrite app_nil_r. reflexivity.
  - rewrite (concat_insert_snoc emitted m em output Hem), Hperm. reflexivity.
  - apply StronglySorted_app_2; [| assumption | repeat constructor].
    intros x y Hx Hy%list_elem_of_singleton. subst y. apply Hbelow; [assumption|].
    apply elem_of_concat. exists (output :: t). split; [|left].
    apply list_elem_of_lookup. eauto.
  - (* what was written is below everything pending *)
    intros x y Hx Hy.
    apply elem_of_concat_insert in Hy as [Hy|(j & p & Hne & Hp & Hy)].
    + assert (y ∈ concat pending) as Hy'.
      { apply elem_of_concat. exists (output :: t). split; [|right; assumption].
        apply list_elem_of_lookup. eauto. }
      apply elem_of_app in Hx as [Hx|Hx%list_elem_of_singleton]; [auto|]. subst x.
      apply (strongly_sorted_head_le output t); [assumption | right; assumption].
    + assert (y ∈ concat pending) as Hy'.
      { apply elem_of_concat. exists p. split; [|assumption].
        apply list_elem_of_lookup. eauto. }
      apply elem_of_app in Hx as [Hx|Hx%list_elem_of_singleton]; [auto|]. subst x.
      destruct p as [|hj tj]; [apply elem_of_nil in Hy; contradiction|].
      pose proof (Forall_lookup_1 _ _ _ _ Hlines Hp) as Hpl.
      pose proof (Forall_lookup_1 _ _ _ _ Hsorted Hp) as Hps.
      assert (has_head (len fr) j ∧ lines fr !! j = Some hj) as [Hjh Hjl].
      { destruct (Hslots j _ Hp) as (kj & lj & nj & _ & Hlj & Hnj & Hsj).
        destruct Hsj as (_ & -> & ->). split; [|assumption].
        exists (Z.of_nat (strlen hj)). split; [assumption|].
        apply Forall_cons in Hpl as [Hhj _]. apply is_line_length in Hhj.
        unfold strlen. lia. }
      assert (j < length streams)%nat as Hj by (apply lookup_lt_Some in Hp; lia).
      destruct (Hmin j hj Hj Hjh Hjl) as [Hle_hj _].
      apply (line_le_trans output hj y).
      * apply is_line_c_string. assumption.
      * apply is_line_c_string. apply Forall_cons in Hpl as [? _]. assumption.
      * apply is_line_c_string. rewrite Forall_forall in Hpl. auto.
      * exact Hle_hj.
      * apply (strongly_sorted_head_le hj tj); assumption.
Qed.

Lemma holding_open (kids0 : list Child) streams :
  holding kids0 streams → Forall (λ kid, is_Some (fp_from kid)) kids0.
Proof.
  intros [Hlen Hh]. apply Forall_lookup. intros i kid Hkid.
  destruct (lookup_lt_is_Some_2 streams i) as [s Hs].
  { apply lookup_lt_Some in Hkid. lia. }
  rewrite (Hh i kid s Hkid Hs). eexists. reflexivity.
Qed.


Lemma merge_preload_records (nkids : nat) (kids0 : list Child) streams :
  length streams = nkids → holding kids0 streams → Forall (Forall is_line) streams →
  ∃ fr, for_loop nkids merge_preload
          (mkFrontier kids0 (replicate nkids []) (replicate nkids 0)) = Done fr ∧
        frontier_holds fr streams.
Proof.
  intros Hlen [Hlen0 Hhold] Hlines.
  destruct (for_loop_inv
    (λ i fr,
       length (kids fr) = nkids ∧ length (lines fr) = nkids ∧
       length (len fr) = nkids ∧
       ∀ j s, streams !! j = Some s →
         ∃ kid line l, kids fr !! j = Some kid ∧ lines fr !! j = Some line ∧
           len fr !! j = Some l ∧
           if decide (j < i)%nat then slot_holds kid line l s
           else fp_from kid = Some (concat s))
    nkids merge_preload
    (mkFrontier kids0 (replicate nkids []) (replicate nkids 0))) as (fr & E & HI).
  - simpl. rewrite !length_replicate.
    split; [lia|]. split; [reflexivity|]. split; [reflexivity|].
    intros j s Hs. pose proof (lookup_lt_Some _ _ _ Hs) as Hj.
    destruct (lookup_lt_is_Some_2 kids0 j) as [kid Hkid]; [lia|].
    exists kid, [], 0. rewrite !lookup_replicate_2 by lia.
    split; [assumption|]. split; [reflexivity|]. split; [reflexivity|].
    eauto.
  - intros i fr Hi (Hk & Hli & Hle & Hslots).
    destruct (lookup_lt_is_Some_2 streams i) as [s Hs]; [lia|].
    destruct (Hslots i s Hs) as (kid & line & l & Hkid & Hline & Hl & Hslot).
    rewrite decide_False in Hslot by lia.
    destruct (read_line_records kid s (Forall_lookup_1 _ _ _ _ Hlines Hs) Hslot)
      as (kid' & buffer & l' & Eread & Hs').
    eexists. split.
    + unfold merge_preload. rewrite Hkid, Eread. reflexivity.
    + simpl. rewrite !length_insert.
      split; [assumption|]. split; [assumption|]. split; [assumption|].
      intros j sj Hsj. destruct (decide (j = i)) as [->|Hne].
      * rewrite Hs in Hsj. injection Hsj as <-.
        exists kid', buffer, l'. rewrite !list_lookup_insert_eq by lia.
        rewrite decide_True by lia. auto.
      * rewrite !list_lookup_insert_ne by congruence.
        destruct (Hslots j sj Hsj) as (kj & lj & nj & ? & ? & ? & Hj).
        exists kj, lj, nj. repeat (split; [assumption|]).
        destruct (decide (j < i)%nat), (decide (j < S i)%nat); try assumption; lia.
  - exists fr. split; [exact E|].
    destruct HI as (Hk & Hli & Hle & Hslots).
    split; [lia|]. split; [lia|]. split; [lia|].
    intros i p Hp. destruct (Hslots i p Hp) as (kid & line & l & ? & ? & ? & Hs).
    rewrite decide_True in Hs by (apply lookup_lt_Some in Hp; lia).
    eauto 10.
Qed.

Lemma zip_with_app_nil_l {A : Type} (ls : list (list A)) :
  zip_with app (replicate (length ls) []) ls = ls.
Proof. induction ls as [|l ls IH]; simpl; [|rewrite IH]; reflexivity. Qed.

Lemma zip_with_app_nil_r {A : Type} (es ps : list (list A)) :
  length es = length ps → Forall (λ p, p = []) ps → zip_with app es ps = es.
Proof.
  revert ps. induction es as [|e es IH]; intros [|p ps]; simpl; try discriminate.
  - reflexivity.
  - intros [= Hlen] [-> Hps]%Forall_cons. rewrite app_nil_r, IH by assumption.
    reflexivity.
Qed.

Lemma concat_replicate_nil {A : Type} (n : nat) :
  concat (replicate n (@nil A)) = [].
Proof. induction n; simpl; [reflexivity | assumption]. Qed.

(** The merge of sorted streams of records: everything the streams
    hold, in order. *)
Lemma merge_sorted_streams (nkids : nat) (kids0 : list Child) streams :
  length streams = nkids → holding kids0 streams →
  Forall (Forall is_line) streams → Forall (Sorted line_le) streams →
  ∃ fr merged, merge nkids kids0 = Done (fr, concat merged) ∧
               merged ≡ₚ concat streams ∧ Sorted line_le merged ∧
               frontier_holds fr (replicate nkids []) ∧
               pid <$> kids fr = pid <$> kids0.
Proof.
  intros Hlen Hhold Hlines Hsorted.
  pose proof Hhold as [Hlen0 _].
  destruct (merge_preload_records nkids kids0 streams Hlen Hhold Hlines)
    as (fr0 & E0 & Hholds0).
  destruct (merge_preload_all nkids kids0) as (fr0' & E0' & _ & Hun & Hpid0);
    [lia | eapply holding_open; eassumption |].
  rewrite E0 in E0'. injection E0' as <-.
  unfold merge. rewrite E0. simpl.
  destruct (merge_loop_rule nkids
    (λ fr out, merging streams fr out ∧ pid <$> kids fr = pid <$> kids0))
    with (fuel := S (nkids + unread kids0)) (fr := fr0) (out := @nil byte)
    as (fr & out & E & [Hmerging Hpid] & Hdone).
  - intros fr out [(e & p & m & _ & _ & Hlp & Hh & Hl & _) _].
    rewrite <- Hlen, <- Hlp. apply frontier_holds_wf; assumption.
  - intros fr out fr' output [Hm Hpid] Hmore Emin. split.
    + subst nkids. eapply merging_turn; eassumption.
    + destruct Hm as (e & p & m & _ & _ & Hlp & Hh & Hl & _).
      pose proof (frontier_holds_wf fr p Hh Hl) as Hwf. rewrite Hlp, Hlen in Hwf.
      destruct (not_all_done_spec nkids (len fr)) as (more & Emore & Hmo); [apply Hwf|].
      rewrite Hmore in Emore. injection Emore as <-.
      destruct (min_line_turn nkids fr Hwf) as
        (i & o & kid & kid' & buffer & l & _ & Hkid & Eread & Emin' & _ & _);
        [apply Hmo; reflexivity|].
      rewrite Emin in Emin'. injection Emin' as -> _.
      simpl. rewrite list_fmap_insert, <- Hpid.
      apply list_insert_id. rewrite list_lookup_fmap, Hkid. simpl.
      unfold read_line in Eread.
      destruct (fp_from kid); [|discriminate].
      destruct (fgets MAX_LINE l0) as [[? ?]|]; injection Eread as <- _ _; reflexivity.
  - split; [|assumption].
    exists (replicate (length streams) []), streams, [].
    rewrite zip_with_app_nil_l, length_replicate.
    split; [reflexivity|]. split; [reflexivity|]. split; [reflexivity|].
    split; [assumption|]. split; [assumption|].
    split; [| split; [reflexivity | split; [| split; [constructor|]]]].
    + eapply Forall_impl; [apply Forall_and; split; [exact Hlines | exact Hsorted]|].
      intros s [Hl Hs]. apply Sorted_line_le_strongly; [|assumption].
      apply lines_c_strings. assumption.
    + rewrite concat_replicate_nil. reflexivity.
    + intros x y Hx. apply elem_of_nil in Hx. contradiction.
  - unfold turns_left. pose proof (heads_le_length (len fr0)).
    destruct Hholds0 as (_ & _ & Hle & _). lia.
  - destruct Hmerging as (emitted & pending & merged & Hzip & Hlen_e & Hlen_p & Hholds
                          & Hl & Hs & -> & Hperm & Hmerged & _).
    assert (Forall (λ p, p = []) pending) as Hempty.
    { apply Forall_lookup. intros i p Hp. destruct p as [|h t]; [reflexivity|].
      exfalso.
      destruct (not_all_done_spec nkids (len fr)) as (more & Emore & Hmo).
      { destruct Hholds as (_ & _ & ? & _). lia. }
      rewrite Hdone in Emore. injection Emore as <-.
      assert (false = true); [|discriminate]. apply Hmo. exists i. split.
      - apply lookup_lt_Some in Hp. lia.
      - apply (frontier_holds_head fr pending i Hholds Hl).
        destruct Hholds as (_ & _ & _ & Hslots).
        destruct (Hslots i _ Hp) as (? & ? & ? & _ & ? & _ & (_ & -> & _)). eauto. }
    exists fr, merged. split; [assumption|].
    rewrite zip_with_app_nil_r in Hzip by (assumption || lia). subst emitted.
    split; [assumption|]. split; [apply StronglySorted_Sorted; assumption|].
    split; [|assumption].
    replace (replicate nkids []) with pending; [assumption|].
    apply list_eq. intros i. destruct (pending !! i) as [p|] eqn:Hp.
    + rewrite (Forall_lookup_1 _ _ _ _ Hempty Hp).
      rewrite lookup_replicate_2; [reflexivity|]. apply lookup_lt_Some in Hp. lia.
    + symmetry. apply lookup_replicate_None. apply lookup_ge_None in Hp. lia.
Qed.



(** ** The children and the whole pipeline *)

Lemma children_run_lines (kids0 : list Child) (shares : list (list (list byte))) :
  length kids0 = length shares → Forall (Forall is_line) shares →
  ∃ kids1, children_run kids0 (@concat byte <$> shares) = Done kids1 ∧
           holding kids1 (qsort qs_compare <$> shares) ∧
           pid <$> kids1 = pid <$> kids0.
Proof.
  revert shares. induction kids0 as [|kid kids0 IH]; intros [|share shares];
    try discriminate.
  - intros _ _. exists []. split; [reflexivity|]. split; [|reflexivity].
    split; [reflexivity|]. intros i ?? H. discriminate.
  - intros [= Hlen] [Hshare Hshares]%Forall_cons.
    rewrite fmap_cons. cbn [children_run].
    rewrite be_childish_lines by assumption.
    destruct (IH shares Hlen Hshares) as (kids1 & E & [Hl Hh] & Hpid).
    cbn [mbind outcome_bind]. rewrite E. cbn [mbind outcome_bind].
    eexists. split; [reflexivity|]. split; [split|].
    + simpl. rewrite Hl. reflexivity.
    + intros [|i] k s; simpl.
      * intros [= <-] [= <-]. reflexivity.
      * apply Hh.
    + rewrite !fmap_cons, Hpid. reflexivity.
Qed.

Lemma children_run_total (kids0 : list Child) (sent : list (list byte)) :
  length kids0 = length sent →
  ∃ kids1, children_run kids0 sent = Done kids1 ∧ length kids1 = length kids0 ∧
           Forall (λ kid, is_Some (fp_from kid)) kids1 ∧
           pid <$> kids1 = pid <$> kids0.
Proof.
  revert sent. induction kids0 as [|kid kids0 IH]; intros [|input sent];
    simpl; try discriminate.
  - intros _. exists []. repeat split. constructor.
  - intros [= Hlen]. destruct (be_childish_total input) as [out ->].
    cbn [mbind outcome_bind].
    destruct (IH sent Hlen) as (kids1 & -> & Hl & Hopen & Hpid).
    cbn [mbind outcome_bind].
    eexists. split; [reflexivity|]. rewrite !fmap_cons, Hpid. simpl. rewrite Hl.
    split; [reflexivity|]. split; [|reflexivity].
    constructor; [eexists; reflexivity | assumption].
Qed.

Lemma qsort_lines (ls : list (list byte)) :
  Forall is_line ls → Forall is_line (qsort qs_compare ls).
Proof. intros H. rewrite qsort_Permutation. assumption. Qed.

Lemma concat_qsort_Permutation (shares : list (list (list byte))) :
  concat (qsort qs_compare <$> shares) ≡ₚ concat shares.
Proof.
  induction shares as [|s shares IH]; simpl; [reflexivity|].
  rewrite IH, qsort_Permutation. reflexivity.
Qed.

Lemma Forall_concat {A : Type} (P : A → Prop) (ls : list (list A)) :
  Forall (Forall P) ls → Forall P (concat ls).
Proof.
  induction 1 as [|l ls Hl _ IH]; simpl; [constructor|].
  apply Forall_app. auto.
Qed.

(** Children that sorted their shares, merged: the sort of all the
    shares together. *)
Lemma merge_sorted_shares (nkids : nat) (kids1 : list Child)
    (shares : list (list (list byte))) :
  length shares = nkids → holding kids1 (qsort qs_compare <$> shares) →
  Forall (Forall is_line) shares →
  ∃ fr, merge nkids kids1
        = Done (fr, concat (qsort qs_compare (concat shares))) ∧
        frontier_holds fr (replicate nkids []) ∧
        pid <$> kids fr = pid <$> kids1.
Proof.
  intros Hlen Hhold Hlines.
  destruct (merge_sorted_streams nkids kids1 (qsort qs_compare <$> shares))
    as (fr & merged & E & Hperm & Hsorted & Hend & Hpid).
  - rewrite length_fmap. assumption.
  - assumption.
  - apply Forall_fmap. eapply Forall_impl; [exact Hlines|].
    intros s Hs. apply qsort_lines. assumption.
  - apply Forall_fmap. apply Forall_forall. intros s _. apply qsort_Sorted.
  - exists fr. split; [|auto].
    rewrite E. do 3 f_equal. apply qsort_unique.
    + apply lines_c_strings, Forall_concat. assumption.
    + rewrite Hperm. apply concat_qsort_Permutation.
    + assumption.
Qed.

Lemma close_to_length kids0 : length (close_to <$> kids0) = length kids0.
Proof. apply length_fmap. Qed.

(** The pipeline on records: the records of the input, sorted. *)
Lemma sort_pipeline_lines (nkids : nat) (kids0 : list Child) (input : list (list byte)) :
  (0 < nkids)%nat → length kids0 = nkids → Forall newborn kids0 →
  Forall is_line input →
  ∃ kids', sort_pipeline nkids kids0 (concat input)
           = Done (kids', concat (qsort qs_compare input)) ∧
           pid <$> kids' = pid <$> kids0.
Proof.
  intros Hn Hlen Hnew Hin. unfold sort_pipeline.
  rewrite distribute_lines by assumption. simpl.
  set (shares := (λ i, dealt nkids 0 i input) <$> seq 0 nkids).
  assert ((λ i, concat (dealt nkids 0 i input)) <$> seq 0 nkids
          = @concat byte <$> shares) as ->.
  { unfold shares. rewrite <- list_fmap_compose. reflexivity. }
  assert (Forall (Forall is_line) shares) as Hshares.
  { unfold shares. apply Forall_fmap, Forall_forall. intros i _.
    apply dealt_lines. assumption. }
  assert (length shares = nkids) as Hls.
  { unfold shares. rewrite length_fmap, length_seq. reflexivity. }
  destruct (children_run_lines (close_to <$> kids0) shares)
    as (kids1 & E1 & Hhold & Hpid1); [rewrite length_fmap; lia | exact Hshares |].
  rewrite E1. simpl.
  destruct (merge_sorted_shares nkids kids1 shares Hls Hhold Hshares)
    as (fr & E2 & _ & Hpid2).
  rewrite E2. simpl. eexists. split.
  - do 3 f_equal. apply qsort_unique.
    + apply lines_c_strings. assumption.
    + rewrite qsort_Permutation. unfold shares. apply dealt_Permutation. assumption.
    + apply qsort_Sorted.
  - rewrite Hpid2, Hpid1, <- list_fmap_compose. reflexivity.
Qed.

(** The pipeline ends whatever the input. *)
Lemma sort_pipeline_total (nkids : nat) (kids0 : list Child) (stdin : list byte) :
  (0 < nkids)%nat → length kids0 = nkids → Forall listening kids0 →
  ∃ kids' out, sort_pipeline nkids kids0 stdin = Done (kids', out) ∧
               length kids' = nkids ∧ pid <$> kids' = pid <$> kids0.
Proof.
  intros Hn Hlen Hopen. unfold sort_pipeline, distribute.
  destruct (distribute_loop_total nkids (S (length stdin)) stdin kids0 O)
    as (kids1 & E1 & Hlen1 & Hopen1 & Hpid1); try assumption; try lia.
  rewrite E1. cbn [mbind outcome_bind].
  rewrite distribute_close_all by assumption. cbn [mbind outcome_bind].
  destruct (children_run_total (close_to <$> kids1) (written_to <$> kids1))
    as (kids2 & E2 & Hlen2 & Hopen2 & Hpid2); [rewrite !length_fmap; reflexivity|].
  rewrite E2. cbn [mbind outcome_bind].
  rewrite length_fmap in Hlen2.
  destruct (merge_total nkids kids2) as (fr & out & E3 & Hwf & Hpid3);
    [lia | assumption |].
  rewrite E3. cbn [mbind outcome_bind].
  exists (kids fr), out. split; [reflexivity|]. split; [apply Hwf|].
  rewrite Hpid3, Hpid2, <- list_fmap_compose, <- Hpid1. reflexivity.
Qed.

(** ** The supervisor *)

Lemma reap_hit (p : Z) (kid : Child) :
  p = pid kid → reap p kid = mkChild (fp_to kid) (fp_from kid) (-1).
Proof. intros H. unfold reap. rewrite decide_True by assumption. reflexivity. Qed.

Lemma reap_miss (p : Z) (kid : Child) : p ≠ pid kid → reap p kid = kid.
Proof. intros H. unfold reap. rewrite decide_False by assumption. reflexivity. Qed.

Lemma wait_for_kids_mark (nkids : nat) (kids0 : list Child) (p : Z) :
  length kids0 = nkids →
  for_loop nkids
    (λ i kids,
       match kids !! i with
       | None => Fault
       | Some kid =>
           if decide (p = pid kid)
           then Done (<[i := mkChild (fp_to kid) (fp_from kid) (-1)]> kids)
           else Done kids
       end) kids0
  = Done (reap p <$> kids0).
Proof.
  intros Hlen.
  match goal with |- for_loop _ ?b _ = _ =>
    destruct (for_loop_inv
      (λ i ks, ks = (reap p <$> take i kids0) ++ drop i kids0) nkids b kids0)
      as (ks & E & HI)
  end.
  - reflexivity.
  - intros i ks Hi ->.
    destruct (lookup_lt_is_Some_2 kids0 i) as [kid Hkid]; [lia|].
    assert (length (reap p <$> take i kids0) = i) as Hl
      by (rewrite length_fmap, length_take; lia).
    rewrite lookup_app_r by lia. rewrite Hl, Nat.sub_diag, lookup_drop, Nat.add_0_r, Hkid.
    rewrite (take_S_r _ _ _ Hkid), fmap_app, <- app_assoc. simpl.
    rewrite (drop_S _ _ _ Hkid).
    destruct (decide (p = pid kid)) as [Hp|Hp].
    + eexists. split; [reflexivity|].
      rewrite insert_app_r_alt by lia. rewrite Hl, Nat.sub_diag.
      rewrite (reap_hit p kid Hp). reflexivity.
    + eexists. split; [reflexivity|].
      rewrite (reap_miss p kid Hp). reflexivity.
  - rewrite E, HI, <- Hlen, firstn_all, drop_all, app_nil_r. reflexivity.
Qed.

Lemma wait_for_kids_reap_all (nkids : nat) (waited : list (Z * Z)) :
  -1 ∉ waited.*1 →
  ∀ kids0, length kids0 = nkids →
  wait_for_kids_reap nkids kids0 waited = Done (reap_all waited <$> kids0).
Proof.
  induction waited as [|[p status] waited IH]; intros Hno kids0 Hlen.
  - simpl. rewrite list_fmap_id. reflexivity.
  - rewrite fmap_cons in Hno. apply not_elem_of_cons in Hno as [Hp Hno].
    cbn [wait_for_kids_reap]. rewrite decide_False by (simpl in Hp; congruence).
    rewrite wait_for_kids_mark by assumption. cbn [mbind outcome_bind].
    rewrite IH by (assumption || rewrite length_fmap; assumption).
    rewrite <- list_fmap_compose. reflexivity.
Qed.

Lemma reap_all_gone (waited : list (Z * Z)) (kid : Child) :
  pid kid = -1 ∨ pid kid ∈ waited.*1 → pid (reap_all waited kid) = -1.
Proof.
  revert kid. induction waited as [|[p status] waited IH]; intros kid H.
  - destruct H as [?|H]; [assumption|]. apply elem_of_nil in H. contradiction.
  - cbn [reap_all foldl]. apply IH. unfold reap. simpl.
    case_decide as Hp; simpl; [left; reflexivity|].
    destruct H as [?|H]; [left; assumption|]. right.
    rewrite fmap_cons in H. apply elem_of_cons in H as [?|?]; [simpl in *; congruence | assumption].
Qed.

(** [wait_for_kids] returns when every child has been reported. *)
Lemma wait_for_kids_returns (nkids : nat) (kids0 : list Child) (waited : list (Z * Z)) :
  length kids0 = nkids → -1 ∉ waited.*1 →
  (∀ kid, kid ∈ kids0 → pid kid ∈ waited.*1) →
  wait_for_kids nkids kids0 waited = Done (reap_all waited <$> kids0).
Proof.
  intros Hlen Hno Hall. unfold wait_for_kids.
  rewrite wait_for_kids_reap_all by assumption. cbn [mbind outcome_bind].
  match goal with |- for_loop _ ?b ?s = _ =>
    destruct (for_loop_inv (λ _ ks, ks = s) nkids b s) as (ks & E & ->)
  end.
  - reflexivity.
  - intros i ks Hi ->. exists (reap_all waited <$> kids0). split; [|reflexivity].
    destruct (lookup_lt_is_Some_2 kids0 i) as [kid Hkid]; [lia|].
    rewrite list_lookup_fmap, Hkid. simpl.
    rewrite decide_False; [reflexivity|]. intros Hne. apply Hne.
    apply reap_all_gone. right. apply Hall. apply list_elem_of_lookup. eauto.
  - exact E.
Qed.

Lemma wait_for_kids_reap_status (nkids : nat) (waited waited' : list (Z * Z)) :
  waited.*1 = waited'.*1 →
  ∀ kids0, wait_for_kids_reap nkids kids0 waited
           = wait_for_kids_reap nkids kids0 waited'.
Proof.
  revert waited'. induction waited as [|[p s] waited IH]; intros [|[p' s'] waited'];
    try discriminate; [reflexivity|].
  rewrite !fmap_cons. simpl. intros [= <- Hrest] kids0.
  case_decide; [reflexivity|].
  destruct (for_loop _ _ _); simpl; auto.
Qed.

Lemma reap_all_kept (waited : list (Z * Z)) (kid : Child) :
  pid kid ∉ waited.*1 → reap_all waited kid = kid.
Proof.
  revert kid. induction waited as [|[p status] waited IH]; intros kid H; [reflexivity|].
  rewrite fmap_cons in H. apply not_elem_of_cons in H as [Hp H].
  cbn [reap_all foldl]. simpl. rewrite reap_miss by (simpl in Hp; congruence).
  apply IH. assumption.
Qed.

(** [wait_for_kids] leaves with status 1 at the first child that
    [waitpid] did not report. *)
Lemma wait_for_kids_untracked (nkids : nat) (kids0 : list Child)
    (waited : list (Z * Z)) (i : nat) (kid : Child) :
  length kids0 = nkids → -1 ∉ waited.*1 →
  kids0 !! i = Some kid → pid kid ≠ -1 → pid kid ∉ waited.*1 →
  (∀ j kj, (j < i)%nat → kids0 !! j = Some kj → pid kj ∈ waited.*1) →
  wait_for_kids nkids kids0 waited
  = Exit 1 ("Child %d died without being tracked\n"%string, [pid kid]).
Proof.
  intros Hlen Hno Hkid Hpid Hnot Hbefore. unfold wait_for_kids.
  rewrite wait_for_kids_reap_all by assumption. cbn [mbind outcome_bind].
  pose proof (lookup_lt_Some _ _ _ Hkid) as Hi.
  match goal with |- for_loop _ ?b ?s = _ =>
    destruct (for_loop_inv (λ _ ks, ks = s) i b s) as (ks & E & ->)
  end.
  - reflexivity.
  - intros j ks Hj ->. exists (reap_all waited <$> kids0). split; [|reflexivity].
    destruct (lookup_lt_is_Some_2 kids0 j) as [kj Hkj]; [lia|].
    rewrite list_lookup_fmap, Hkj. simpl.
    rewrite decide_False; [reflexivity|]. intros Hne. apply Hne.
    apply reap_all_gone. right. eauto.
  - eapply for_loop_exit; [| exact E |]; [lia|].
    rewrite list_lookup_fmap, Hkid. simpl.
    rewrite reap_all_kept by assumption.
    rewrite decide_True by assumption. reflexivity.
Qed.

Lemma all_forked_inv (env : Env) (pids : list Z) :
  all_forked env pids →
  length pids = NUM_KIDS ∧ ∀ i p, pids !! i = Some p → forked env i = Some p.
Proof.
  unfold all_forked. intros H. split.
  - apply (f_equal length) in H. rewrite !length_fmap, length_seq in H.
    symmetry. exact H.
  - intros i p Hp. apply (f_equal (λ l, l !! i)) in H.
    rewrite !list_lookup_fmap, Hp in H.
    destruct (seq 0 NUM_KIDS !! i) as [j|] eqn:Hj; [|discriminate].
    apply lookup_seq in Hj as [-> _]. injection H as H. exact H.
Qed.

Lemma main_make_kids (env : Env) (pids : list Z) :
  all_forked env pids →
  for_loop NUM_KIDS
    (λ i kids,
       match make_kid (forked env i) with
       | None => err_exit "Fault starting child %d\n" [Z.of_nat i]
       | Some kid => Done (kids ++ [kid])
       end) []
  = Done (new_kid <$> pids).
Proof.
  intros [Hlen Hforked]%all_forked_inv.
  match goal with |- for_loop _ ?b _ = _ =>
    destruct (for_loop_inv (λ i ks, ks = new_kid <$> take i pids) NUM_KIDS b [])
      as (ks & E & HI)
  end.
  - reflexivity.
  - intros i ks Hi ->.
    destruct (lookup_lt_is_Some_2 pids i) as [p Hp]; [lia|].
    rewrite (Hforked i p Hp). simpl. eexists. split; [reflexivity|].
    rewrite (take_S_r _ _ _ Hp), fmap_app. reflexivity.
  - rewrite E, HI, <- Hlen, firstn_all. reflexivity.
Qed.

Lemma new_kids_listening (pids : list Z) : Forall listening (new_kid <$> pids).
Proof. apply Forall_fmap, Forall_forall. intros p _. eexists. reflexivity. Qed.

Lemma new_kids_newborn (pids : list Z) : Forall newborn (new_kid <$> pids).
Proof. apply Forall_fmap, Forall_forall. intros p _. reflexivity. Qed.

(** [main] returns 0 once the pipeline has run and every child was
    reported by [waitpid], whatever the statuses reported. *)
Lemma main_returns (env : Env) (pids : list Z) (stdin : list byte) :
  all_forked env pids → all_waited env pids →
  ∃ kids' out, sort_pipeline NUM_KIDS (new_kid <$> pids) stdin = Done (kids', out) ∧
               main env stdin = Done (0, out).
Proof.
  intros Hforked [Hall Hno]. pose proof (all_forked_inv _ _ Hforked) as [Hlen _].
  rewrite Forall_forall in Hall.
  destruct (sort_pipeline_total NUM_KIDS (new_kid <$> pids) stdin)
    as (kids' & out & E & Hlen' & Hpid);
    [unfold NUM_KIDS; lia | rewrite length_fmap; assumption | apply new_kids_listening |].
  exists kids', out. split; [assumption|].
  unfold main. rewrite (main_make_kids env pids Hforked). cbn [mbind outcome_bind].
  rewrite E. cbn [mbind outcome_bind].
  rewrite wait_for_kids_returns; [reflexivity | assumption | assumption |].
  intros kid Hkid. apply Hall.
  assert (pid kid ∈ pid <$> kids') as Hin by (apply list_elem_of_fmap; eauto).
  rewrite Hpid, <- list_fmap_compose in Hin.
  apply list_elem_of_fmap in Hin as (p & -> & Hp). exact Hp.
Qed.

(** [main] leaves with status 1 at the first [make_kid] that fails. *)
Lemma main_start_fault (env : Env) (i : nat) (stdin : list byte) :
  (i < NUM_KIDS)%nat → forked env i = None →
  (∀ j, (j < i)%nat → is_Some (forked env j)) →
  main env stdin = Exit 1 ("Fault starting child %d\n"%string, [Z.of_nat i]).
Proof.
  intros Hi Hnone Hsome. unfold main.
  match goal with |- for_loop _ ?b _ ≫= _ = _ =>
    destruct (for_loop_inv (λ _ _, True) i b []) as (ks & E & _)
  end.
  - exact I.
  - intros j ks Hj _. destruct (Hsome j Hj) as [p Hp]. rewrite Hp. simpl. eauto.
  - erewrite for_loop_exit; [reflexivity | exact Hi | exact E |].
    rewrite Hnone. reflexivity.
Qed.

Lemma main_untracked (env : Env) (pids : list Z) (stdin : list byte)
    (i : nat) (p : Z) :
  all_forked env pids → -1 ∉ (waited env).*1 →
  pids !! i = Some p → p ≠ -1 → p ∉ (waited env).*1 →
  (∀ j q, (j < i)%nat → pids !! j = Some q → q ∈ (waited env).*1) →
  main env stdin
  = Exit 1 ("Child %d died without being tracked\n"%string, [p]).
Proof.
  intros Hforked Hno Hp Hp1 Hnot Hbefore.
  pose proof (all_forked_inv _ _ Hforked) as [Hlen _].
  destruct (sort_pipeline_total NUM_KIDS (new_kid <$> pids) stdin)
    as (kids' & out & E & Hlen' & Hpid);
    [unfold NUM_KIDS; lia | rewrite length_fmap; assumption | apply new_kids_listening |].
  unfold main. rewrite (main_make_kids env pids Hforked). cbn [mbind outcome_bind].
  rewrite E. cbn [mbind outcome_bind].
  assert (pid <$> kids' = pids) as Hpids.
  { rewrite Hpid, <- list_fmap_compose. apply list_fmap_id. }
  destruct (lookup_lt_is_Some_2 kids' i) as [kid Hkid].
  { apply lookup_lt_Some in Hp. lia. }
  assert (pid kid = p) as Hkp.
  { apply (f_equal (λ l, l !! i)) in Hpids.
    rewrite list_lookup_fmap, Hkid, Hp in Hpids. injection Hpids as ->. reflexivity. }
  rewrite (wait_for_kids_untracked NUM_KIDS kids' (waited env) i kid);
    try assumption; try congruence.
  - rewrite Hkp. reflexivity.
  - intros j kj Hj Hkj. apply (Hbefore j (pid kj) Hj).
    rewrite <- Hpids, list_lookup_fmap, Hkj. reflexivity.
Qed.

(** [main] on records: status 0 and the records sorted on the standard
    output. *)
Lemma main_sorts (env : Env) (pids : list Z) (input : list (list byte)) :
  all_forked env pids → all_waited env pids → Forall is_line input →
  main env (concat input) = Done (0, concat (qsort qs_compare input)).
Proof.
  intros Hf Hw Hin.
  destruct (main_returns env pids (concat input) Hf Hw) as (kids' & out & E & ->).
  destruct (sort_pipeline_lines NUM_KIDS (new_kid <$> pids) input)
    as (kids'' & E' & _);
    [unfold NUM_KIDS; lia | | apply new_kids_newborn | assumption |].
  - rewrite length_fmap. apply (all_forked_inv env pids Hf).
  - rewrite E in E'. injection E' as _ ->. reflexivity.
Qed.

(** ** Text of any shape: the bytes are kept *)

Lemma fgets_scan_app room stream got rest :
  fgets_scan room stream = (got, rest) → got ++ rest = stream.
Proof.
  revert stream got rest. induction room as [|room IH]; intros stream got rest.
  - intros [= <- <-]. reflexivity.
  - destruct stream as [|c s]; simpl.
    + intros [= <- <-]. reflexivity.
    + case_decide.
      * intros [= <- <-]. reflexivity.
      * destruct (fgets_scan room s) as [g r] eqn:E. intros [= <- <-].
        simpl. f_equal. apply IH. exact E.
Qed.

Lemma fgets_scan_room room stream got rest :
  fgets_scan room stream = (got, rest) → (length got ≤ room)%nat.
Proof.
  revert stream got rest. induction room as [|room IH]; intros stream got rest.
  - intros [= <- <-]. simpl. lia.
  - destruct stream as [|c s]; simpl.
    + intros [= <- <-]. simpl. lia.
    + case_decide.
      * intros [= <- <-]. simpl. lia.
      * destruct (fgets_scan room s) as [g r] eqn:E. intros [= <- <-].
        simpl. apply IH in E. lia.
Qed.

Lemma c_string_app (s1 s2 : list byte) :
  c_string (s1 ++ s2) ↔ c_string s1 ∧ c_string s2.
Proof. unfold c_string. apply Forall_app. Qed.

(** On a stream without NUL [fgets] takes a piece off the front. *)
Lemma fgets_text (size : nat) (stream buffer rest : list byte) :
  (2 ≤ size)%nat → c_string stream →
  fgets size stream = Some (buffer, rest) →
  buffer ++ rest = stream ∧ buffer ≠ [] ∧ (length buffer < size)%nat.
Proof.
  intros Hs Hc. unfold fgets. destruct stream as [|c s]; [discriminate|].
  destruct (fgets_scan (size - 1) (c :: s)) as [g r] eqn:E.
  intros [= <- <-].
  pose proof (fgets_scan_app _ _ _ _ E) as Happ.
  pose proof (fgets_scan_room _ _ _ _ E) as Hroom.
  assert (c_string g) as Hg by (rewrite <- Happ in Hc; apply c_string_app in Hc; tauto).
  rewrite (cstr_id g Hg). split; [exact Happ|]. split; [|lia].
  destruct (size - 1)%nat as [|room] eqn:Er; [lia|].
  simpl in E. case_decide.
  - injection E as <- <-. discriminate.
  - destruct (fgets_scan room s) as [g' r']. injection E as <- <-. discriminate.
Qed.

Lemma fgets_None (size : nat) (stream : list byte) :
  fgets size stream = None → stream = [].
Proof.
  unfold fgets. destruct stream; [reflexivity|].
  destruct (fgets_scan _ _). discriminate.
Qed.

Lemma be_childish_read_pieces (fuel : nat) :
  ∀ stdin acc cap lines, c_string stdin → Forall is_piece acc →
  be_childish_read fuel stdin acc cap = Done lines →
  concat lines = concat acc ++ stdin ∧ Forall is_piece lines.
Proof.
  induction fuel as [|fuel IH]; intros stdin acc cap lines Hc Hacc; [discriminate|].
  simpl. destruct (fgets MAX_LINE stdin) as [[input rest]|] eqn:E.
  - apply fgets_text in E as (Happ & Hne & Hlen); [| unfold MAX_LINE; lia | assumption].
    rewrite <- Happ in Hc. apply c_string_app in Hc as [Hci Hcr].
    intros H. apply IH in H as [H1 H2]; [| assumption |].
    + split; [|exact H2]. rewrite H1, concat_app. simpl.
      rewrite app_nil_r, <- Happ, <- app_assoc. reflexivity.
    + apply Forall_app. split; [assumption|]. constructor; [|constructor].
      unfold estrdup, is_piece. auto.
  - apply fgets_None in E as ->. intros [= <-]. rewrite app_nil_r. auto.
Qed.

Lemma Permutation_concat {A : Type} (l1 l2 : list (list A)) :
  l1 ≡ₚ l2 → concat l1 ≡ₚ concat l2.
Proof.
  induction 1 as [|x l l' _ IH|x y l|l l' l'' _ IH1 _ IH2]; simpl.
  - reflexivity.
  - rewrite IH. reflexivity.
  - rewrite !app_assoc. apply Permutation_app_tail, Permutation_app_comm.
  - etransitivity; eassumption.
Qed.

Lemma be_childish_pieces (stdin : list byte) :
  c_string stdin →
  ∃ pieces, concat pieces = stdin ∧ Forall is_piece pieces ∧
            be_childish stdin = Done (concat (qsort qs_compare pieces)).
Proof.
  intros Hc. unfold be_childish.
  destruct (be_childish_read_total (S (length stdin)) stdin [] 0%nat)
    as [pieces E]; [lia|].
  rewrite E. cbn [mbind outcome_bind].
  apply be_childish_read_pieces in E as [H1 H2]; [| assumption | constructor].
  exists pieces. split; [exact H1|]. split; [exact H2|].
  unfold mret, outcome_ret. rewrite fputs_all. reflexivity.
Qed.

Lemma be_childish_bytes (stdin : list byte) :
  c_string stdin → ∃ out, be_childish stdin = Done out ∧ out ≡ₚ stdin.
Proof.
  intros Hc. destruct (be_childish_pieces stdin Hc) as (pieces & H1 & _ & E).
  eexists. split; [exact E|]. rewrite <- H1.
  apply Permutation_concat, qsort_Permutation.
Qed.

Lemma c_string_Permutation (s1 s2 : list byte) :
  s1 ≡ₚ s2 → c_string s1 → c_string s2.
Proof. intros H. unfold c_string. rewrite H. auto. Qed.

Lemma concat_insert_swap {A : Type} (ls : list (list A)) (i : nat) (x y : list A) :
  ls !! i = Some x → concat (<[i := y]> ls) ++ x ≡ₚ concat ls ++ y.
Proof.
  revert i. induction ls as [|l ls IH]; intros [|i] H; simpl in *; try discriminate.
  - injection H as ->. rewrite <- !app_assoc.
    rewrite (Permutation_app_comm y (concat ls ++ x)).
    rewrite (Permutation_app_comm (concat ls) x), <- app_assoc. reflexivity.
  - rewrite <- !app_assoc. apply Permutation_app_head, IH. exact H.
Qed.

Lemma concat_insert_app {A : Type} (ls : list (list A)) (i : nat) (l x : list A) :
  ls !! i = Some l → concat (<[i := l ++ x]> ls) ≡ₚ concat ls ++ x.
Proof.
  intros H. apply (Permutation_app_inv_r l).
  rewrite (concat_insert_swap ls i l (l ++ x) H).
  rewrite <- !app_assoc. apply Permutation_app_head, Permutation_app_comm.
Qed.

Lemma concat_insert_take {A : Type} (ls : list (list A)) (i : nat) (b r : list A) :
  ls !! i = Some (b ++ r) → concat (<[i := r]> ls) ++ b ≡ₚ concat ls.
Proof.
  intros H. apply (Permutation_app_inv_r r).
  rewrite <- app_assoc. rewrite (concat_insert_swap ls i (b ++ r) r H).
  reflexivity.
Qed.

Lemma distribute_loop_bytes (nkids : nat) (fuel : nat) :
  ∀ stdin kids n kids',
    c_string stdin → (n < nkids)%nat → length kids = nkids →
    Forall listening kids →
    distribute_loop fuel nkids stdin kids n = Done kids' →
    concat (written_to <$> kids') ≡ₚ concat (written_to <$> kids) ++ stdin ∧
    fp_from <$> kids' = fp_from <$> kids.
Proof.
  induction fuel as [|fuel IH]; intros stdin kids n kids' Hc Hn Hlen Hopen;
    [discriminate|].
  simpl. destruct (fgets MAX_LINE stdin) as [[input rest]|] eqn:E.
  - apply fgets_text in E as (Happ & _ & _); [| unfold MAX_LINE; lia | assumption].
    rewrite <- Happ in Hc. apply c_string_app in Hc as [_ Hcr].
    destruct (lookup_lt_is_Some_2 kids n) as [kid Hkid]; [lia|]. rewrite Hkid.
    destruct (Forall_lookup_1 _ _ _ _ Hopen Hkid) as [w Hw]. rewrite Hw.
    intros H. apply IH in H as [H1 H2]; try assumption.
    + split.
      * rewrite H1, list_fmap_insert. unfold written_to at 1. simpl. unfold fputs.
        rewrite concat_insert_app.
        -- rewrite <- Happ, <- app_assoc. reflexivity.
        -- rewrite list_lookup_fmap, Hkid. simpl. unfold written_to. rewrite Hw. reflexivity.
      * rewrite H2, list_fmap_insert. simpl.
        apply list_insert_id. rewrite list_lookup_fmap, Hkid. reflexivity.
    + case_decide; lia.
    + rewrite length_insert. assumption.
    + apply Forall_insert; [assumption|]. eexists. reflexivity.
  - apply fgets_None in E as ->. intros [= <-]. rewrite app_nil_r. auto.
Qed.

Lemma newborn_nothing_written (kids : list Child) :
  Forall newborn kids → concat (written_to <$> kids) = [].
Proof.
  induction 1 as [|kid kids Hk _ IH]; [reflexivity|].
  rewrite fmap_cons. simpl. rewrite IH. unfold written_to. rewrite Hk. reflexivity.
Qed.

Lemma newborn_listening (kids : list Child) :
  Forall newborn kids → Forall listening kids.
Proof.
  intros H. eapply Forall_impl; [exact H|].
  intros kid Hk. unfold listening. rewrite Hk. eauto.
Qed.

Lemma c_string_concat (ls : list (list byte)) :
  c_string (concat ls) ↔ Forall c_string ls.
Proof.
  induction ls as [|l ls IH]; simpl.
  - split; constructor.
  - rewrite c_string_app, IH, Forall_cons. reflexivity.
Qed.

(** [distribute] on text: every byte of the input goes to one child. *)
Lemma distribute_bytes (nkids : nat) (kids : list Child) (stdin : list byte) :
  (0 < nkids)%nat → length kids = nkids → Forall newborn kids → c_string stdin →
  ∃ kids1, distribute nkids kids stdin
           = Done (close_to <$> kids1, written_to <$> kids1) ∧
           length kids1 = nkids ∧
           fp_from <$> kids1 = fp_from <$> kids ∧ pid <$> kids1 = pid <$> kids ∧
           concat (written_to <$> kids1) ≡ₚ stdin ∧
           Forall c_string (written_to <$> kids1).
Proof.
  intros Hn Hlen Hnew Hc. unfold distribute.
  pose proof (newborn_listening _ Hnew) as Hopen.
  destruct (distribute_loop_total nkids (S (length stdin)) stdin kids O)
    as (kids1 & E1 & Hlen1 & Hopen1 & Hpid1); try assumption; try lia.
  rewrite E1. cbn [mbind outcome_bind].
  rewrite (distribute_close_all nkids kids1 Hlen1 Hopen1).
  apply distribute_loop_bytes in E1 as [H1 H2]; try assumption.
  rewrite (newborn_nothing_written kids Hnew) in H1. simpl in H1.
  exists kids1. split; [reflexivity|].
  do 4 (split; [assumption|]).
  apply c_string_concat. apply (c_string_Permutation stdin); [|assumption].
  symmetry. exact H1.
Qed.


(** [read_line] on text: the buffer and what stays in the stream make
    up what the stream held. *)
Lemma read_line_text (kid : Child) :
  holds_text kid →
  ∃ kid' buffer l,
    read_line kid MAX_LINE = Done (kid', buffer, l) ∧
    fp_to kid' = fp_to kid ∧ pid kid' = pid kid ∧
    slot_bytes kid' buffer l ∧
    buffer ++ unread_bytes kid' = unread_bytes kid.
Proof.
  intros (stream & Hs & Hc). unfold read_line, unread_bytes. rewrite Hs.
  destruct (fgets MAX_LINE stream) as [[buffer rest]|] eqn:E.
  - apply fgets_text in E as (Happ & Hne & Hlen); [| unfold MAX_LINE; lia | assumption].
    rewrite <- Happ in Hc. apply c_string_app in Hc as [Hcb Hcr].
    eexists _, _, _. split; [reflexivity|]. simpl.
    split; [reflexivity|]. split; [reflexivity|]. split; [|exact Happ].
    left. split; [|split; [assumption|]].
    + unfold strlen. destruct buffer; [contradiction | simpl; lia].
    + exists rest. auto.
  - apply fgets_None in E as ->.
    eexists _, _, _. split; [reflexivity|]. simpl.
    split; [reflexivity|]. split; [reflexivity|]. split; [|reflexivity].
    right. auto.
Qed.

Lemma frontier_bytes_wf (nkids : nat) (fr : Frontier) :
  frontier_bytes nkids fr → frontier_wf nkids fr.
Proof.
  intros (Hk & Hli & Hle & Hslot).
  split; [assumption|]. split; [assumption|]. split; [assumption|]. split.
  - apply Forall_lookup_2. intros i line Hline.
    destruct (lookup_lt_is_Some_2 (kids fr) i) as [kid Hkid];
      [apply lookup_lt_Some in Hline; lia|].
    destruct (lookup_lt_is_Some_2 (len fr) i) as [l Hl];
      [apply lookup_lt_Some in Hline; lia|].
    destruct (Hslot i kid line l Hkid Hline Hl) as [(_ & Hc & _)|(_ & -> & _)];
      [assumption | constructor].
  - intros i kid (l & Hl & Hpos) Hkid.
    destruct (lookup_lt_is_Some_2 (lines fr) i) as [line Hline];
      [apply lookup_lt_Some in Hl; lia|].
    destruct (Hslot i kid line l Hkid Hline Hl) as [(_ & _ & s & Hs & _)|(-> & _)];
      [rewrite Hs; eauto | lia].
Qed.

(** A turn of [merge] on text: the string written comes from the buffer
    of a kid, which is refilled from the stream of that kid. *)
Lemma min_line_bytes (nkids : nat) (fr fr' : Frontier) (output : list byte) :
  frontier_bytes nkids fr →
  not_all_done nkids (len fr) = Done true →
  min_line nkids MAX_LINE fr = Done (fr', output) →
  ∃ m kid kid' buffer l,
    (m < nkids)%nat ∧ kids fr !! m = Some kid ∧ lines fr !! m = Some output ∧
    fr' = refilled fr m kid' buffer l ∧ slot_bytes kid' buffer l ∧
    buffer ++ unread_bytes kid' = unread_bytes kid ∧
    fp_to kid' = fp_to kid ∧ pid kid' = pid kid.
Proof.
  intros Hfb Hmore Emin. pose proof (frontier_bytes_wf _ _ Hfb) as Hwf.
  destruct (not_all_done_spec nkids (len fr)) as (more & Emore & Hm); [apply Hwf|].
  rewrite Hmore in Emore. injection Emore as <-.
  destruct (min_line_turn nkids fr Hwf) as
    (m & o & kid & kid' & buffer & l & Hsc & Hkid & Eread & Emin' & _ & _);
    [apply Hm; reflexivity|].
  rewrite Emin in Emin'. injection Emin' as -> ->.
  destruct Hsc as (Hlt & (l0 & Hl0 & Hpos) & Hline & _). simpl in *.
  destruct Hfb as (_ & _ & _ & Hslot).
  destruct (Hslot m kid o l0 Hkid Hline Hl0) as [(_ & _ & Htext)|(-> & _)]; [|lia].
  destruct (read_line_text kid Htext) as (k' & b' & l' & E & Hto & Hpid & Hs & Happ).
  rewrite Eread in E. injection E as <- <- <-.
  exists m, kid, kid', buffer, l. auto 10.
Qed.

Lemma refilled_bytes (nkids : nat) (fr : Frontier) (m : nat)
    (kid' : Child) (buffer : list byte) (l : Z) :
  frontier_bytes nkids fr → slot_bytes kid' buffer l →
  frontier_bytes nkids (refilled fr m kid' buffer l).
Proof.
  intros (Hk & Hli & Hle & Hslot) Hnew. unfold frontier_bytes, refilled. simpl.
  rewrite !length_insert. do 3 (split; [assumption|]).
  intros i kid line li Hkid Hline Hl.
  destruct (decide (i = m)) as [->|Hne].
  - pose proof (lookup_lt_Some _ _ _ Hkid) as Hm. rewrite length_insert in Hm.
    rewrite list_lookup_insert_eq in Hkid by lia.
    rewrite list_lookup_insert_eq in Hline by lia.
    rewrite list_lookup_insert_eq in Hl by lia.
    injection Hkid as <-. injection Hline as <-. injection Hl as <-. exact Hnew.
  - rewrite list_lookup_insert_ne in Hkid by congruence.
    rewrite list_lookup_insert_ne in Hline by congruence.
    rewrite list_lookup_insert_ne in Hl by congruence. eauto.
Qed.

Lemma refilled_in_flight (fr : Frontier) (m : nat) (kid kid' : Child)
    (output buffer : list byte) (l : Z) :
  kids fr !! m = Some kid → lines fr !! m = Some output →
  buffer ++ unread_bytes kid' = unread_bytes kid →
  output ++ in_flight (refilled fr m kid' buffer l) ≡ₚ in_flight fr.
Proof.
  intros Hkid Hline Happ. unfold in_flight, refilled. simpl.
  rewrite list_fmap_insert.
  pose proof (concat_insert_swap (lines fr) m output buffer Hline) as H1.
  pose proof (concat_insert_take (unread_bytes <$> kids fr) m buffer
                (unread_bytes kid')) as H2.
  rewrite list_lookup_fmap, Hkid in H2. simpl in H2. rewrite Happ in H2.
  specialize (H2 eq_refl).
  rewrite app_assoc, (Permutation_app_comm output), H1, <- app_assoc.
  apply Permutation_app_head. rewrite Permutation_app_comm. exact H2.
Qed.

Lemma concat_all_nil {A : Type} (ls : list (list A)) :
  Forall (λ l, l = []) ls → concat ls = [].
Proof. induction 1 as [|l ls -> _ IH]; [reflexivity | exact IH]. Qed.

(** When no slot holds a line every stream was closed and nothing is
    left to write. *)
Lemma frontier_bytes_done (nkids : nat) (fr : Frontier) :
  frontier_bytes nkids fr → not_all_done nkids (len fr) = Done false →
  in_flight fr = [] ∧ Forall (λ kid, fp_from kid = None) (kids fr).
Proof.
  intros (Hk & Hli & Hle & Hslot) Hdone.
  destruct (not_all_done_spec nkids (len fr) Hle) as (more & Emore & Hm).
  rewrite Hdone in Emore. injection Emore as <-.
  assert (∀ i kid, kids fr !! i = Some kid → fp_from kid = None) as Hclosed.
  { intros i kid Hkid. pose proof (lookup_lt_Some _ _ _ Hkid) as Hi.
    destruct (lookup_lt_is_Some_2 (lines fr) i) as [line Hline]; [lia|].
    destruct (lookup_lt_is_Some_2 (len fr) i) as [l Hl]; [lia|].
    destruct (Hslot i kid line l Hkid Hline Hl) as [(Hpos & _)|(_ & _ & H)];
      [|exact H].
    assert (false = true) as Habs; [|discriminate].
    apply Hm. exists i. split; [lia|]. exists l. auto. }
  assert (∀ i line, lines fr !! i = Some line → line = []) as Hempty.
  { intros i line Hline. pose proof (lookup_lt_Some _ _ _ Hline) as Hi.
    destruct (lookup_lt_is_Some_2 (kids fr) i) as [kid Hkid]; [lia|].
    destruct (lookup_lt_is_Some_2 (len fr) i) as [l Hl]; [lia|].
    destruct (Hslot i kid line l Hkid Hline Hl) as [(Hpos & _)|(_ & H & _)];
      [|exact H].
    assert (false = true) as Habs; [|discriminate].
    apply Hm. exists i. split; [lia|]. exists l. auto. }
  split; [|apply Forall_lookup_2; exact Hclosed].
  unfold in_flight. rewrite !concat_all_nil; [reflexivity | |].
  - apply Forall_lookup_2. intros i s Hs. rewrite list_lookup_fmap in Hs.
    destruct (kids fr !! i) as [kid|] eqn:Hkid; [|discriminate].
    injection Hs as <-. unfold unread_bytes. rewrite (Hclosed i kid Hkid). reflexivity.
  - apply Forall_lookup_2. exact Hempty.
Qed.

Lemma merge_preload_bytes (nkids : nat) (kids0 : list Child) :
  length kids0 = nkids → Forall holds_text kids0 →
  ∃ fr, for_loop nkids merge_preload
          (mkFrontier kids0 (replicate nkids []) (replicate nkids 0)) = Done fr ∧
        frontier_bytes nkids fr ∧
        in_flight fr ≡ₚ concat (unread_bytes <$> kids0) ∧
        fp_to <$> kids fr = fp_to <$> kids0.
Proof.
  intros Hlen Hopen.
  destruct (for_loop_inv
    (λ i fr,
       length (kids fr) = nkids ∧ length (lines fr) = nkids ∧
       length (len fr) = nkids ∧
       (∀ j kid line l, (j < i)%nat → kids fr !! j = Some kid →
          lines fr !! j = Some line → len fr !! j = Some l → slot_bytes kid line l) ∧
       (∀ j kid, (i ≤ j)%nat → kids fr !! j = Some kid → holds_text kid) ∧
       (∀ j line, (i ≤ j)%nat → lines fr !! j = Some line → line = []) ∧
       in_flight fr ≡ₚ concat (unread_bytes <$> kids0) ∧
       fp_to <$> kids fr = fp_to <$> kids0)
    nkids merge_preload
    (mkFrontier kids0 (replicate nkids []) (replicate nkids 0))) as (fr & E & HI).
  - simpl. rewrite !length_replicate.
    split; [assumption|]. split; [reflexivity|]. split; [reflexivity|].
    split; [intros; lia|]. split; [|split; [|split; [|reflexivity]]].
    + intros j kid _ Hj. exact (Forall_lookup_1 _ _ _ _ Hopen Hj).
    + intros j line _ Hj. apply lookup_replicate in Hj as [-> _]. reflexivity.
    + unfold in_flight. simpl. rewrite concat_replicate_nil. reflexivity.
  - intros i fr Hi (Hk & Hli & Hle & Hdone & Hrest & Hnil & Hfl & Hto).
    destruct (lookup_lt_is_Some_2 (kids fr) i) as [kid Hkid]; [lia|].
    destruct (lookup_lt_is_Some_2 (lines fr) i) as [line Hline]; [lia|].
    pose proof (Hnil i line (Nat.le_refl i) Hline) as ->.
    destruct (read_line_text kid (Hrest i kid (Nat.le_refl i) Hkid))
      as (kid' & buffer & l & Eread & Hto' & Hpid' & Hslot & Happ).
    eexists. split.
    + unfold merge_preload. rewrite Hkid, Eread. reflexivity.
    + simpl. rewrite !length_insert.
      split; [assumption|]. split; [assumption|]. split; [assumption|].
      split; [| split; [| split; [| split]]].
      * intros j kidj linej lj Hj Hkj Hlj Hlenj.
        destruct (decide (j = i)) as [->|Hne].
        -- rewrite list_lookup_insert_eq in Hkj by lia.
           rewrite list_lookup_insert_eq in Hlj by lia.
           rewrite list_lookup_insert_eq in Hlenj by lia.
           injection Hkj as <-. injection Hlj as <-. injection Hlenj as <-.
           exact Hslot.
        -- rewrite list_lookup_insert_ne in Hkj by congruence.
           rewrite list_lookup_insert_ne in Hlj by congruence.
           rewrite list_lookup_insert_ne in Hlenj by congruence.
           apply (Hdone j kidj linej lj); [lia | assumption ..].
      * intros j kidj Hj Hkj. rewrite list_lookup_insert_ne in Hkj by lia.
        apply (Hrest j kidj); [lia | assumption].
      * intros j linej Hj Hlj. rewrite list_lookup_insert_ne in Hlj by lia.
        apply (Hnil j linej); [lia | assumption].
      * rewrite <- Hfl.
        apply (refilled_in_flight fr i kid kid' [] buffer l Hkid Hline Happ).
      * rewrite list_fmap_insert, Hto', <- Hto.
        apply list_insert_id. rewrite list_lookup_fmap, Hkid. reflexivity.
  - exists fr. split; [exact E|].
    destruct HI as (Hk & Hli & Hle & Hdone & _ & _ & Hfl & Hto).
    split; [|split; assumption].
    split; [assumption|]. split; [assumption|]. split; [assumption|].
    intros j kid line l Hkid Hline Hl.
    apply (Hdone j kid line l); try assumption.
    apply lookup_lt_Some in Hkid. lia.
Qed.

Lemma holds_text_open (kids0 : list Child) :
  Forall holds_text kids0 → Forall (λ kid, is_Some (fp_from kid)) kids0.
Proof.
  intros H. eapply Forall_impl; [exact H|].
  intros kid (s & Hs & _). rewrite Hs. eauto.
Qed.



(** ** A single child *)

Lemma distribute_loop_one (fuel : nat) :
  ∀ stdin w from p, c_string stdin → (length stdin < fuel)%nat →
  distribute_loop fuel 1 stdin [mkChild (Some w) from p] 0
  = Done [mkChild (Some (w ++ stdin)) from p].
Proof.
  induction fuel as [|fuel IH]; intros stdin w from p Hc Hfuel; [lia|].
  simpl. destruct (fgets MAX_LINE stdin) as [[input rest]|] eqn:E.
  - assert (2 ≤ MAX_LINE)%nat as HM by (unfold MAX_LINE; lia).
    pose proof (fgets_shortens _ _ _ _ HM E) as [_ Hshort].
    apply fgets_text in E as (Happ & _ & _); [| unfold MAX_LINE; lia | assumption].
    rewrite <- Happ in Hc. apply c_string_app in Hc as [_ Hcr].
    simpl. unfold fputs. rewrite IH by (assumption || lia).
    rewrite <- Happ, <- app_assoc. reflexivity.
  - apply fgets_None in E as ->. rewrite app_nil_r. reflexivity.
Qed.

(** [merge] with one child copies the stream of that child. *)
Lemma merge_one (kid : Child) (stream : list byte) :
  fp_from kid = Some stream → c_string stream →
  ∃ fr, merge 1 [kid] = Done (fr, stream) ∧
        kids fr = [mkChild (fp_to kid) None (pid kid)].
Proof.
  intros Hs Hc.
  assert (holds_text kid) as Htext by (exists stream; auto).
  assert (Forall holds_text [kid]) as Hall by (constructor; [assumption | constructor]).
  unfold merge.
  destruct (merge_preload_all 1 [kid] eq_refl (holds_text_open _ Hall))
    as (fr0 & E0 & Hwf0 & Hun & _).
  destruct (merge_preload_bytes 1 [kid] eq_refl Hall)
    as (fr0' & E0' & Hfb0 & _).
  rewrite E0 in E0'. injection E0' as <-.
  rewrite E0. cbn [mbind outcome_bind].
  assert (∃ kid0 line0, kids fr0 = [kid0] ∧ lines fr0 = [line0] ∧
            line0 ++ unread_bytes kid0 = stream ∧
            fp_to kid0 = fp_to kid ∧ pid kid0 = pid kid) as Hstart.
  { revert E0. unfold for_loop. simpl. unfold merge_preload. simpl.
    destruct (read_line_text kid Htext) as (k' & b & l & -> & Hto & Hpid & _ & Happ).
    simpl. intros [= <-]. simpl. exists k', b.
    unfold unread_bytes in Happ at 2. rewrite Hs in Happ. auto. }
  destruct (merge_loop_rule 1
    (λ fr out, frontier_bytes 1 fr ∧
               ∃ kid0 line0, kids fr = [kid0] ∧ lines fr = [line0] ∧
                 out ++ line0 ++ unread_bytes kid0 = stream ∧
                 fp_to kid0 = fp_to kid ∧ pid kid0 = pid kid))
    with (fuel := S (1 + unread [kid])) (fr := fr0) (out := @nil byte)
    as (fr & out & E & (Hfb & kid1 & line1 & Hk & Hl & Happ & Hto & Hpid) & Hdone).
  - intros fr out [H _]. apply frontier_bytes_wf. exact H.
  - intros fr out fr' output (Hfb & kid0 & line0 & Hk & Hl & Happ & Hto & Hpid)
      Hmore Emin.
    destruct (min_line_bytes 1 fr fr' output Hfb Hmore Emin)
      as (m & k & k' & buffer & l & Hm & Hkid & Hline & -> & Hslot & Happ' & Hto' & Hpid').
    assert (m = 0%nat) as -> by lia.
    rewrite Hk in Hkid. rewrite Hl in Hline. simpl in Hkid, Hline.
    injection Hkid as <-. injection Hline as <-.
    split; [apply refilled_bytes; assumption|].
    exists k', buffer. unfold refilled. simpl. rewrite Hk, Hl. simpl.
    split; [reflexivity|]. split; [reflexivity|].
    split; [| split; congruence].
    unfold fputs. rewrite <- app_assoc, Happ'. exact Happ.
  - split; [assumption|]. exact Hstart.
  - unfold turns_left. pose proof (heads_le_length (len fr0)).
    destruct Hwf0 as (_ & _ & Hle & _). lia.
  - destruct (frontier_bytes_done 1 fr Hfb Hdone) as [Hnil Hclosed].
    unfold in_flight in Hnil. rewrite Hk, Hl in Hnil. simpl in Hnil.
    rewrite !app_nil_r in Hnil. apply app_eq_nil in Hnil as [-> Hub].
    rewrite Hub, !app_nil_r in Happ. subst out.
    exists fr. split; [exact E|]. rewrite Hk. f_equal.
    rewrite Hk, Forall_singleton in Hclosed.
    destruct kid1 as [t f q]. simpl in Hto, Hpid, Hclosed. subst t f q. reflexivity.
Qed.

Lemma cstr_length (buf : list byte) : (length (cstr buf) ≤ length buf)%nat.
Proof.
  induction buf as [|c buf IH]; simpl; [lia|]. case_decide; simpl; lia.
Qed.

Lemma fgets_fits (size : nat) (stream buffer rest : list byte) :
  (1 ≤ size)%nat → fgets size stream = Some (buffer, rest) →
  (length buffer < size)%nat.
Proof.
  intros Hs. unfold fgets. destruct stream as [|c s]; [discriminate|].
  destruct (fgets_scan (size - 1) (c :: s)) as [g r] eqn:E.
  intros [= <- <-]. apply fgets_scan_room in E.
  pose proof (cstr_length g). lia.
Qed.

Lemma fgets_leading_NUL (size : nat) (stream buffer rest : list byte) :
  (2 ≤ size)%nat → fgets size (NUL :: stream) = Some (buffer, rest) →
  buffer = [].
Proof.
  intros Hs. unfold fgets.
  destruct (size - 1)%nat as [|room] eqn:Er; [lia|]. simpl.
  destruct (fgets_scan room stream) as [g r]. intros [= <- <-]. reflexivity.
Qed.

Lemma qsort_sorted_id (ls : list (list byte)) :
  Forall c_string ls → Sorted line_le ls → qsort qs_compare ls = ls.
Proof.
  intros Hc Hs. symmetry. apply qsort_unique; [assumption | reflexivity | assumption].
Qed.

(** The first child that [waitpid] did not report, if there is one. *)
Lemma first_unreported (waited : list (Z * Z)) (kids0 : list Child) :
  (∀ kid, kid ∈ kids0 → pid kid ∈ waited.*1) ∨
  ∃ i kid, kids0 !! i = Some kid ∧ (pid kid ∉ waited.*1) ∧
           ∀ j kj, (j < i)%nat → kids0 !! j = Some kj → pid kj ∈ waited.*1.
Proof.
  induction kids0 as [|kid kids0 IH].
  - left. intros kid H. inversion H.
  - destruct (decide (pid kid ∈ waited.*1)) as [Hin|Hout].
    + destruct IH as [Hall|(i & k & Hk & Hno & Hbefore)].
      * left. intros k [->|Hk]%elem_of_cons; auto.
      * right. exists (S i), k. split; [exact Hk|]. split; [exact Hno|].
        intros [|j] kj Hj Hkj; simpl in Hkj.
        -- injection Hkj as <-. exact Hin.
        -- apply (Hbefore j kj); [lia | exact Hkj].
    + right. exists 0%nat, kid. split; [reflexivity|]. split; [exact Hout|].
      intros j kj Hj. lia.
Qed.

(** ** Finite pipes *)

Lemma children_exit_spec (capacity : nat) (kids0 : list Child) :
  children_exit capacity kids0 = true
  ↔ Forall (λ kid, (length (unread_bytes kid) ≤ capacity)%nat) (tail kids0).
Proof.
  unfold children_exit. induction (tail kids0) as [|kid l IH]; simpl.
  - split; [constructor | reflexivity].
  - rewrite andb_true_iff, IH, Forall_cons. unfold fits, unread_bytes.
    rewrite bool_decide_eq_true. reflexivity.
Qed.

(** On finite pipes the pipeline does what [sort_pipeline] says when
    every child exits, and nothing otherwise. *)
Lemma sort_pipeline_run_eq (capacity nkids : nat) (kids0 kids1 kids2 : list Child)
    (stdin : list byte) (sent : list (list byte)) :
  distribute nkids kids0 stdin = Done (kids1, sent) →
  children_run kids1 sent = Done kids2 →
  sort_pipeline_run capacity nkids kids0 stdin
  = if children_exit capacity kids2
    then Ends (sort_pipeline nkids kids0 stdin) else Deadlock.
Proof.
  intros E1 E2. unfold sort_pipeline_run, sort_pipeline.
  rewrite E1. cbn [mbind outcome_bind]. rewrite E2. reflexivity.
Qed.

(** Every child puts on its stream the bytes that it received. *)
Lemma children_run_each (kids0 : list Child) (sent : list (list byte)) :
  length kids0 = length sent → Forall c_string sent →
  ∃ kids1, children_run kids0 sent = Done kids1 ∧
           Forall2 (λ kid s, unread_bytes kid ≡ₚ s) kids1 sent.
Proof.
  revert sent. induction kids0 as [|kid kids0 IH]; intros [|input sent];
    simpl; try discriminate.
  - intros _ _. exists []. split; [reflexivity | constructor].
  - intros [= Hlen] [Hc Hcs]%Forall_cons.
    destruct (be_childish_bytes input Hc) as (out & -> & Hperm).
    cbn [mbind outcome_bind].
    destruct (IH sent Hlen Hcs) as (kids1 & -> & Hall).
    cbn [mbind outcome_bind].
    eexists. split; [reflexivity|]. constructor; [exact Hperm | exact Hall].
Qed.

Lemma Forall2_tail {A B : Type} (P : A → B → Prop) (l : list A) (k : list B) :
  Forall2 P l k → Forall2 P (tail l) (tail k).
Proof. intros [|x y l' k' _ H]; simpl; [constructor | exact H]. Qed.

Lemma children_exit_sent (capacity : nat) (kids1 : list Child)
    (sent : list (list byte)) :
  Forall2 (λ kid s, unread_bytes kid ≡ₚ s) kids1 sent →
  children_exit capacity kids1 = bool_decide (sent_fits capacity sent).
Proof.
  intros H. apply Forall2_tail in H.
  apply eq_true_iff_eq. rewrite children_exit_spec, bool_decide_eq_true.
  unfold sent_fits. induction H as [|kid s l k Hp _ IH].
  - split; constructor.
  - rewrite !Forall_cons, IH, (Permutation_length Hp). reflexivity.
Qed.

(** The pipeline on text and finite pipes. *)
Lemma sort_pipeline_run_text (capacity nkids : nat) (kids0 : list Child)
    (stdin : list byte) :
  (0 < nkids)%nat → length kids0 = nkids → Forall newborn kids0 →
  c_string stdin →
  ∃ kids1 sent,
    distribute nkids kids0 stdin = Done (kids1, sent) ∧
    length sent = nkids ∧ concat sent ≡ₚ stdin ∧
    sort_pipeline_run capacity nkids kids0 stdin
    = if bool_decide (sent_fits capacity sent)
      then Ends (sort_pipeline nkids kids0 stdin) else Deadlock.
Proof.
  intros Hn Hlen Hnew Hc.
  destruct (distribute_bytes nkids kids0 stdin Hn Hlen Hnew Hc)
    as (kids1 & E1 & Hlen1 & _ & _ & Hsent & Hcs).
  destruct (children_run_each (close_to <$> kids1) (written_to <$> kids1))
    as (kids2 & E2 & Hall); [rewrite !length_fmap; reflexivity | assumption |].
  exists (close_to <$> kids1), (written_to <$> kids1).
  split; [exact E1|]. split; [rewrite length_fmap; exact Hlen1|].
  split; [exact Hsent|].
  rewrite (sort_pipeline_run_eq _ _ _ _ _ _ _ E1 E2).
  rewrite (children_exit_sent capacity kids2 _ Hall). reflexivity.
Qed.

Lemma lines_c_string_concat (input : list (list byte)) :
  Forall is_line input → c_string (concat input).
Proof. intros H. apply c_string_concat, lines_c_strings, H. Qed.

(** The pipeline on records and finite pipes. *)
Lemma sort_pipeline_run_lines (capacity nkids : nat) (kids0 : list Child)
    (input : list (list byte)) :
  (0 < nkids)%nat → length kids0 = nkids → Forall newborn kids0 →
  Forall is_line input →
  sort_pipeline_run capacity nkids kids0 (concat input)
  = if bool_decide (shares_fit capacity nkids input)
    then Ends (sort_pipeline nkids kids0 (concat input)) else Deadlock.
Proof.
  intros Hn Hlen Hnew Hin.
  destruct (sort_pipeline_run_text capacity nkids kids0 (concat input))
    as (kids1 & sent & E1 & _ & _ & ->);
    [assumption | assumption | assumption | apply lines_c_string_concat, Hin |].
  rewrite (distribute_lines nkids kids0 input Hn Hlen Hnew Hin) in E1.
  injection E1 as _ <-.
  assert (sent_fits capacity ((λ i, concat (dealt nkids 0 i input)) <$> seq 0 nkids)
          ↔ shares_fit capacity nkids input) as Hiff.
  { unfold sent_fits, shares_fit.
    destruct nkids as [|n]; [lia|]. simpl seq. rewrite fmap_cons. simpl tail.
    rewrite Nat.sub_0_r, Forall_fmap.
    apply Forall_proper; [|reflexivity]. intros i. simpl.
    rewrite dealt_share_of. reflexivity. }
  destruct (decide (shares_fit capacity nkids input)) as [Hfit|Hnot].
  - rewrite !bool_decide_eq_true_2; [reflexivity | assumption | apply Hiff; assumption].
  - rewrite !bool_decide_eq_false_2; [reflexivity | assumption |].
    intros H. apply Hnot, Hiff, H.
Qed.

(** [main] on finite pipes. *)
Lemma main_run_eq (capacity : nat) (env : Env) (pids : list Z) (stdin : list byte) :
  all_forked env pids →
  main_run capacity env stdin
  = match sort_pipeline_run capacity NUM_KIDS (new_kid <$> pids) stdin with
    | Ends o =>
        Ends ('(kids', stdout) ← o;
              _ ← wait_for_kids NUM_KIDS kids' (waited env);
              Done (0, stdout))
    | Deadlock => Deadlock
    end.
Proof.
  intros Hf. unfold main_run. rewrite (main_make_kids env pids Hf). reflexivity.
Qed.

Lemma main_eq (env : Env) (pids : list Z) (stdin : list byte) :
  all_forked env pids →
  main env stdin
  = ('(kids', stdout) ← sort_pipeline NUM_KIDS (new_kid <$> pids) stdin;
     _ ← wait_for_kids NUM_KIDS kids' (waited env);
     Done (0, stdout)).
Proof.
  intros Hf. unfold main. rewrite (main_make_kids env pids Hf). reflexivity.
Qed.

(** With a single child, and on empty input, nothing can block: there
    the pipeline on finite pipes is [sort_pipeline], and [main] on
    finite pipes is [main]. *)
Lemma sort_pipeline_run_one (capacity : nat) (kid : Child) (stdin : list byte) :
  listening kid →
  sort_pipeline_run capacity 1 [kid] stdin = Ends (sort_pipeline 1 [kid] stdin).
Proof.
  intros Hopen.
  assert (Forall listening [kid]) as Hall by (constructor; [assumption | constructor]).
  unfold sort_pipeline_run, sort_pipeline, distribute.
  destruct (distribute_loop_total 1 (S (length stdin)) stdin [kid] O)
    as (kids1 & E1 & Hlen1 & Hopen1 & _); [lia | lia | reflexivity | assumption |].
  rewrite E1. cbn [mbind outcome_bind].
  rewrite (distribute_close_all 1 kids1 Hlen1 Hopen1). cbn [mbind outcome_bind].
  destruct (children_run_total (close_to <$> kids1) (written_to <$> kids1))
    as (kids2 & E2 & Hlen2 & _); [rewrite !length_fmap; reflexivity|].
  rewrite E2. cbn [and_then mbind outcome_bind].
  rewrite length_fmap, Hlen1 in Hlen2.
  destruct kids2 as [|k [|k' kids2]]; try discriminate. reflexivity.
Qed.

Lemma length_le_concat {A : Type} (l : list A) (ls : list (list A)) :
  l ∈ ls → (length l ≤ length (concat ls))%nat.
Proof.
  induction ls as [|l' ls IH]; [intros H; inversion H|].
  intros [->|H]%elem_of_cons; simpl; rewrite length_app; [lia|].
  specialize (IH H). lia.
Qed.

Lemma elem_of_tail {A : Type} (x : A) (l : list A) : x ∈ tail l → x ∈ l.
Proof. destruct l; simpl; [auto|]. intros H. apply elem_of_cons. auto. Qed.

(** What fits a pipe as a whole cannot block. *)
Lemma sent_fits_short (capacity : nat) (sent : list (list byte)) :
  (length (concat sent) ≤ capacity)%nat → sent_fits capacity sent.
Proof.
  intros H. apply Forall_forall. intros s Hs.
  pose proof (length_le_concat s sent (elem_of_tail _ _ Hs)). lia.
Qed.

Lemma main_run_text (capacity : nat) (env : Env) (pids : list Z) (stdin : list byte) :
  all_forked env pids → c_string stdin →
  ∃ kids1 sent,
    distribute NUM_KIDS (new_kid <$> pids) stdin = Done (kids1, sent) ∧
    concat sent ≡ₚ stdin ∧
    main_run capacity env stdin
    = if bool_decide (sent_fits capacity sent)
      then Ends (main env stdin) else Deadlock.
Proof.
  intros Hf Hc.
  destruct (sort_pipeline_run_text capacity NUM_KIDS (new_kid <$> pids) stdin)
    as (kids1 & sent & E1 & _ & Hperm & Erun).
  - unfold NUM_KIDS. lia.
  - rewrite length_fmap. apply (all_forked_inv env pids Hf).
  - apply new_kids_newborn.
  - assumption.
  - exists kids1, sent. split; [exact E1|]. split; [exact Hperm|].
    rewrite (main_run_eq capacity env pids stdin Hf), Erun.
    case_bool_decide; [|reflexivity].
    rewrite (main_eq env pids stdin Hf). reflexivity.
Qed.

Lemma main_run_empty (capacity : nat) (env : Env) (pids : list Z) :
  all_forked env pids → main_run capacity env [] = Ends (main env []).
Proof.
  intros Hf.
  destruct (main_run_text capacity env pids [] Hf) as (kids1 & sent & _ & Hperm & ->);
    [constructor|].
  rewrite bool_decide_eq_true_2; [reflexivity|].
  apply sent_fits_short. rewrite (Permutation_length Hperm). simpl. lia.
Qed.

(** ** Rational numbers *)

Lemma assert_Done (b : bool) (u : unit) : assert b = Done u → b = true.
Proof. destruct b; [reflexivity | discriminate]. Qed.

Lemma int_of_Done (z r : Z) : int_of z = Done r → r = z ∧ is_int z.
Proof.
  unfold int_of, is_int. case_decide; [|discriminate]. intros [= <-]. auto.
Qed.

Lemma iabs_Done (x r : Z) :
  is_int x → iabs x = Done r → r = Z.abs x ∧ 0 ≤ r ≤ INT_MAX.
Proof.
  unfold iabs, is_int, INT_MIN, INT_MAX. intros Hx. case_decide.
  - intros [-> H']%int_of_Done. unfold is_int, INT_MIN, INT_MAX in H'. lia.
  - intros [= <-]. lia.
Qed.

Lemma c_div_Done (a b r : Z) : c_div a b = Done r → b ≠ 0 ∧ r = a ÷ b.
Proof. unfold c_div. case_decide; [discriminate|]. intros [= <-]. auto. Qed.

Ltac bind_inv H :=
  repeat match type of H with
  | _ ≫= _ = Done _ =>
      let a := fresh "a" in let E := fresh "E" in
      apply bind_Done in H as (a & E & H)
  end.

Lemma quot_gcd_bounds (a b : Z) :
  0 < a → 0 < b →
  0 < a ÷ Z.gcd a b ≤ a ∧ 0 < b ÷ Z.gcd a b ≤ b ∧
  Z.gcd (a ÷ Z.gcd a b) (b ÷ Z.gcd a b) = 1.
Proof.
  intros Ha Hb.
  assert (0 < Z.gcd a b) as Hg.
  { pose proof (Z.gcd_nonneg a b).
    destruct (Z.eq_dec (Z.gcd a b) 0) as [E|]; [|lia].
    apply Z.gcd_eq_0_l in E. lia. }
  rewrite !Z.quot_div_nonneg by lia.
  destruct (Z.gcd_divide_l a b) as [qa Hqa].
  destruct (Z.gcd_divide_r a b) as [qb Hqb].
  assert (a / Z.gcd a b = qa) as Ea.
  { rewrite Hqa at 1. apply Z.div_mul. lia. }
  assert (b / Z.gcd a b = qb) as Eb.
  { rewrite Hqb at 1. apply Z.div_mul. lia. }
  split; [|split].
  - rewrite Ea. nia.
  - rewrite Eb. nia.
  - apply Z.gcd_div_gcd; [lia | reflexivity].
Qed.

(** What [ri_new] returns obeys the storage rules. *)
Lemma ri_new_normalized (n d : Z) (r : RationalInt) :
  is_int n → is_int d → ri_new n d = Done r → normalized r.
Proof.
  intros Hn Hd. unfold ri_new. intros H.
  apply bind_Done in H as (u & Hd0%assert_Done%bool_decide_eq_true & H).
  case_decide as Hn0.
  - injection H as <-. unfold normalized, is_int, INT_MIN, INT_MAX. simpl.
    repeat split; lia.
  - bind_inv H. injection H as <-.
    apply iabs_Done in E0 as [-> Han]; [|assumption].
    apply iabs_Done in E1 as [-> Had]; [|assumption].
    apply c_div_Done in E3 as [Hg ->].
    apply int_of_Done in E4 as [-> Hsd].
    apply c_div_Done in E5 as [_ ->].
    unfold gcd in *.
    destruct (quot_gcd_bounds (Z.abs n) (Z.abs d)) as (Hqn & Hqd & Hco); [lia | lia |].
    unfold normalized, is_int, INT_MIN, INT_MAX in *. simpl.
    case_bool_decide as Hsign.
    + replace ((1 - 2 * 1) * Z.abs d) with (- Z.abs d) by lia.
      rewrite Z.quot_opp_l by lia. rewrite Z.gcd_opp_r.
      repeat split; first [lia | right; assumption].
    + replace ((1 - 2 * 0) * Z.abs d) with (Z.abs d) by lia.
      repeat split; first [lia | right; assumption].
Qed.

Lemma ri_reduce_normalized (rn rd : Z) (r : RationalInt) :
  ri_reduce rn rd = Done r → normalized r.
Proof.
  unfold ri_reduce. intros H. bind_inv H.
  apply assert_Done, bool_decide_eq_true in E2.
  apply assert_Done, bool_decide_eq_true in E3.
  apply (ri_new_normalized _ _ _) in H; [assumption | |]; unfold is_int; lia.
Qed.

Lemma ri_zero_normalized (r : RationalInt) : ri_new 0 1 = Done r → normalized r.
Proof. apply ri_new_normalized; unfold is_int, INT_MIN, INT_MAX; lia. Qed.

Lemma ri_add_normalized (lhs rhs r : RationalInt) :
  ri_add lhs rhs = Done r → normalized r.
Proof.
  unfold ri_add. intros H. bind_inv H. case_decide.
  - apply ri_zero_normalized in H. assumption.
  - bind_inv H. apply ri_reduce_normalized in H. assumption.
Qed.

Lemma ri_sub_normalized (lhs rhs r : RationalInt) :
  ri_sub lhs rhs = Done r → normalized r.
Proof.
  unfold ri_sub. intros H. bind_inv H. case_decide.
  - apply ri_zero_normalized in H. assumption.
  - bind_inv H. apply ri_reduce_normalized in H. assumption.
Qed.

Lemma ri_mul_normalized (lhs rhs r : RationalInt) :
  ri_mul lhs rhs = Done r → normalized r.
Proof.
  unfold ri_mul. intros H. bind_inv H. case_decide.
  - apply ri_zero_normalized in H. assumption.
  - bind_inv H. apply ri_reduce_normalized in H. assumption.
Qed.

Lemma ri_div_normalized (lhs rhs r : RationalInt) :
  ri_div lhs rhs = Done r → normalized r.
Proof.
  unfold ri_div. intros H. bind_inv H. case_decide.
  - apply ri_zero_normalized in H. assumption.
  - bind_inv H. apply ri_reduce_normalized in H. assumption.
Qed.

(** The storage rules are what [ri_chk] asserts. *)
Lemma normalized_ri_chk (r : RationalInt) : normalized r → ri_chk r = Done tt.
Proof.
  unfold normalized, is_int.
  intros (Hn & Hd & Hd0 & Hdmin & Hpos & Hco). unfold ri_chk.
  rewrite (bool_decide_eq_true_2 (denominator r ≠ 0 ∧ denominator r ≠ INT_MIN))
    by (split; assumption).
  cbn [mbind outcome_bind assert].
  rewrite (bool_decide_eq_true_2 (numerator r >= 0)) by lia.
  cbn [mbind outcome_bind assert].
  case_decide as Hn0; [reflexivity|].
  destruct Hco as [?|Hco]; [contradiction|].
  unfold iabs. rewrite (decide_False (P := numerator r < 0)) by lia.
  cbn [mbind outcome_bind].
  case_decide.
  - unfold int_of. rewrite decide_True by (unfold INT_MIN, INT_MAX in *; lia).
    cbn [mbind outcome_bind].
    unfold gcd. rewrite Z.gcd_opp_r, Hco. reflexivity.
  - cbn [mbind outcome_bind]. unfold gcd. rewrite Hco. reflexivity.
Qed.

Lemma rem_rem_halves (x y : Z) :
  y ≠ 0 → Z.rem x y ≠ 0 → 2 * Z.abs (Z.rem y (Z.rem x y)) < Z.abs y.
Proof.
  intros Hy Hr. set (r := Z.rem x y) in *.
  pose proof (Z.rem_bound_abs x y Hy) as Hb. fold r in Hb.
  pose proof (Z.rem_bound_abs y r Hr) as Hb'.
  pose proof (Z.quot_rem' y r) as Hq.
  pose proof (Z.rem_sign_mul y r Hr) as Hs.
  assert (Z.quot y r ≠ 0) as Hq0.
  { intros E. rewrite E in Hq. lia. }
  nia.
Qed.

Lemma ll_rem_returns (x y : Z) :
  y ≠ 0 → ¬ (x = LLONG_MIN ∧ y = -1) → ll_rem x y = Done (Z.rem x y).
Proof. intros Hy Hs. unfold ll_rem. rewrite decide_False by tauto. reflexivity. Qed.

Lemma ll_rem_Done (x y r : Z) : ll_rem x y = Done r → y ≠ 0 ∧ r = Z.rem x y.
Proof.
  unfold ll_rem. case_decide as H; [discriminate|]. intros [= <-]. tauto.
Qed.

(** The loop returns when no remainder is undefined: [y] is a
    [long long] apart from [LLONG_MIN], and the loop does not start at
    [LLONG_MIN % -1]. *)
Lemma gcd_ll_loop_spec (n : nat) :
  ∀ fuel x y, y ≠ 0 → Z.abs y < 2 ^ Z.of_nat n → (2 * n + 1 ≤ fuel)%nat →
  Z.abs y ≤ LLONG_MAX → ¬ (x = LLONG_MIN ∧ y = -1) →
  ∃ g, gcd_ll_loop fuel x y = Done g ∧ Z.abs g = Z.gcd x y ∧ g ≠ 0.
Proof.
  induction n as [|n IH]; intros fuel x y Hy Hsmall Hfuel Hll Hsafe.
  { simpl in Hsmall. lia. }
  destruct fuel as [|[|[|fuel]]]; try lia.
  cbn [gcd_ll_loop]. rewrite ll_rem_returns by assumption.
  cbn [mbind outcome_bind]. pose proof (Z.gcd_rem x y Hy) as Hg.
  case_decide as Hr; cycle 1.
  { exists y. split; [reflexivity|]. split; [|exact Hy].
    assert (Z.rem x y = 0) as E by lia. rewrite E, Z.gcd_0_l in Hg.
    rewrite Hg. apply Z.gcd_comm. }
  pose proof (Z.rem_bound_abs x y Hy) as Hrb.
  rewrite ll_rem_returns by (unfold LLONG_MIN, LLONG_MAX in *; lia).
  cbn [mbind outcome_bind].
  pose proof (Z.gcd_rem y (Z.rem x y) Hr) as Hg'.
  assert (Z.gcd y (Z.rem x y) = Z.gcd x y) as Hxy
    by (rewrite (Z.gcd_comm y), Hg; apply Z.gcd_comm).
  case_decide as Hr'; cycle 1.
  { exists (Z.rem x y). split; [reflexivity|]. split; [|exact Hr].
    assert (Z.rem y (Z.rem x y) = 0) as E by lia. rewrite E, Z.gcd_0_l in Hg'.
    rewrite Hg', Z.gcd_comm. exact Hxy. }
  pose proof (rem_rem_halves x y Hy Hr) as Hhalf.
  pose proof (Z.rem_bound_abs y (Z.rem x y) Hr) as Hrb'.
  destruct (IH (S fuel) (Z.rem x y) (Z.rem y (Z.rem x y)) Hr')
    as (g & E & Habs & Hg0).
  - rewrite Nat2Z.inj_succ, Z.pow_succ_r in Hsmall by lia. lia.
  - lia.
  - lia.
  - unfold LLONG_MIN, LLONG_MAX in *. lia.
  - exists g. split; [exact E|]. split; [|exact Hg0].
    rewrite Habs, (Z.gcd_comm (Z.rem x y)), Hg', Z.gcd_comm. exact Hxy.
Qed.

Lemma gcd_ll_spec (x y : Z) :
  x ≠ 0 → y ≠ 0 → Z.abs y ≤ LLONG_MAX → ¬ (x = LLONG_MIN ∧ y = -1) →
  ∃ g, gcd_ll x y = Done g ∧ Z.abs g = Z.gcd x y ∧ g ≠ 0.
Proof.
  intros Hx Hy Hll Hsafe. unfold gcd_ll. rewrite decide_False by tauto.
  pose proof (Z.log2_nonneg (Z.abs y)) as Hl.
  apply (gcd_ll_loop_spec (Z.to_nat (Z.log2 (Z.abs y) + 1)));
    [assumption | | lia | assumption | assumption].
  rewrite Z2Nat.id by lia.
  apply Z.log2_lt_pow2; lia.
Qed.

(** Whatever the loop returns is the greatest common divisor up to
    sign. *)
Lemma gcd_ll_loop_Done (fuel : nat) :
  ∀ x y g, gcd_ll_loop fuel x y = Done g → Z.abs g = Z.gcd x y ∧ g ≠ 0.
Proof.
  induction fuel as [|fuel IH]; intros x y g; [discriminate|].
  cbn [gcd_ll_loop]. intros H.
  apply bind_Done in H as (r & [Hy ->]%ll_rem_Done & H).
  pose proof (Z.gcd_rem x y Hy) as Hg.
  case_decide as Hr.
  - apply IH in H as [Habs Hg0]. split; [|exact Hg0].
    rewrite Habs, (Z.gcd_comm y), Hg. apply Z.gcd_comm.
  - injection H as <-. split; [|exact Hy].
    assert (Z.rem x y = 0) as E by lia. rewrite E, Z.gcd_0_l in Hg.
    rewrite Hg. apply Z.gcd_comm.
Qed.

(** What the loop returns is a [long long]. *)
Lemma gcd_ll_loop_range (fuel : nat) :
  ∀ x y g, gcd_ll_loop fuel x y = Done g →
  LLONG_MIN ≤ y ≤ LLONG_MAX → LLONG_MIN ≤ g ≤ LLONG_MAX.
Proof.
  induction fuel as [|fuel IH]; intros x y g; [discriminate|].
  cbn [gcd_ll_loop]. intros H Hy.
  apply bind_Done in H as (r & [Hy0 ->]%ll_rem_Done & H).
  case_decide as Hr.
  - apply IH in H; [exact H|].
    pose proof (Z.rem_bound_abs x y Hy0). unfold LLONG_MIN, LLONG_MAX in *. lia.
  - injection H as <-. exact Hy.
Qed.

Lemma rem_abs_small (x y : Z) : Z.abs x < Z.abs y → Z.rem x y = x.
Proof.
  intros H. assert (y ≠ 0) as Hy by lia.
  pose proof (Z.rem_abs x y Hy) as Habs.
  rewrite Z.rem_small in Habs by lia.
  pose proof (Z.rem_sign_mul x y Hy) as Hs. nia.
Qed.

Lemma quot_by_divisor_bound (a g : Z) :
  a ≠ 0 → g ≠ 0 → (g | a) → a ÷ g ≠ 0 ∧ Z.abs (a ÷ g) ≤ Z.abs a.
Proof.
  intros Ha Hg [q ->].
  rewrite Z.quot_mul by assumption.
  split; [intros ->; lia|]. rewrite Z.abs_mul. nia.
Qed.

Lemma int_of_returns (z : Z) : Z.abs z ≤ INT_MAX → int_of z = Done z.
Proof.
  intros H. unfold int_of. rewrite decide_True; [reflexivity|].
  unfold INT_MIN, INT_MAX in *. lia.
Qed.

Lemma iabs_returns (x : Z) : Z.abs x ≤ INT_MAX → iabs x = Done (Z.abs x).
Proof.
  intros H. unfold iabs, int_of. case_decide; [|f_equal; lia].
  rewrite decide_True by (unfold INT_MIN, INT_MAX in *; lia). f_equal. lia.
Qed.

Lemma ri_new_returns (n d : Z) :
  d ≠ 0 → Z.abs n ≤ INT_MAX → Z.abs d ≤ INT_MAX → ∃ r, ri_new n d = Done r.
Proof.
  intros Hd Hn Hdm. unfold ri_new.
  rewrite (bool_decide_eq_true_2 (d ≠ 0)) by assumption.
  cbn [assert mbind outcome_bind].
  case_decide as Hn0; [eauto|].
  assert (gcd (Z.abs n) (Z.abs d) ≠ 0) as Hg.
  { unfold gcd. intros E. apply Z.gcd_eq_0_l in E. lia. }
  rewrite !iabs_returns by assumption.
  destruct (bool_decide ((n < 0 ∧ d > 0) ∨ (n > 0 ∧ d < 0))) eqn:Hs.
  - rewrite (bool_decide_eq_true_2 (1 - 2 * 1 = 1 ∨ 1 - 2 * 1 = -1))
      by (right; reflexivity).
    cbn [assert mbind outcome_bind].
    rewrite (bool_decide_eq_true_2 (gcd (Z.abs n) (Z.abs d) ≠ 0)) by assumption.
    cbn [assert mbind outcome_bind].
    unfold c_div. rewrite !decide_False by assumption. cbn [mbind outcome_bind].
    rewrite int_of_returns by (unfold INT_MAX in *; lia).
    cbn [mbind outcome_bind]. rewrite decide_False by assumption.
    cbn [mbind outcome_bind]. eauto.
  - rewrite (bool_decide_eq_true_2 (1 - 2 * 0 = 1 ∨ 1 - 2 * 0 = -1))
      by (left; reflexivity).
    cbn [assert mbind outcome_bind].
    rewrite (bool_decide_eq_true_2 (gcd (Z.abs n) (Z.abs d) ≠ 0)) by assumption.
    cbn [assert mbind outcome_bind].
    unfold c_div. rewrite !decide_False by assumption. cbn [mbind outcome_bind].
    rewrite int_of_returns by (unfold INT_MAX in *; lia).
    cbn [mbind outcome_bind]. rewrite decide_False by assumption.
    cbn [mbind outcome_bind]. eauto.
Qed.

Lemma ri_reduce_returns (rn rd : Z) :
  rn ≠ 0 → rd ≠ 0 → Z.abs rn ≤ INT_MAX → Z.abs rd ≤ INT_MAX →
  ∃ r, ri_reduce rn rd = Done r.
Proof.
  intros Hn Hd Hnb Hdb. unfold ri_reduce.
  destruct (gcd_ll_spec rn rd Hn Hd) as (g & -> & Habs & Hg);
    [unfold INT_MAX, LLONG_MAX in *; lia | unfold INT_MAX, LLONG_MIN in *; lia |].
  cbn [mbind outcome_bind]. unfold c_div. rewrite !decide_False by assumption.
  cbn [mbind outcome_bind].
  assert ((g | rn) ∧ (g | rd)) as [Hgn Hgd].
  { split; apply Z.divide_abs_l; rewrite Habs;
      [apply Z.gcd_divide_l | apply Z.gcd_divide_r]. }
  destruct (quot_by_divisor_bound rn g Hn Hg Hgn) as [Hqn Hqnb].
  destruct (quot_by_divisor_bound rd g Hd Hg Hgd) as [Hqd Hqdb].
  unfold INT_MAX in *.
  rewrite !bool_decide_eq_true_2 by (unfold INT_MIN, INT_MAX; lia).
  cbn [assert mbind outcome_bind].
  apply ri_new_returns; unfold INT_MAX; lia.
Qed.

(** On small operands the four operations return a value. *)
Lemma ri_operations_return (lhs rhs : RationalInt) :
  small lhs → small rhs →
  (∃ r, ri_add lhs rhs = Done r) ∧ (∃ r, ri_sub lhs rhs = Done r) ∧
  (∃ r, ri_mul lhs rhs = Done r) ∧
  (numerator rhs ≠ 0 → ∃ r, ri_div lhs rhs = Done r).
Proof.
  unfold small. intros [Hn1 Hd1] [Hn2 Hd2].
  assert (ri_new 0 1 = Done (mkRationalInt 0 1)) as Hzero by reflexivity.
  split; [| split; [| split]].
  - unfold ri_add.
    repeat (rewrite int_of_returns by (unfold INT_MAX; nia); cbn [mbind outcome_bind]).
    case_decide; [eauto|].
    repeat (rewrite int_of_returns by (unfold INT_MAX; nia); cbn [mbind outcome_bind]).
    apply ri_reduce_returns; try assumption; unfold INT_MAX; nia.
  - unfold ri_sub.
    repeat (rewrite int_of_returns by (unfold INT_MAX; nia); cbn [mbind outcome_bind]).
    case_decide; [eauto|].
    repeat (rewrite int_of_returns by (unfold INT_MAX; nia); cbn [mbind outcome_bind]).
    apply ri_reduce_returns; try assumption; unfold INT_MAX; nia.
  - unfold ri_mul.
    repeat (rewrite int_of_returns by (unfold INT_MAX; nia); cbn [mbind outcome_bind]).
    case_decide; [eauto|].
    repeat (rewrite int_of_returns by (unfold INT_MAX; nia); cbn [mbind outcome_bind]).
    apply ri_reduce_returns; try assumption; unfold INT_MAX; nia.
  - intros Hn2'. unfold ri_div.
    rewrite (bool_decide_eq_true_2 (numerator rhs ≠ 0)) by assumption.
    cbn [assert mbind outcome_bind].
    case_decide; [eauto|].
    repeat (rewrite int_of_returns by (unfold INT_MAX; nia); cbn [mbind outcome_bind]).
    apply ri_reduce_returns; unfold INT_MAX; nia.
Qed.

(** ** The value of a rational *)

Lemma Qdiv_cross (a b c d : Z) :
  b ≠ 0 → d ≠ 0 →
  (inject_Z a / inject_Z b == inject_Z c / inject_Z d)%Q ↔ a * d = c * b.
Proof.
  intros Hb Hd.
  assert (Hb' : ¬ (inject_Z b == 0)%Q).
  { intros H. apply Hb. apply (inject_Z_injective b 0). exact H. }
  assert (Hd' : ¬ (inject_Z d == 0)%Q).
  { intros H. apply Hd. apply (inject_Z_injective d 0). exact H. }
  rewrite <- inject_Z_injective, !inject_Z_mult.
  split; intros H.
  - setoid_replace (inject_Z a * inject_Z d)%Q
      with ((inject_Z a / inject_Z b) * (inject_Z b * inject_Z d))%Q
      using relation Qeq by (field; assumption).
    rewrite H. field. assumption.
  - apply (Qmult_inj_r _ _ (inject_Z b * inject_Z d)%Q).
    + intros E. apply Qmult_integral in E. tauto.
    + setoid_replace (inject_Z a / inject_Z b * (inject_Z b * inject_Z d))%Q
        with (inject_Z a * inject_Z d)%Q
        using relation Qeq by (field; assumption).
      rewrite H. field. assumption.
Qed.

Lemma value_eq (r r' : RationalInt) :
  denominator r ≠ 0 → denominator r' ≠ 0 →
  (value r == value r')%Q
  ↔ numerator r * denominator r' = numerator r' * denominator r.
Proof. intros. unfold value. apply Qdiv_cross; assumption. Qed.

Lemma canonical_denominator (r : RationalInt) :
  canonical r → denominator r ≠ 0.
Proof. intros [H _]. apply H. Qed.

(** A rational number has one canonical form. *)
Lemma canonical_unique (r r' : RationalInt) :
  canonical r → canonical r' →
  numerator r * denominator r' = numerator r' * denominator r → r = r'.
Proof.
  destruct r as [n d], r' as [n' d']. unfold canonical, normalized. simpl.
  intros [(_ & _ & Hd & _ & Hn & Hco) Hz] [(_ & _ & Hd' & _ & Hn' & Hco') Hz'] E.
  destruct (decide (n = 0)) as [->|Hn0].
  { assert (n' = 0) as -> by nia. rewrite Hz, Hz' by reflexivity. reflexivity. }
  destruct (decide (n' = 0)) as [->|Hn0'].
  { exfalso. nia. }
  destruct Hco as [?|Hco]; [contradiction|].
  destruct Hco' as [?|Hco']; [contradiction|].
  assert (n | n') as Hdiv.
  { apply (Z.gauss n d n'); [|exact Hco].
    exists d'. lia. }
  assert (n' | n) as Hdiv'.
  { apply (Z.gauss n' d' n); [|exact Hco'].
    exists d. lia. }
  assert (n = n') as <- by (apply Z.divide_antisym_nonneg; assumption).
  f_equal. nia.
Qed.

(** What [ri_new] returns is in canonical form and has the value of the
    fraction it was given. *)
Lemma ri_new_value (n d : Z) (r : RationalInt) :
  is_int n → is_int d → ri_new n d = Done r →
  canonical r ∧ d ≠ 0 ∧ numerator r * d = n * denominator r.
Proof.
  intros Hn Hd H.
  pose proof (ri_new_normalized n d r Hn Hd H) as Hnorm.
  revert H. unfold ri_new. intros H.
  apply bind_Done in H as (u & Hd0%assert_Done%bool_decide_eq_true & H).
  case_decide as Hn0.
  - injection H as <-. simpl. split; [split; [assumption | reflexivity]|].
    split; [assumption | lia].
  - bind_inv H. injection H as <-.
    apply iabs_Done in E0 as [-> Han]; [|assumption].
    apply iabs_Done in E1 as [-> Had]; [|assumption].
    apply c_div_Done in E3 as [Hg ->].
    apply int_of_Done in E4 as [-> Hsd].
    apply c_div_Done in E5 as [_ ->].
    unfold gcd in *.
    destruct (quot_gcd_bounds (Z.abs n) (Z.abs d)) as (Hqn & Hqd & Hco); [lia | lia |].
    split; [split; [assumption | simpl; lia]|].
    split; [assumption|]. simpl.
    destruct (Z.gcd_divide_l (Z.abs n) (Z.abs d)) as [qa Hqa].
    destruct (Z.gcd_divide_r (Z.abs n) (Z.abs d)) as [qb Hqb].
    set (g := Z.gcd (Z.abs n) (Z.abs d)) in *.
    assert (Z.abs n ÷ g = qa) as -> by (rewrite Hqa at 1; apply Z.quot_mul; assumption).
    case_bool_decide as Hsign.
    + replace ((1 - 2 * 1) * Z.abs d) with (- qb * g) by lia.
      rewrite Z.quot_mul by assumption. nia.
    + replace ((1 - 2 * 0) * Z.abs d) with (qb * g) by lia.
      rewrite Z.quot_mul by assumption. nia.
Qed.

Lemma gcd_ll_Done (x y g : Z) :
  gcd_ll x y = Done g →
  ((x = 0 ∨ y = 0) ∧ g = 0) ∨ (x ≠ 0 ∧ y ≠ 0 ∧ g ≠ 0 ∧ Z.abs g = Z.gcd x y).
Proof.
  intros H. destruct (decide (x = 0 ∨ y = 0)) as [H0|H0].
  - left. unfold gcd_ll in H. rewrite decide_True in H by assumption.
    injection H as <-. auto.
  - right. unfold gcd_ll in H. rewrite decide_False in H by assumption.
    apply gcd_ll_loop_Done in H as [Habs Hg]. tauto.
Qed.

(** The common end of the four operations keeps the value of
    [rn / rd]. *)
Lemma ri_reduce_value (rn rd : Z) (r : RationalInt) :
  ri_reduce rn rd = Done r →
  canonical r ∧ rd ≠ 0 ∧ numerator r * rd = rn * denominator r.
Proof.
  unfold ri_reduce. intros H. bind_inv H.
  apply assert_Done, bool_decide_eq_true in E2.
  apply assert_Done, bool_decide_eq_true in E3.
  apply c_div_Done in E0 as [Hg ->].
  apply c_div_Done in E1 as [_ ->].
  apply gcd_ll_Done in E as [[_ ?]|(Hn & Hd & _ & Habs)]; [contradiction|].
  apply ri_new_value in H as (Hc & Hd0 & Hv); [| unfold is_int; lia ..].
  split; [assumption|]. split; [assumption|].
  assert ((a | rn) ∧ (a | rd)) as [[qn Hqn] [qd Hqd]].
  { split; apply Z.divide_abs_l; rewrite Habs;
      [apply Z.gcd_divide_l | apply Z.gcd_divide_r]. }
  rewrite Hqn, Hqd in Hv |- *. rewrite !Z.quot_mul in Hv by assumption. nia.
Qed.

Lemma value_fraction (r : RationalInt) (rn rd : Z) :
  denominator r ≠ 0 → rd ≠ 0 → numerator r * rd = rn * denominator r →
  (value r == inject_Z rn / inject_Z rd)%Q.
Proof. intros Hd Hrd E. unfold value. apply Qdiv_cross; assumption. Qed.

Lemma inject_Z_nonzero (z : Z) : z ≠ 0 → ¬ (inject_Z z == 0)%Q.
Proof. intros Hz H. apply Hz. apply (inject_Z_injective z 0). exact H. Qed.

Lemma mul_nonzero (a b : Z) : a ≠ 0 → b ≠ 0 → a * b ≠ 0.
Proof. nia. Qed.

Lemma ri_zero_value (r : RationalInt) (rd : Z) :
  ri_new 0 1 = Done r → canonical r ∧ numerator r * rd = 0 * denominator r.
Proof.
  intros [= <-]. split; [|reflexivity].
  unfold canonical, normalized, is_int, INT_MIN, INT_MAX. simpl.
  repeat split; lia.
Qed.

(** The four operations, in cross-multiplied form. *)
Lemma ri_add_cross (lhs rhs r : RationalInt) :
  ri_add lhs rhs = Done r →
  canonical r ∧
  numerator r * (denominator lhs * denominator rhs)
  = (numerator lhs * denominator rhs + numerator rhs * denominator lhs)
    * denominator r.
Proof.
  unfold ri_add. intros H. bind_inv H.
  apply int_of_Done in E as [-> _]. apply int_of_Done in E0 as [-> _].
  apply int_of_Done in E1 as [-> _].
  case_decide as Hz.
  - rewrite Hz. apply ri_zero_value. assumption.
  - bind_inv H. apply int_of_Done in E as [-> _].
    apply ri_reduce_value in H as (Hc & _ & Hv). auto.
Qed.

Lemma ri_sub_cross (lhs rhs r : RationalInt) :
  ri_sub lhs rhs = Done r →
  canonical r ∧
  numerator r * (denominator lhs * denominator rhs)
  = (numerator lhs * denominator rhs - numerator rhs * denominator lhs)
    * denominator r.
Proof.
  unfold ri_sub. intros H. bind_inv H.
  apply int_of_Done in E as [-> _]. apply int_of_Done in E0 as [-> _].
  apply int_of_Done in E1 as [-> _].
  case_decide as Hz.
  - rewrite Hz. apply ri_zero_value. assumption.
  - bind_inv H. apply int_of_Done in E as [-> _].
    apply ri_reduce_value in H as (Hc & _ & Hv). auto.
Qed.

Lemma ri_mul_cross (lhs rhs r : RationalInt) :
  ri_mul lhs rhs = Done r →
  canonical r ∧
  numerator r * (denominator lhs * denominator rhs)
  = (numerator lhs * numerator rhs) * denominator r.
Proof.
  unfold ri_mul. intros H. bind_inv H.
  apply int_of_Done in E as [-> _].
  case_decide as Hz.
  - rewrite Hz. apply ri_zero_value. assumption.
  - bind_inv H. apply int_of_Done in E as [-> _].
    apply ri_reduce_value in H as (Hc & _ & Hv). auto.
Qed.

Lemma ri_div_cross (lhs rhs r : RationalInt) :
  ri_div lhs rhs = Done r →
  numerator rhs ≠ 0 ∧ canonical r ∧
  numerator r * (denominator lhs * numerator rhs)
  = (numerator lhs * denominator rhs) * denominator r.
Proof.
  unfold ri_div. intros H.
  apply bind_Done in H as (u & Hn%assert_Done%bool_decide_eq_true & H).
  split; [assumption|].
  case_decide as Hz.
  - rewrite Hz, Z.mul_0_l. apply ri_zero_value. assumption.
  - bind_inv H. apply int_of_Done in E as [-> _]. apply int_of_Done in E0 as [-> _].
    apply ri_reduce_value in H as (Hc & _ & Hv). auto.
Qed.

(** The four operations are exact. *)
Lemma ri_add_value (lhs rhs r : RationalInt) :
  denominator lhs ≠ 0 → denominator rhs ≠ 0 → ri_add lhs rhs = Done r →
  (value r == value lhs + value rhs)%Q.
Proof.
  intros H1 H2 [Hc Hv]%ri_add_cross.
  rewrite (value_fraction r _ _ (canonical_denominator r Hc) (mul_nonzero _ _ H1 H2) Hv).
  unfold value. rewrite inject_Z_plus, !inject_Z_mult.
  field. split; apply inject_Z_nonzero; assumption.
Qed.

Lemma ri_sub_value (lhs rhs r : RationalInt) :
  denominator lhs ≠ 0 → denominator rhs ≠ 0 → ri_sub lhs rhs = Done r →
  (value r == value lhs - value rhs)%Q.
Proof.
  intros H1 H2 [Hc Hv]%ri_sub_cross.
  rewrite (value_fraction r _ _ (canonical_denominator r Hc) (mul_nonzero _ _ H1 H2) Hv).
  unfold value, Z.sub. rewrite inject_Z_plus, inject_Z_opp, !inject_Z_mult.
  field. split; apply inject_Z_nonzero; assumption.
Qed.

Lemma ri_mul_value (lhs rhs r : RationalInt) :
  denominator lhs ≠ 0 → denominator rhs ≠ 0 → ri_mul lhs rhs = Done r →
  (value r == value lhs * value rhs)%Q.
Proof.
  intros H1 H2 [Hc Hv]%ri_mul_cross.
  rewrite (value_fraction r _ _ (canonical_denominator r Hc) (mul_nonzero _ _ H1 H2) Hv).
  unfold value. rewrite !inject_Z_mult.
  field. split; apply inject_Z_nonzero; assumption.
Qed.

Lemma ri_div_value (lhs rhs r : RationalInt) :
  denominator lhs ≠ 0 → denominator rhs ≠ 0 → ri_div lhs rhs = Done r →
  (value r == value lhs / value rhs)%Q.
Proof.
  intros H1 H2 (Hn & Hc & Hv)%ri_div_cross.
  rewrite (value_fraction r _ _ (canonical_denominator r Hc) (mul_nonzero _ _ H1 Hn) Hv).
  unfold value. rewrite !inject_Z_mult.
  field. repeat split; apply inject_Z_nonzero; assumption.
Qed.

Lemma Qdiv_lt_cross (a b c d : Z) :
  0 < b → 0 < d →
  (inject_Z a / inject_Z b < inject_Z c / inject_Z d)%Q ↔ a * d < c * b.
Proof.
  intros Hb Hd.
  destruct b as [|b|b]; try lia. destruct d as [|d|d]; try lia.
  unfold Qlt, Qdiv, Qmult, Qinv, inject_Z. simpl.
  rewrite !Z.mul_1_r. reflexivity.
Qed.

Lemma value_opp (n d : Z) :
  d ≠ 0 →
  (inject_Z n / inject_Z d == inject_Z (- n) / inject_Z (- d))%Q.
Proof. intros Hd. apply Qdiv_cross; lia. Qed.

Lemma value_lt (r r' : RationalInt) :
  0 < denominator r → 0 < denominator r' →
  (value r < value r')%Q
  ↔ numerator r * denominator r' < numerator r' * denominator r.
Proof. intros. unfold value. apply Qdiv_lt_cross; assumption. Qed.

Lemma value_lt_neg (r r' : RationalInt) :
  denominator r < 0 → denominator r' < 0 →
  (value r < value r')%Q
  ↔ numerator r * denominator r' < numerator r' * denominator r.
Proof.
  intros H H'. unfold value.
  rewrite (value_opp (numerator r)), (value_opp (numerator r')) by lia.
  rewrite Qdiv_lt_cross by lia. rewrite !Z.mul_opp_opp. reflexivity.
Qed.

Lemma value_lt_mixed (r r' : RationalInt) :
  canonical r → canonical r' → denominator r < 0 → 0 < denominator r' →
  (value r < value r')%Q ∧ ¬ (value r' < value r)%Q.
Proof.
  intros [Hn Hz] [Hn' Hz'] H H'. unfold normalized in *.
  assert (value r < value r')%Q as Hlt.
  { unfold value. rewrite (value_opp (numerator r)) by lia.
    rewrite Qdiv_lt_cross by lia. nia. }
  split; [exact Hlt|]. intros Hgt. apply (Qlt_irrefl (value r)).
  eapply Qlt_trans; eassumption.
Qed.

Lemma signum_sgn (x : Z) : signum x = Z.sgn x.
Proof. unfold signum. repeat case_decide; lia. Qed.

(** The branches of [ri_cmp] on values in canonical form. *)
Lemma ri_cmp_cases (lhs rhs : RationalInt) (c : Z) :
  canonical lhs → canonical rhs → ri_cmp lhs rhs = Done c →
  (lhs = rhs ∧ c = 0) ∨
  (denominator lhs < 0 < denominator rhs ∧ c = -1) ∨
  (denominator rhs < 0 < denominator lhs ∧ c = 1) ∨
  (0 < denominator lhs * denominator rhs ∧
   numerator lhs * Z.abs (denominator rhs)
   < numerator rhs * Z.abs (denominator lhs) ∧ c = -1) ∨
  (0 < denominator lhs * denominator rhs ∧
   numerator rhs * Z.abs (denominator lhs)
   < numerator lhs * Z.abs (denominator rhs) ∧ c = 1).
Proof.
  intros Hl Hr. unfold ri_cmp. rewrite !signum_sgn.
  pose proof (canonical_denominator _ Hl) as Hd.
  pose proof (canonical_denominator _ Hr) as Hd'.
  case_decide as Heq.
  { intros [= <-]. left. split; [|reflexivity].
    destruct lhs, rhs; simpl in *. f_equal; tauto. }
  case_decide as Hsgn.
  { case_decide; intros [= <-]; [right; left | right; right; left]; lia. }
  intros H. bind_inv H.
  destruct Hl as [Hl Hlz], Hr as [Hr Hrz].
  apply iabs_Done in E as [-> _]; [|apply Hr].
  apply int_of_Done in E0 as [-> _].
  apply iabs_Done in E1 as [-> _]; [|apply Hl].
  apply int_of_Done in E2 as [-> _].
  apply assert_Done, bool_decide_eq_true in E3.
  right; right; right.
  assert (0 < denominator lhs * denominator rhs) by nia.
  case_decide; injection H as <-; [left | right]; repeat split; lia.
Qed.

(** The assertion of [ri_cmp] holds on values in canonical form: the
    comparison returns whenever its two products fit an [int]. *)
Lemma ri_cmp_returns (lhs rhs : RationalInt) :
  canonical lhs → canonical rhs →
  is_int (numerator lhs * Z.abs (denominator rhs)) →
  is_int (numerator rhs * Z.abs (denominator lhs)) →
  ∃ c, ri_cmp lhs rhs = Done c.
Proof.
  intros Hl Hr H1 H2. unfold ri_cmp. rewrite !signum_sgn.
  case_decide as Heq; [eauto|].
  case_decide as Hsgn; [case_decide; eauto|].
  assert (Z.abs (denominator lhs) ≤ INT_MAX ∧ Z.abs (denominator rhs) ≤ INT_MAX)
    as [Hb Hb'].
  { destruct Hl as [Hl _], Hr as [Hr _].
    unfold normalized, is_int, INT_MIN, INT_MAX in *. lia. }
  rewrite !iabs_returns by assumption. cbn [mbind outcome_bind].
  unfold int_of. rewrite !decide_True by assumption. cbn [mbind outcome_bind].
  rewrite bool_decide_eq_true_2; [cbn [assert mbind outcome_bind]; case_decide; eauto|].
  intros E. apply Heq.
  assert (lhs = rhs) as ->; [|auto].
  apply canonical_unique; [assumption | assumption |].
  pose proof (canonical_denominator _ Hl). pose proof (canonical_denominator _ Hr).
  assert (Z.sgn (denominator lhs) = Z.sgn (denominator rhs)) as Hs by lia.
  destruct (Z.abs_spec (denominator lhs)) as [[? Ea]|[? Ea]];
    destruct (Z.abs_spec (denominator rhs)) as [[? Eb]|[? Eb]];
    rewrite Ea, Eb in E; lia.
Qed.

(** The operations return when their intermediate results fit. *)
Lemma ri_add_returns (lhs rhs : RationalInt) :
  Z.abs (numerator lhs * denominator rhs) ≤ INT_MAX →
  Z.abs (numerator rhs * denominator lhs) ≤ INT_MAX →
  Z.abs (numerator lhs * denominator rhs + numerator rhs * denominator lhs)
    ≤ INT_MAX →
  0 < Z.abs (denominator lhs * denominator rhs) ≤ INT_MAX →
  ∃ r, ri_add lhs rhs = Done r.
Proof.
  intros Ha Hb Hn Hd. unfold ri_add.
  repeat (rewrite int_of_returns by lia; cbn [mbind outcome_bind]).
  case_decide; [eexists; reflexivity|].
  repeat (rewrite int_of_returns by lia; cbn [mbind outcome_bind]).
  apply ri_reduce_returns; lia.
Qed.

Lemma ri_sub_returns (lhs rhs : RationalInt) :
  Z.abs (numerator lhs * denominator rhs) ≤ INT_MAX →
  Z.abs (numerator rhs * denominator lhs) ≤ INT_MAX →
  Z.abs (numerator lhs * denominator rhs - numerator rhs * denominator lhs)
    ≤ INT_MAX →
  0 < Z.abs (denominator lhs * denominator rhs) ≤ INT_MAX →
  ∃ r, ri_sub lhs rhs = Done r.
Proof.
  intros Ha Hb Hn Hd. unfold ri_sub.
  repeat (rewrite int_of_returns by lia; cbn [mbind outcome_bind]).
  case_decide; [eexists; reflexivity|].
  repeat (rewrite int_of_returns by lia; cbn [mbind outcome_bind]).
  apply ri_reduce_returns; lia.
Qed.

Lemma ri_mul_returns (lhs rhs : RationalInt) :
  Z.abs (numerator lhs * numerator rhs) ≤ INT_MAX →
  0 < Z.abs (denominator lhs * denominator rhs) ≤ INT_MAX →
  ∃ r, ri_mul lhs rhs = Done r.
Proof.
  intros Hn Hd. unfold ri_mul.
  repeat (rewrite int_of_returns by lia; cbn [mbind outcome_bind]).
  case_decide; [eexists; reflexivity|].
  repeat (rewrite int_of_returns by lia; cbn [mbind outcome_bind]).
  apply ri_reduce_returns; lia.
Qed.

Lemma ri_div_returns (lhs rhs : RationalInt) :
  numerator rhs ≠ 0 → denominator rhs ≠ 0 →
  Z.abs (numerator lhs * denominator rhs) ≤ INT_MAX →
  0 < Z.abs (denominator lhs * numerator rhs) ≤ INT_MAX →
  ∃ r, ri_div lhs rhs = Done r.
Proof.
  intros Hr Hr' Hn Hd. unfold ri_div.
  rewrite (bool_decide_eq_true_2 (numerator rhs ≠ 0)) by assumption.
  cbn [assert mbind outcome_bind].
  case_decide; [eexists; reflexivity|].
  repeat (rewrite int_of_returns by lia; cbn [mbind outcome_bind]).
  apply ri_reduce_returns; nia.
Qed.

Lemma canonical_bounds (r : RationalInt) :
  canonical r →
  0 ≤ numerator r ≤ INT_MAX ∧ 0 < Z.abs (denominator r) ≤ INT_MAX.
Proof.
  intros [H _]. unfold normalized, is_int, INT_MIN, INT_MAX in *. lia.
Qed.

Lemma canonical_coprime (r : RationalInt) :
  canonical r → Z.gcd (numerator r) (denominator r) = 1.
Proof.
  intros [(_ & _ & _ & _ & _ & [H|H]) Hz]; [|exact H].
  rewrite H, (Hz H). reflexivity.
Qed.

Lemma quot_abs_le (a b : Z) : b ≠ 0 → Z.abs (a ÷ b) ≤ Z.abs a.
Proof.
  intros Hb. pose proof (Z.quot_rem' a b) as E.
  pose proof (Z.rem_bound_abs a b Hb) as Hr.
  pose proof (Z.rem_sign_mul a b Hb) as Hs.
  destruct (decide (a ÷ b = 0)) as [->|Hq]; [lia|]. nia.
Qed.

Lemma int_div_returns (a b : Z) :
  b ≠ 0 → Z.abs a ≤ INT_MAX → int_div a b = Done (a ÷ b).
Proof.
  intros Hb Ha. unfold int_div, c_div. rewrite decide_False by assumption.
  cbn [mbind outcome_bind]. apply int_of_returns.
  pose proof (quot_abs_le a b Hb). lia.
Qed.

(** The integer part and the fraction of a value in canonical form. *)
Lemma ri_integer_returns (val : RationalInt) :
  canonical val →
  ∃ i, ri_integer val = Done i ∧ canonical i ∧
       numerator i = (numerator val ÷ denominator val) * denominator i ∧
       (denominator i = 1 ∨ denominator i = -1).
Proof.
  intros Hc. pose proof (canonical_bounds _ Hc) as [Hn Hd].
  assert (denominator val ≠ 0) as Hd0 by lia.
  unfold ri_integer. rewrite int_div_returns by lia. cbn [mbind outcome_bind].
  pose proof (quot_abs_le (numerator val) (denominator val) Hd0) as Hq.
  destruct (ri_new_returns (numerator val ÷ denominator val) 1) as [i Hi];
    [lia | lia | unfold INT_MAX; lia |].
  exists i. split; [exact Hi|].
  apply ri_new_value in Hi as (Hci & _ & Hv);
    [| unfold is_int, INT_MIN, INT_MAX in *; lia ..].
  split; [exact Hci|]. split; [lia|].
  pose proof (canonical_coprime _ Hci) as Hco.
  pose proof (canonical_denominator _ Hci) as Hdi.
  assert (denominator i | numerator i) as Hdiv
    by (exists (numerator val ÷ denominator val); lia).
  assert (denominator i | 1) as Hone.
  { rewrite <- Hco. apply Z.gcd_greatest; [exact Hdiv | reflexivity]. }
  apply Z.divide_1_r in Hone. exact Hone.
Qed.

Lemma ri_fraction_returns (val : RationalInt) :
  canonical val →
  ∃ f, ri_fraction val = Done f ∧ canonical f ∧
       numerator f * denominator val
       = Z.rem (numerator val) (denominator val) * denominator f ∧
       numerator f < Z.abs (denominator f) ∧
       Z.abs (denominator f) ≤ Z.abs (denominator val).
Proof.
  intros Hc. pose proof (canonical_bounds _ Hc) as [Hn Hd].
  assert (denominator val ≠ 0) as Hd0 by lia.
  unfold ri_fraction, int_rem. rewrite int_div_returns by lia.
  cbn [mbind outcome_bind].
  pose proof (Z.rem_bound_abs (numerator val) (denominator val) Hd0) as Hr.
  destruct (ri_new_returns (Z.rem (numerator val) (denominator val))
              (denominator val)) as [f Hf]; [lia | lia | lia |].
  exists f. split; [exact Hf|].
  apply ri_new_value in Hf as (Hcf & _ & Hv);
    [| unfold is_int, INT_MIN, INT_MAX in *; lia ..].
  split; [exact Hcf|]. split; [exact Hv|].
  pose proof (canonical_bounds _ Hcf) as [Hnf Hdf].
  pose proof (canonical_coprime _ Hcf) as Hco.
  assert (Z.abs (denominator f) ≤ Z.abs (denominator val)) as Hle.
  { assert (denominator f | denominator val) as Hdiv.
    { apply (Z.gauss _ (numerator f)).
      - exists (Z.rem (numerator val) (denominator val)). lia.
      - rewrite Z.gcd_comm. exact Hco. }
    apply Z.divide_abs_l, Z.divide_abs_r in Hdiv.
    apply Z.divide_pos_le in Hdiv; lia. }
  split; [nia | exact Hle].
Qed.

Lemma value_nonzero (r : RationalInt) :
  numerator r ≠ 0 → denominator r ≠ 0 → ¬ (value r == 0)%Q.
Proof.
  intros Hn Hd H. apply Hn.
  assert (value r == inject_Z 0 / inject_Z 1)%Q as H' by (rewrite H; reflexivity).
  unfold value in H'.
  assert (1 ≠ 0) as H1 by lia.
  apply (proj1 (Qdiv_cross _ _ 0 1 Hd H1)) in H'. lia.
Qed.

Lemma canonical_value_eq (r r' : RationalInt) :
  canonical r → canonical r' → (value r == value r')%Q → r = r'.
Proof.
  intros Hc Hc' H. apply canonical_unique; [assumption | assumption |].
  apply value_eq; [apply canonical_denominator .. | exact H]; assumption.
Qed.

(** ** Examples *)

Example be_childish_example :
  be_childish (text_line "pear" ++ text_line "apple" ++ text_line "fig")
  = Done (text_line "apple" ++ text_line "fig" ++ text_line "pear").
Proof. vm_compute. reflexivity. Qed.

Example main_example :
  main env5 (text_line "pear" ++ text_line "apple" ++ text_line "fig" ++ text_line "" ++ text_line "apple" ++ text_line "a" ++ text_line "zoo")
  = Done (0, text_line "" ++ text_line "a" ++ text_line "apple" ++ text_line "apple" ++ text_line "fig" ++ text_line "pear" ++ text_line "zoo").
Proof. vm_compute. reflexivity. Qed.

(** The tables of the test phases 1 and 3 of rational.c. *)
Example p1_tests_pass :
  (λ t, ri_new t.1.1 t.1.2) <$> p1_tests = (λ t, Done t.2) <$> p1_tests.
Proof. vm_compute. reflexivity. Qed.

Example p3_tests_pass :
  (λ t, t.1.1.1 t.1.1.2 t.1.2) <$> p3_tests = (λ t, Done t.2) <$> p3_tests.
Proof. vm_compute. reflexivity. Qed.

(** The tables of the test phases 2 and 4. *)
Example p2_tests_pass :
  (λ t, ri_cmp t.1.1 t.1.2) <$> p2_tests = (λ t, Done t.2) <$> p2_tests.
Proof. vm_compute. reflexivity. Qed.

Example p4_tests_pass :
  (λ t, (ri_integer t.1.1, ri_fraction t.1.1)) <$> p4_tests
  = (λ t, (Done t.1.2, Done t.2)) <$> p4_tests.
Proof. vm_compute. reflexivity. Qed.

Example ri_new_ex : ri_new (-6) 8 = Done (mkRationalInt 3 (-4)).
Proof. vm_compute. reflexivity. Qed.

Example ri_add_ex : ri_add (mkRationalInt 14 (-9)) (mkRationalInt 12 (-7)) = Done (mkRationalInt 206 (-63)).
Proof. vm_compute. reflexivity. Qed.

Example ri_sub_ex : ri_sub (mkRationalInt 23 31) (mkRationalInt 37 19) = Done (mkRationalInt 710 (-589)).
Proof. vm_compute. reflexivity. Qed.

Example ri_mul_ex : ri_mul (mkRationalInt 14 (-9)) (mkRationalInt 12 7) = Done (mkRationalInt 8 (-3)).
Proof. vm_compute. reflexivity. Qed.

Example ri_div_ex : ri_div (mkRationalInt 14 (-9)) (mkRationalInt 12 7) = Done (mkRationalInt 49 (-54)).
Proof. vm_compute. reflexivity. Qed.

(** The tests of the design: one line for three kids, duplicates for
    two, and a single kid. *)
Example single_line :
  sort_pipeline 3 three_kids (text_line "apple")
  = Done ([mkChild None None 11; mkChild None None 12; mkChild None None 13],
          text_line "apple").
Proof. vm_compute. reflexivity. Qed.

Example duplicate_lines :
  snd <$> sort_pipeline 2 two_kids (concat baba)
  = Done (concat [text_line "a"; text_line "a"; text_line "b"; text_line "b"]).
Proof. vm_compute. reflexivity. Qed.

(** Where the records end.  A last line without its newline is glued to
    the line that the sort puts after it; a line too long for the buffer
    is cut by [fgets] and its pieces are sorted apart; a NUL hides the
    rest of its line, newline included, from [fputs]. *)
Example unterminated_last_line :
  snd <$> sort_pipeline 1 one_kid (text_line "b" ++ bytes "a")
  = Done (bytes "ab" ++ [newline]).
Proof. vm_compute. reflexivity. Qed.

Example nul_cuts_line :
  snd <$> sort_pipeline 1 one_kid (bytes "b" ++ [NUL] ++ text_line "c" ++ text_line "a")
  = Done (text_line "ba").
Proof. vm_compute. reflexivity. Qed.

Example long_line_is_cut :
  snd <$> sort_pipeline 1 one_kid (replicate 4095 x62 ++ text_line "a")
  = Done (text_line "a" ++ replicate 4095 x62).
Proof. vm_compute. reflexivity. Qed.

(** Eighty-five records of 4095 bytes for five children: seventeen
    records, 69615 bytes, for each, more than a pipe of 65536 bytes
    takes. *)
Example long_lines_deadlock :
  sort_pipeline_run linux_pipe 5 five_kids (concat (replicate 85 long_record))
  = Deadlock.
Proof. vm_compute. reflexivity. Qed.

(** * The specification, claim by claim *)

(** C1, as the code has it.  For every sequence of records (text
    without NUL, ended by a newline, short enough for the buffer of
    [MAX_LINE] bytes), every number [nkids >= 1] of children just made
    and pipes of [capacity] bytes: when the records dealt to every child
    but the first fit a pipe, so that no child waits for room, the
    pipeline of [distribute], the children's [be_childish] and [merge]
    comes to its end and writes a permutation of the records in the
    order of [strcmp], the lexicographic order of their bytes with the
    closing newline as the last of them.  On text above the newline this
    is the order of the lines ([lex_le_records]); in general it is
    not. *)
Theorem sort_correctness (capacity nkids : nat) (kids0 : list Child)
    (input : list (list byte)) :
  (0 < nkids)%nat → length kids0 = nkids → Forall newborn kids0 →
  Forall is_line input → shares_fit capacity nkids input →
  ∃ kids' output,
    sort_pipeline_run capacity nkids kids0 (concat input)
    = Ends (Done (kids', concat output)) ∧
    output ≡ₚ input ∧ Sorted line_le output ∧ Sorted lex_le output.
Proof.
  intros Hn Hlen Hnew Hin Hfit.
  rewrite (sort_pipeline_run_lines capacity nkids kids0 input Hn Hlen Hnew Hin).
  rewrite bool_decide_eq_true_2 by assumption.
  destruct (sort_pipeline_lines nkids kids0 input Hn Hlen Hnew Hin) as (kids' & E & _).
  exists kids', (qsort qs_compare input). rewrite E. split; [reflexivity|].
  split; [apply qsort_Permutation|]. split; [apply qsort_Sorted|].
  apply Sorted_line_le_lex; [|apply qsort_Sorted].
  apply lines_c_strings, qsort_lines, Hin.
Qed.

Lemma sort_correctness_witness :
  ((0 < 2)%nat ∧ length two_kids = 2%nat ∧ Forall newborn two_kids ∧
   Forall is_line baba ∧ shares_fit linux_pipe 2 baba) ∧
  ∃ kids' output,
    sort_pipeline_run linux_pipe 2 two_kids (concat baba)
    = Ends (Done (kids', concat output)) ∧
    output ≡ₚ baba ∧ Sorted line_le output ∧ Sorted lex_le output.
Proof.
  assert ((0 < 2)%nat ∧ length two_kids = 2%nat ∧ Forall newborn two_kids ∧
          Forall is_line baba ∧ shares_fit linux_pipe 2 baba) as H.
  { split; [lia|]. split; [reflexivity|]. split; [repeat constructor|].
    split; apply (bool_decide_unpack _); vm_compute; exact I. }
  split; [exact H|].
  destruct H as (H1 & H2 & H3 & H4 & H5).
  exact (sort_correctness linux_pipe 2 two_kids baba H1 H2 H3 H4 H5).
Defined.

(** C1 as the claim states it fails: the lines "a" and "a<TAB>b" are
    written with the longer one first, and these two lines are not in
    lexicographic order. *)
Lemma lines_out_of_order :
  sort_pipeline_run linux_pipe 2 two_kids
    ((short_text ++ [newline]) ++ (long_text ++ [newline]))
  = Ends (Done (two_closed,
                (long_text ++ [newline]) ++ (short_text ++ [newline]))) ∧
  ¬ Sorted lex_le [long_text; short_text].
Proof.
  split; [vm_compute; reflexivity|].
  intros H. apply Sorted_inv in H as [_ H]. apply HdRel_inv in H.
  simpl in H. destruct H as [H|[_ H]]; [vm_compute in H; discriminate | exact H].
Qed.

(** C2, as the code has it.  [main] returns 0 as soon as every child
    was started and reported by [waitpid]: the status that [waitpid]
    stores is never read, so the exit status of [main] is the same
    whatever the children's statuses; and [main] leaves with status 1
    and a diagnostic that names the child whose [make_kid] failed. *)
Theorem coordinator_exit_status (env : Env) (stdin : list byte) :
  (∀ pids, all_forked env pids → all_waited env pids →
     ∃ out, main env stdin = Done (0, out)) ∧
  (∀ statuses, length statuses = length (waited env) →
     main (mkEnv (forked env) (zip (waited env).*1 statuses)) stdin
     = main env stdin) ∧
  (∀ i, (i < NUM_KIDS)%nat → forked env i = None →
     (∀ j, (j < i)%nat → is_Some (forked env j)) →
     main env stdin = Exit 1 ("Fault starting child %d\n"%string, [Z.of_nat i])).
Proof.
  split; [| split].
  - intros pids Hf Hw. destruct (main_returns env pids stdin Hf Hw) as (_ & out & _ & E).
    eauto.
  - intros statuses Hlen. unfold main. simpl.
    destruct (for_loop _ _ _); simpl; try reflexivity.
    destruct (sort_pipeline _ _ _) as [[kids' out]| | |]; simpl; try reflexivity.
    unfold wait_for_kids.
    rewrite (wait_for_kids_reap_status NUM_KIDS _ (waited env)); [reflexivity|].
    apply fst_zip. rewrite length_fmap. lia.
  - intros i. apply main_start_fault.
Qed.

Lemma coordinator_exit_status_witness :
  (all_forked env5 pids5 ∧ all_waited env5 pids5) ∧
  ∃ out, main env5 (text_line "b" ++ text_line "a") = Done (0, out).
Proof.
  assert (all_forked env5 pids5) as H1 by reflexivity.
  assert (all_waited env5 pids5) as H2.
  { split; apply (bool_decide_unpack _); vm_compute; exact I. }
  split; [split; assumption|].
  exact (proj1 (coordinator_exit_status env5 (text_line "b" ++ text_line "a"))
           pids5 H1 H2).
Defined.

(** C2 as the claim states it fails: the fifth child ends with status 9
    (killed), and [main] returns 0 all the same. *)
Lemma abnormal_exit_unreported :
  (104, 9) ∈ waited env5 ∧ ¬ exited_normally 9 ∧
  main env5 (text_line "b" ++ text_line "a")
  = Done (0, text_line "a" ++ text_line "b").
Proof.
  split; [| split].
  - apply (bool_decide_unpack _). vm_compute. exact I.
  - unfold exited_normally. discriminate.
  - vm_compute. reflexivity.
Qed.

(** C3, as the code has it.  The order of the worker's sort is that of
    [strcmp] on the whole records, newline included: bytes compare as
    [unsigned char], so upper case and lower case differ, and a string
    that starts a longer string comes before it; but a record whose text
    starts another record's text comes first exactly when the byte that
    follows in the longer one is above the newline. *)
Theorem worker_order :
  (∀ s1 s2, c_string s1 → c_string s2 → qs_compare s1 s2 ≤ 0 ↔ lex_le s1 s2) ∧
  (∀ input, Forall is_line input →
     ∃ output, be_childish (concat input) = Done (concat output) ∧
               output ≡ₚ input ∧ Sorted lex_le output) ∧
  (∀ s more, more ≠ [] → c_string more → qs_compare s (s ++ more) < 0) ∧
  (∀ text b rest, b ≠ newline →
     qs_compare (text ++ [newline]) (text ++ b :: rest) < 0
     ↔ uchar newline < uchar b).
Proof.
  split; [| split; [| split]].
  - intros s1 s2. apply strcmp_lex.
  - intros input Hin. exists (qsort qs_compare input).
    split; [apply be_childish_lines; assumption|].
    split; [apply qsort_Permutation|].
    apply Sorted_line_le_lex; [|apply qsort_Sorted].
    apply lines_c_strings, qsort_lines, Hin.
  - apply qs_compare_strict_prefix.
  - apply qs_compare_prefix.
Qed.

Lemma worker_order_witness :
  (Forall is_line baba ∧ x62 ≠ newline) ∧
  (∃ output, be_childish (concat baba) = Done (concat output) ∧
             output ≡ₚ baba ∧ Sorted lex_le output) ∧
  (qs_compare (short_text ++ [newline]) (short_text ++ x62 :: [newline]) < 0
   ↔ uchar newline < uchar x62).
Proof.
  assert (Forall is_line baba) as H1
    by (apply (bool_decide_unpack _); vm_compute; exact I).
  assert (x62 ≠ newline) as H2 by discriminate.
  split; [split; assumption|]. split.
  - exact (proj1 (proj2 worker_order) baba H1).
  - exact (proj2 (proj2 (proj2 worker_order)) short_text x62 [newline] H2).
Defined.

(** C3 as the claim states it fails: the text "a" starts the text
    "a<TAB>b", and yet the worker writes the longer record first. *)
Lemma prefix_sorts_after :
  (∃ more, more ≠ [] ∧ long_text = short_text ++ more) ∧
  0 < qs_compare (short_text ++ [newline]) (long_text ++ [newline]) ∧
  be_childish ((short_text ++ [newline]) ++ (long_text ++ [newline]))
  = Done ((long_text ++ [newline]) ++ (short_text ++ [newline])).
Proof.
  split; [| split].
  - exists ([x09] ++ bytes "b"). split; [discriminate | reflexivity].
  - vm_compute. reflexivity.
  - vm_compute. reflexivity.
Qed.

(** C4. Merge invariant: whatever the shares of records given to the
    children, the children's sorts followed by the merge write the very
    bytes that one [be_childish] writes when it sorts all the shares
    together. *)
Theorem merge_refines_direct_sort (nkids : nat) (kids0 : list Child)
    (shares : list (list (list byte))) :
  length kids0 = nkids → length shares = nkids →
  Forall (Forall is_line) shares →
  ∃ kids1 fr out,
    children_run kids0 (@concat byte <$> shares) = Done kids1 ∧
    merge nkids kids1 = Done (fr, out) ∧
    be_childish (concat (concat shares)) = Done out.
Proof.
  intros Hlen Hls Hshares.
  destruct (children_run_lines kids0 shares) as (kids1 & E1 & Hhold & _);
    [lia | assumption |].
  destruct (merge_sorted_shares nkids kids1 shares Hls Hhold Hshares)
    as (fr & E2 & _).
  exists kids1, fr, (concat (qsort qs_compare (concat shares))).
  split; [exact E1|]. split; [exact E2|].
  apply be_childish_lines, Forall_concat, Hshares.
Qed.

Lemma merge_refines_direct_sort_witness :
  (length three_kids = 3%nat ∧ length three_shares = 3%nat ∧
   Forall (Forall is_line) three_shares) ∧
  ∃ kids1 fr out,
    children_run three_kids (@concat byte <$> three_shares) = Done kids1 ∧
    merge 3 kids1 = Done (fr, out) ∧
    be_childish (concat (concat three_shares)) = Done out.
Proof.
  assert (Forall (Forall is_line) three_shares) as H
    by (apply (bool_decide_unpack _); vm_compute; exact I).
  split; [split; [reflexivity | split; [reflexivity | exact H]]|].
  exact (merge_refines_direct_sort 3 three_kids three_shares eq_refl eq_refl H).
Defined.

(** C5. Tie-break: the line that [min_line] copies is the least of the
    lines held in the slots, and when several slots hold it, the one
    with the lowest index is the one whose line is taken and whose slot
    is refilled by [read_line]; no other slot changes. *)
Theorem min_line_lowest_index (nkids : nat) (fr fr' : Frontier) (output : list byte) :
  frontier_wf nkids fr →
  min_line nkids MAX_LINE fr = Done (fr', output) →
  ∃ m kid kid' buffer l,
    (m < nkids)%nat ∧ has_head (len fr) m ∧ lines fr !! m = Some output ∧
    (∀ j line, (j < nkids)%nat → has_head (len fr) j → lines fr !! j = Some line →
       strcmp output line ≤ 0 ∧ (strcmp output line = 0 → (m ≤ j)%nat)) ∧
    kids fr !! m = Some kid ∧
    read_line kid MAX_LINE = Done (kid', buffer, l) ∧
    fr' = refilled fr m kid' buffer l.
Proof.
  intros Hwf Emin. pose proof Hwf as (Hk & Hli & Hle & Hc & _).
  destruct (min_line_scan_all nkids (len fr) (lines fr) Hle Hli Hc)
    as ([m ms] & Escan & Hsc).
  unfold min_line in Emin. rewrite Escan in Emin. cbn [mbind outcome_bind] in Emin.
  destruct ms as [min_str|]; [|discriminate].
  destruct Hsc as (Hm & Hhead & Hline & Hmin). simpl in Hm, Hhead, Hline, Hmin.
  destruct (kids fr !! m) as [kid|] eqn:Hkid; [|discriminate].
  apply bind_Done in Emin as ([[kid' buffer] l] & Eread & Emin).
  injection Emin as <- <-.
  exists m, kid, kid', buffer, l.
  repeat (split; [assumption|]). split; [|auto].
  intros j line Hj Hjh Hjl. destruct (Hmin j line Hj Hjh Hjl) as [Hle' Hlt].
  split; [assumption|]. intros Heq.
  destruct (le_lt_dec m j) as [?|Hjm]; [assumption|]. specialize (Hlt Hjm). lia.
Qed.

Lemma min_line_lowest_index_witness :
  (frontier_wf 3 tie_frontier ∧
   min_line 3 MAX_LINE tie_frontier
   = Done (refilled tie_frontier 1 (mkChild None None 12) [] (-1), text_line "a")) ∧
  ∃ m kid kid' buffer l,
    (m < 3)%nat ∧ has_head (len tie_frontier) m ∧
    lines tie_frontier !! m = Some (text_line "a") ∧
    (∀ j line, (j < 3)%nat → has_head (len tie_frontier) j →
       lines tie_frontier !! j = Some line →
       strcmp (text_line "a") line ≤ 0 ∧
       (strcmp (text_line "a") line = 0 → (m ≤ j)%nat)) ∧
    kids tie_frontier !! m = Some kid ∧
    read_line kid MAX_LINE = Done (kid', buffer, l) ∧
    refilled tie_frontier 1 (mkChild None None 12) [] (-1)
    = refilled tie_frontier m kid' buffer l.
Proof.
  assert (frontier_wf 3 tie_frontier) as H1.
  { apply frontier_wf_intro; try reflexivity.
    - repeat constructor; discriminate.
    - repeat constructor; eexists; reflexivity. }
  assert (min_line 3 MAX_LINE tie_frontier
          = Done (refilled tie_frontier 1 (mkChild None None 12) [] (-1),
                  text_line "a")) as H2 by (vm_compute; reflexivity).
  split; [split; assumption|].
  exact (min_line_lowest_index 3 tie_frontier _ _ H1 H2).
Defined.

(** C6. Round robin: [distribute] hands child [i] the records whose
    position in the input, counted from 0, is [i] modulo [nkids], in
    the order of the input; the first record goes to child 0. *)
Theorem distribute_round_robin (nkids : nat) (kids0 : list Child)
    (input : list (list byte)) :
  (0 < nkids)%nat → length kids0 = nkids → Forall newborn kids0 →
  Forall is_line input →
  ∃ kids' sent,
    distribute nkids kids0 (concat input) = Done (kids', sent) ∧
    length sent = nkids ∧
    ∀ i, (i < nkids)%nat → sent !! i = Some (concat (share_of nkids i input)).
Proof.
  intros Hn Hlen Hnew Hin.
  rewrite distribute_lines by assumption.
  eexists _, _. split; [reflexivity|].
  split; [rewrite length_fmap, length_seq; reflexivity|].
  intros i Hi. rewrite list_lookup_fmap, lookup_seq_lt by assumption.
  simpl. rewrite dealt_share_of. reflexivity.
Qed.

Lemma distribute_round_robin_witness :
  ((0 < 2)%nat ∧ length two_kids = 2%nat ∧ Forall newborn two_kids ∧
   Forall is_line baba) ∧
  ∃ kids' sent,
    distribute 2 two_kids (concat baba) = Done (kids', sent) ∧
    length sent = 2%nat ∧
    ∀ i, (i < 2)%nat → sent !! i = Some (concat (share_of 2 i baba)).
Proof.
  assert ((0 < 2)%nat ∧ length two_kids = 2%nat ∧ Forall newborn two_kids ∧
          Forall is_line baba) as H.
  { split; [lia|]. split; [reflexivity|]. split.
    - repeat constructor.
    - apply (bool_decide_unpack _). vm_compute. exact I. }
  split; [exact H|].
  destruct H as (H1 & H2 & H3 & H4).
  exact (distribute_round_robin 2 two_kids baba H1 H2 H3 H4).
Defined.

(** C7. Empty input: with nothing on the standard input, [distribute]
    writes nothing and closes the stream to every child, a child that
    reads nothing writes nothing, [merge] finds every child exhausted and
    writes nothing, and [main] returns 0 (every child having been started
    and reported by [waitpid]). *)
Theorem empty_input (env : Env) (pids : list Z) :
  all_forked env pids → all_waited env pids →
  distribute NUM_KIDS (new_kid <$> pids) []
  = Done (close_to <$> (new_kid <$> pids), replicate NUM_KIDS []) ∧
  be_childish [] = Done [] ∧
  (∃ kids1 fr,
     children_run (close_to <$> (new_kid <$> pids)) (replicate NUM_KIDS [])
     = Done kids1 ∧
     merge NUM_KIDS kids1 = Done (fr, []) ∧
     frontier_holds fr (replicate NUM_KIDS [])) ∧
  main env [] = Done (0, []).
Proof.
  intros Hforked Hwaited.
  pose proof (all_forked_inv _ _ Hforked) as [Hlen _].
  assert (length (new_kid <$> pids) = NUM_KIDS) as Hlen'
    by (rewrite length_fmap; assumption).
  split; [| split; [reflexivity | split]].
  - apply (distribute_lines NUM_KIDS (new_kid <$> pids) []);
      [unfold NUM_KIDS; lia | assumption | apply new_kids_newborn | constructor].
  - destruct (children_run_lines (close_to <$> (new_kid <$> pids))
                (replicate NUM_KIDS [])) as (kids1 & E1 & Hhold & _).
    + rewrite length_fmap, length_replicate. assumption.
    + apply Forall_replicate. constructor.
    + destruct (merge_sorted_shares NUM_KIDS kids1 (replicate NUM_KIDS []))
        as (fr & E2 & Hend & _).
      * apply length_replicate.
      * assumption.
      * apply Forall_replicate. constructor.
      * exists kids1, fr. split; [exact E1|]. split; [exact E2 | exact Hend].
  - destruct (main_returns env pids [] Hforked Hwaited) as (kids' & out & E & ->).
    destruct (sort_pipeline_lines NUM_KIDS (new_kid <$> pids) [])
      as (kids'' & E' & _);
      [unfold NUM_KIDS; lia | assumption | apply new_kids_newborn | constructor |].
    change (concat []) with (@nil byte) in E'. rewrite E in E'.
    injection E' as _ ->. reflexivity.
Qed.

Lemma empty_input_witness :
  (all_forked env5 pids5 ∧ all_waited env5 pids5) ∧
  main env5 [] = Done (0, []).
Proof.
  assert (all_forked env5 pids5) as H1 by reflexivity.
  assert (all_waited env5 pids5) as H2.
  { split; apply (bool_decide_unpack _); vm_compute; exact I. }
  split; [split; assumption|].
  exact (proj2 (proj2 (proj2 (empty_input env5 pids5 H1 H2)))).
Defined.



(** C9. Normal form of the rationals: whatever [ri_new], [ri_add],
    [ri_sub], [ri_mul] and [ri_div] return obeys the storage rules of
    rational.c, the ones [ri_chk] asserts: the denominator is not zero
    (nor [INT_MIN]) and carries the sign, the numerator is not negative,
    and the two are in lowest terms unless the numerator is zero. *)
Theorem ri_results_normalized :
  (∀ n d r, is_int n → is_int d → ri_new n d = Done r →
     normalized r ∧ ri_chk r = Done tt) ∧
  (∀ lhs rhs r, ri_add lhs rhs = Done r → normalized r ∧ ri_chk r = Done tt) ∧
  (∀ lhs rhs r, ri_sub lhs rhs = Done r → normalized r ∧ ri_chk r = Done tt) ∧
  (∀ lhs rhs r, ri_mul lhs rhs = Done r → normalized r ∧ ri_chk r = Done tt) ∧
  (∀ lhs rhs r, ri_div lhs rhs = Done r → normalized r ∧ ri_chk r = Done tt).
Proof.
  assert (∀ r, normalized r → normalized r ∧ ri_chk r = Done tt) as H
    by (intros r Hr; split; [assumption | apply normalized_ri_chk; assumption]).
  split; [| split; [| split; [| split]]]; intros; apply H.
  - match goal with Hr : ri_new ?n ?d = Done _ |- _ =>
      apply (ri_new_normalized n d); assumption end.
  - eapply ri_add_normalized; eassumption.
  - eapply ri_sub_normalized; eassumption.
  - eapply ri_mul_normalized; eassumption.
  - eapply ri_div_normalized; eassumption.
Qed.

Lemma ri_results_normalized_witness :
  ri_add (mkRationalInt 14 (-9)) (mkRationalInt 12 (-7))
  = Done (mkRationalInt 206 (-63)) ∧
  normalized (mkRationalInt 206 (-63)) ∧
  ri_chk (mkRationalInt 206 (-63)) = Done tt.
Proof.
  assert (ri_add (mkRationalInt 14 (-9)) (mkRationalInt 12 (-7))
          = Done (mkRationalInt 206 (-63))) as H by (vm_compute; reflexivity).
  split; [exact H|].
  exact (proj1 (proj2 ri_results_normalized) _ _ _ H).
Defined.

(** C10. Safety of the copy in [min_line]: when some slot holds a line,
    the loop of [min_line] ends with a non-null [min_str], the line of a
    slot that holds one; in [merge] this is the case at every call,
    since [not_all_done] answers 1 exactly when some slot holds a line;
    and so [merge] runs to its end without undefined behaviour whatever
    the children wrote. *)
Theorem min_line_finds_head (nkids : nat) :
  (∀ fr, length (len fr) = nkids → length (lines fr) = nkids →
     (∃ i, (i < nkids)%nat ∧ has_head (len fr) i) →
     ∃ min_kid min_str,
       for_loop nkids (min_line_scan (len fr) (lines fr)) (O, None)
       = Done (min_kid, Some min_str) ∧
       has_head (len fr) min_kid ∧ lines fr !! min_kid = Some min_str) ∧
  (∀ len, length len = nkids →
     not_all_done nkids len = Done true ↔
     ∃ i, (i < nkids)%nat ∧ has_head len i) ∧
  (∀ kids0, length kids0 = nkids → Forall (λ kid, is_Some (fp_from kid)) kids0 →
     ∃ fr out, merge nkids kids0 = Done (fr, out)).
Proof.
  split; [| split].
  - intros fr Hle Hli (i & Hi & Hhead).
    destruct (min_line_scan_finds nkids (len fr) (lines fr) Hle Hli)
      as ([m ms] & E & Hfound). simpl in Hfound.
    destruct ms as [min_str|].
    + exists m, min_str. destruct Hfound as (_ & ? & ?). auto.
    + exfalso. apply (Hfound i Hi Hhead).
  - intros len Hlen.
    destruct (not_all_done_spec nkids len Hlen) as (more & E & Hmore).
    rewrite E. rewrite <- Hmore. split; [intros [= ->]; reflexivity | intros ->; reflexivity].
  - intros kids0 Hlen Hopen.
    destruct (merge_total nkids kids0 Hlen Hopen) as (fr & out & E & _). eauto.
Qed.

Lemma min_line_finds_head_witness :
  (length (len tie_frontier) = 3%nat ∧ length (lines tie_frontier) = 3%nat ∧
   ∃ i, (i < 3)%nat ∧ has_head (len tie_frontier) i) ∧
  ∃ min_kid min_str,
    for_loop 3 (min_line_scan (len tie_frontier) (lines tie_frontier)) (O, None)
    = Done (min_kid, Some min_str) ∧
    has_head (len tie_frontier) min_kid ∧
    lines tie_frontier !! min_kid = Some min_str.
Proof.
  assert (∃ i, (i < 3)%nat ∧ has_head (len tie_frontier) i) as H.
  { exists 0%nat. split; [lia|]. exists 2. split; [reflexivity | lia]. }
  split; [split; [reflexivity | split; [reflexivity | exact H]]|].
  exact (proj1 (min_line_finds_head 3) tie_frontier eq_refl eq_refl H).
Defined.

(** * Further properties of the code *)

(** ** multi-pipe-sort.c *)

(** X1.  Records that are already in order pass through [be_childish]
    unchanged; so a second run over the output of a first changes
    nothing. *)
Theorem be_childish_idempotent (input : list (list byte)) :
  Forall is_line input →
  (Sorted line_le input → be_childish (concat input) = Done (concat input)) ∧
  ∃ out, be_childish (concat input) = Done out ∧ be_childish out = Done out.
Proof.
  intros Hin. split.
  - intros Hs. rewrite be_childish_lines by assumption.
    rewrite qsort_sorted_id; [reflexivity | apply lines_c_strings | ]; assumption.
  - exists (concat (qsort qs_compare input)).
    split; [apply be_childish_lines; assumption|].
    pose proof (qsort_lines input Hin) as Hq.
    rewrite be_childish_lines by assumption.
    rewrite qsort_sorted_id; [reflexivity | apply lines_c_strings; assumption |].
    apply qsort_Sorted.
Qed.

Lemma be_childish_idempotent_witness :
  ∃ out, be_childish (concat baba) = Done out ∧ be_childish out = Done out.
Proof.
  apply (be_childish_idempotent baba).
  apply (bool_decide_unpack _). vm_compute. exact I.
Defined.



(** X3.  The contract of [read_line] on an open stream: it returns, the
    buffer holds a C string that fits [maxlen]; at the end of the stream
    the length is -1, the buffer is empty and the stream is closed;
    otherwise the length is that of the string, the stream stays open
    and is shorter.  On a stream without NUL the string is not empty and
    is the front of the stream; a line that begins with NUL gives
    length 0. *)
Theorem read_line_contract (kid : Child) (maxlen : nat) (stream : list byte) :
  (2 ≤ maxlen)%nat → fp_from kid = Some stream →
  ∃ kid' buffer l,
    read_line kid maxlen = Done (kid', buffer, l) ∧
    fp_to kid' = fp_to kid ∧ pid kid' = pid kid ∧
    c_string buffer ∧ (length buffer < maxlen)%nat ∧
    (stream = [] → l = -1 ∧ buffer = [] ∧ fp_from kid' = None) ∧
    (stream ≠ [] →
       l = Z.of_nat (length buffer) ∧
       ∃ rest, fp_from kid' = Some rest ∧ (length rest < length stream)%nat ∧
               (c_string stream → 0 < l ∧ buffer ++ rest = stream) ∧
               (head stream = Some NUL → l = 0)).
Proof.
  intros Hmax Hopen. unfold read_line. rewrite Hopen.
  destruct (fgets maxlen stream) as [[buffer rest]|] eqn:E.
  - pose proof (fgets_shortens _ _ _ _ Hmax E) as [Hcb Hshort].
    assert (1 ≤ maxlen)%nat as Hmax1 by lia.
    pose proof (fgets_fits _ _ _ _ Hmax1 E) as Hfit.
    eexists _, _, _. split; [reflexivity|]. simpl.
    do 4 (split; [assumption || reflexivity|]).
    split.
    + intros ->. rewrite fgets_eof in E. discriminate.
    + intros Hne. split; [reflexivity|]. exists rest.
      split; [reflexivity|]. split; [assumption|]. split.
      * intros Hc. destruct (fgets_text _ _ _ _ Hmax Hc E) as (Happ & Hb & _).
        split; [|exact Happ]. unfold strlen. destruct buffer; [contradiction|].
        simpl. lia.
      * destruct stream as [|c s]; [discriminate|]. intros [= ->].
        rewrite (fgets_leading_NUL _ _ _ _ Hmax E). reflexivity.
  - apply fgets_None in E as ->.
    eexists _, _, _. split; [reflexivity|]. simpl.
    split; [reflexivity|]. split; [reflexivity|]. split; [constructor|].
    split; [lia|]. split; [auto | intros H; contradiction].
Qed.

Lemma read_line_contract_witness :
  ∃ kid' buffer l,
    read_line (mkChild None (Some (text_line "b" ++ text_line "a")) 11) MAX_LINE
    = Done (kid', buffer, l) ∧ c_string buffer ∧ (length buffer < MAX_LINE)%nat.
Proof.
  destruct (read_line_contract
              (mkChild None (Some (text_line "b" ++ text_line "a")) 11)
              MAX_LINE (text_line "b" ++ text_line "a"))
    as (kid' & buffer & l & E & _ & _ & Hc & Hfit & _).
  - unfold MAX_LINE. lia.
  - reflexivity.
  - exists kid', buffer, l. auto.
Defined.





(** X6.  With a single child the coordinator adds nothing of its own:
    on input without NUL its output is, byte for byte, what
    [be_childish] writes when it is run on the input directly. *)
Theorem single_child_is_worker (kid : Child) (stdin : list byte) :
  newborn kid → c_string stdin →
  ∃ out, be_childish stdin = Done out ∧
         sort_pipeline 1 [kid] stdin
         = Done ([mkChild None None (pid kid)], out).
Proof.
  intros Hnew Hc. destruct (be_childish_bytes stdin Hc) as (out & Eout & Hperm).
  exists out. split; [exact Eout|].
  unfold sort_pipeline, distribute. destruct kid as [to from p].
  unfold newborn in Hnew. simpl in Hnew. subst to.
  rewrite distribute_loop_one by (assumption || lia).
  cbn [mbind outcome_bind].
  rewrite (distribute_close_all 1) by
    (reflexivity || (apply Forall_singleton; eexists; reflexivity)).
  cbn [mbind outcome_bind].
  change (close_to <$> [mkChild (Some ([] ++ stdin)) from p])
    with [mkChild None from p].
  change (written_to <$> [mkChild (Some ([] ++ stdin)) from p]) with [stdin].
  cbn [children_run]. rewrite Eout. cbn [mbind outcome_bind fp_to pid].
  destruct (merge_one (mkChild None (Some out) p) out eq_refl) as (fr & -> & Hk).
  { apply (c_string_Permutation stdin); [symmetry|]; assumption. }
  cbn [mbind outcome_bind]. rewrite Hk. reflexivity.
Qed.

Lemma single_child_is_worker_witness :
  ∃ out, be_childish ragged_text = Done out ∧
         sort_pipeline 1 [new_kid 11] ragged_text
         = Done ([mkChild None None 11], out).
Proof.
  apply (single_child_is_worker (new_kid 11)).
  - reflexivity.
  - apply (bool_decide_unpack _). vm_compute. exact I.
Defined.

(** X7.  [wait_for_kids] never looks at a status and knows two ends.
    When [waitpid] reported every child it returns, with every [pid] set
    to -1 and the streams as they were; otherwise it leaves through
    [exit(1)] with the message that names the first child of the array
    that was not reported. *)
Theorem wait_for_kids_outcome (nkids : nat) (kids0 : list Child)
    (waited : list (Z * Z)) :
  length kids0 = nkids → -1 ∉ waited.*1 →
  Forall (λ kid, pid kid ≠ -1) kids0 →
  (∃ kids', wait_for_kids nkids kids0 waited = Done kids' ∧
            Forall (λ kid, pid kid = -1) kids' ∧
            fp_to <$> kids' = fp_to <$> kids0 ∧
            fp_from <$> kids' = fp_from <$> kids0 ∧
            ∀ kid, kid ∈ kids0 → pid kid ∈ waited.*1) ∨
  (∃ i kid, kids0 !! i = Some kid ∧ (pid kid ∉ waited.*1) ∧
            (∀ j kj, (j < i)%nat → kids0 !! j = Some kj → pid kj ∈ waited.*1) ∧
            wait_for_kids nkids kids0 waited
            = Exit 1 ("Child %d died without being tracked\n"%string, [pid kid])).
Proof.
  intros Hlen Hno Hpids.
  destruct (first_unreported waited kids0) as [Hall|(i & kid & Hkid & Hout & Hbefore)].
  - left. exists (reap_all waited <$> kids0).
    split; [apply wait_for_kids_returns; assumption|].
    split; [| split; [| split; [| exact Hall]]].
    + apply Forall_fmap, Forall_forall. intros kid Hk. simpl.
      apply reap_all_gone. right. apply Hall, Hk.
    + rewrite <- list_fmap_compose. apply list_fmap_ext. intros _ kid _. simpl.
      clear. revert kid. induction waited as [|[p s] waited IH]; intros kid;
        [reflexivity|].
      simpl. rewrite IH. unfold reap. case_decide; reflexivity.
    + rewrite <- list_fmap_compose. apply list_fmap_ext. intros _ kid _. simpl.
      clear. revert kid. induction waited as [|[p s] waited IH]; intros kid;
        [reflexivity|].
      simpl. rewrite IH. unfold reap. case_decide; reflexivity.
  - right. exists i, kid. split; [exact Hkid|]. split; [exact Hout|].
    split; [exact Hbefore|].
    apply (wait_for_kids_untracked nkids kids0 waited i kid); try assumption.
    exact (Forall_lookup_1 _ _ _ _ Hpids Hkid).
Qed.

Lemma wait_for_kids_outcome_witness :
  (∃ kids', wait_for_kids 2 two_closed one_report = Done kids' ∧
            Forall (λ kid, pid kid = -1) kids' ∧
            fp_to <$> kids' = fp_to <$> two_closed ∧
            fp_from <$> kids' = fp_from <$> two_closed ∧
            ∀ kid, kid ∈ two_closed → pid kid ∈ one_report.*1) ∨
  (∃ i kid, two_closed !! i = Some kid ∧ (pid kid ∉ one_report.*1) ∧
            (∀ j kj, (j < i)%nat → two_closed !! j = Some kj →
                     pid kj ∈ one_report.*1) ∧
            wait_for_kids 2 two_closed one_report
            = Exit 1 ("Child %d died without being tracked\n"%string, [pid kid])).
Proof.
  apply wait_for_kids_outcome.
  - reflexivity.
  - apply (bool_decide_unpack _). vm_compute. exact I.
  - repeat constructor; simpl; lia.
Defined.

(** ** rational.c *)

(** X9.  [gcd_ll] on [long long] arguments.  It returns 0 when an
    argument is 0.  It runs into the undefined [LLONG_MIN % -1] at the
    arguments (LLONG_MIN, -1) and (-1, LLONG_MIN), and nowhere else:
    everywhere else it returns a [long long] that is the greatest common
    divisor of its arguments up to sign. *)
Theorem gcd_ll_gcd (x y : Z) :
  LLONG_MIN ≤ x ≤ LLONG_MAX → LLONG_MIN ≤ y ≤ LLONG_MAX →
  (x = 0 ∨ y = 0 → gcd_ll x y = Done 0) ∧
  ((x = LLONG_MIN ∧ y = -1) ∨ (x = -1 ∧ y = LLONG_MIN) → gcd_ll x y = Fault) ∧
  (x ≠ 0 → y ≠ 0 → ¬ (x = LLONG_MIN ∧ y = -1) → ¬ (x = -1 ∧ y = LLONG_MIN) →
   ∃ g, gcd_ll x y = Done g ∧ Z.abs g = Z.gcd x y ∧
        LLONG_MIN ≤ g ≤ LLONG_MAX).
Proof.
  intros Hx Hy. split; [| split].
  - intros H0. unfold gcd_ll. rewrite decide_True by assumption. reflexivity.
  - intros [[-> ->]|[-> ->]]; vm_compute; reflexivity.
  - intros Hx0 Hy0 Hs1 Hs2.
    assert (∃ g, gcd_ll x y = Done g ∧ Z.abs g = Z.gcd x y) as (g & E & Habs).
    { destruct (decide (y = LLONG_MIN)) as [->|Hymin].
      - destruct (decide (x = LLONG_MIN)) as [->|Hxmin].
        { exists LLONG_MIN. split; vm_compute; reflexivity. }
        assert (Z.rem x LLONG_MIN = x) as Hrem.
        { apply rem_abs_small. unfold LLONG_MIN, LLONG_MAX in *. lia. }
        unfold gcd_ll. rewrite decide_False by tauto.
        change (Z.to_nat (2 * Z.log2 (Z.abs LLONG_MIN) + 3)) with (S 128).
        cbn [gcd_ll_loop].
        rewrite ll_rem_returns, Hrem by (unfold LLONG_MIN; lia).
        cbn [mbind outcome_bind]. rewrite decide_True by assumption.
        destruct (gcd_ll_loop_spec 63 128 LLONG_MIN x) as (g & E & Habs & _);
          [assumption | unfold LLONG_MIN, LLONG_MAX in *; simpl; lia | lia
          | unfold LLONG_MIN, LLONG_MAX in *; lia | tauto |].
        exists g. split; [exact E|]. rewrite Habs. apply Z.gcd_comm.
      - destruct (gcd_ll_spec x y) as (g & E & Habs & _);
          [assumption | assumption | unfold LLONG_MIN, LLONG_MAX in *; lia
          | assumption |].
        exists g. auto. }
    exists g. split; [exact E|]. split; [exact Habs|].
    unfold gcd_ll in E. rewrite decide_False in E by tauto.
    apply (gcd_ll_loop_range _ _ _ _ E Hy).
Qed.

Lemma gcd_ll_gcd_witness :
  ∃ g, gcd_ll 4 (-6) = Done g ∧ Z.abs g = Z.gcd 4 (-6) ∧
       LLONG_MIN ≤ g ≤ LLONG_MAX.
Proof.
  apply (gcd_ll_gcd 4 (-6)); unfold LLONG_MIN, LLONG_MAX; lia.
Defined.

(** X10.  What [ri_new] returns is in canonical form (the storage rules,
    and zero stored as 0/1) and has the value of the fraction
    [n / d]. *)
Theorem ri_new_exact (n d : Z) (r : RationalInt) :
  is_int n → is_int d → ri_new n d = Done r →
  canonical r ∧ (value r == inject_Z n / inject_Z d)%Q.
Proof.
  intros Hn Hd H. apply ri_new_value in H as (Hc & Hd0 & Hv); try assumption.
  split; [exact Hc|].
  apply value_fraction; [apply canonical_denominator | |]; assumption.
Qed.

Lemma ri_new_exact_witness :
  canonical (mkRationalInt 3 (-4)) ∧
  (value (mkRationalInt 3 (-4)) == inject_Z (-6) / inject_Z 8)%Q.
Proof.
  apply (ri_new_exact (-6) 8).
  - unfold is_int, INT_MIN, INT_MAX. lia.
  - unfold is_int, INT_MIN, INT_MAX. lia.
  - vm_compute. reflexivity.
Defined.

(** X11.  Two calls of [ri_new] return the same structure exactly when
    their fractions are equal: comparing the fields compares the
    values. *)
Theorem ri_new_equal_fractions (n d n' d' : Z) (r r' : RationalInt) :
  is_int n → is_int d → is_int n' → is_int d' →
  ri_new n d = Done r → ri_new n' d' = Done r' →
  r = r' ↔ n * d' = n' * d.
Proof.
  intros Hn Hd Hn' Hd' H H'.
  apply ri_new_value in H as (Hc & Hd0 & Hv); try assumption.
  apply ri_new_value in H' as (Hc' & Hd0' & Hv'); try assumption.
  pose proof (canonical_denominator _ Hc) as Hr.
  pose proof (canonical_denominator _ Hc') as Hr'.
  split.
  - intros <-.
    apply (Z.mul_cancel_r _ _ (denominator r)); [assumption|]. nia.
  - intros E. apply canonical_unique; try assumption.
    apply (Z.mul_cancel_r _ _ (d * d')); [nia|].
    transitivity (n * d' * (denominator r * denominator r')).
    + replace (numerator r * denominator r' * (d * d'))
        with (numerator r * d * (denominator r' * d')) by ring.
      rewrite Hv. ring.
    + rewrite E.
      replace (numerator r' * denominator r * (d * d'))
        with (numerator r' * d' * (denominator r * d)) by ring.
      rewrite Hv'. ring.
Qed.

Lemma ri_new_equal_fractions_witness :
  mkRationalInt 3 (-4) = mkRationalInt 3 (-4) ↔ -6 * (-12) = 9 * 8.
Proof.
  apply (ri_new_equal_fractions (-6) 8 9 (-12));
    try (unfold is_int, INT_MIN, INT_MAX; lia); vm_compute; reflexivity.
Defined.

(** X12.  [ri_new] gives back a value in canonical form when handed its
    numerator and denominator. *)
Theorem ri_new_round_trip (r : RationalInt) :
  canonical r → ri_new (numerator r) (denominator r) = Done r.
Proof.
  intros Hc. pose proof (canonical_bounds _ Hc) as [Hn Hd].
  destruct (ri_new_returns (numerator r) (denominator r)) as [r' E]; [lia ..|].
  rewrite E. f_equal.
  apply ri_new_value in E as (Hc' & _ & Hv);
    [| unfold is_int, INT_MIN, INT_MAX in *; lia ..].
  apply canonical_unique; assumption.
Qed.

Lemma ri_new_round_trip_witness :
  ri_new 11 (-12) = Done (mkRationalInt 11 (-12)).
Proof.
  apply (ri_new_round_trip (mkRationalInt 11 (-12))).
  apply (bool_decide_unpack _). vm_compute. exact I.
Defined.

(** X13.  The four operations are exact: what they return has the value
    of the sum, difference, product and quotient of the values of their
    operands. *)
Theorem ri_arithmetic_exact (lhs rhs : RationalInt) :
  denominator lhs ≠ 0 → denominator rhs ≠ 0 →
  (∀ r, ri_add lhs rhs = Done r → (value r == value lhs + value rhs)%Q) ∧
  (∀ r, ri_sub lhs rhs = Done r → (value r == value lhs - value rhs)%Q) ∧
  (∀ r, ri_mul lhs rhs = Done r → (value r == value lhs * value rhs)%Q) ∧
  (∀ r, ri_div lhs rhs = Done r → (value r == value lhs / value rhs)%Q).
Proof.
  intros Hl Hr. split; [| split; [| split]]; intros r H.
  - apply ri_add_value; assumption.
  - apply ri_sub_value; assumption.
  - apply ri_mul_value; assumption.
  - apply ri_div_value; assumption.
Qed.

Lemma ri_arithmetic_exact_witness :
  (value (mkRationalInt 206 (-63))
   == value (mkRationalInt 14 (-9)) + value (mkRationalInt 12 (-7)))%Q.
Proof.
  apply (proj1 (ri_arithmetic_exact (mkRationalInt 14 (-9))
                  (mkRationalInt 12 (-7)) ltac:(simpl; lia) ltac:(simpl; lia))).
  vm_compute. reflexivity.
Defined.

(** X14.  Subtraction undoes addition and division undoes
    multiplication, and the other way round: whenever both steps return,
    the first operand comes back, field by field. *)
Theorem ri_inverse_operations (a b : RationalInt) :
  canonical a → denominator b ≠ 0 →
  (∀ s r, ri_add a b = Done s → ri_sub s b = Done r → r = a) ∧
  (∀ s r, ri_sub a b = Done s → ri_add s b = Done r → r = a) ∧
  (∀ p r, ri_mul a b = Done p → ri_div p b = Done r → r = a) ∧
  (∀ p r, ri_div a b = Done p → ri_mul p b = Done r → r = a).
Proof.
  intros Ha Hb. pose proof (canonical_denominator _ Ha) as Hda.
  split; [| split; [| split]].
  - intros s r Hs Hr.
    pose proof (proj1 (ri_add_cross _ _ _ Hs)) as Hcs.
    pose proof (proj1 (ri_sub_cross _ _ _ Hr)) as Hcr.
    pose proof (canonical_denominator _ Hcs) as Hds.
    apply ri_add_value in Hs; try assumption.
    apply ri_sub_value in Hr; try assumption.
    apply canonical_value_eq; try assumption.
    rewrite Hr, Hs. ring.
  - intros s r Hs Hr.
    pose proof (proj1 (ri_sub_cross _ _ _ Hs)) as Hcs.
    pose proof (proj1 (ri_add_cross _ _ _ Hr)) as Hcr.
    pose proof (canonical_denominator _ Hcs) as Hds.
    apply ri_sub_value in Hs; try assumption.
    apply ri_add_value in Hr; try assumption.
    apply canonical_value_eq; try assumption.
    rewrite Hr, Hs. ring.
  - intros p r Hp Hr.
    pose proof (proj1 (ri_mul_cross _ _ _ Hp)) as Hcp.
    pose proof (ri_div_cross _ _ _ Hr) as (Hnb & Hcr & _).
    pose proof (canonical_denominator _ Hcp) as Hdp.
    apply ri_mul_value in Hp; try assumption.
    apply ri_div_value in Hr; try assumption.
    apply canonical_value_eq; try assumption.
    rewrite Hr, Hp. field. apply value_nonzero; assumption.
  - intros p r Hp Hr.
    pose proof (ri_div_cross _ _ _ Hp) as (Hnb & Hcp & _).
    pose proof (proj1 (ri_mul_cross _ _ _ Hr)) as Hcr.
    pose proof (canonical_denominator _ Hcp) as Hdp.
    apply ri_div_value in Hp; try assumption.
    apply ri_mul_value in Hr; try assumption.
    apply canonical_value_eq; try assumption.
    rewrite Hr, Hp. field. apply value_nonzero; assumption.
Qed.

Lemma ri_inverse_operations_witness :
  ∃ s r, ri_sub (mkRationalInt 23 31) (mkRationalInt 37 19) = Done s ∧
         ri_add s (mkRationalInt 37 19) = Done r ∧ r = mkRationalInt 23 31.
Proof.
  exists (mkRationalInt 710 (-589)), (mkRationalInt 23 31).
  assert (canonical (mkRationalInt 23 31)) as Hc
    by (apply (bool_decide_unpack _); vm_compute; exact I).
  assert (denominator (mkRationalInt 37 19) ≠ 0) as Hd by (simpl; lia).
  assert (ri_sub (mkRationalInt 23 31) (mkRationalInt 37 19)
          = Done (mkRationalInt 710 (-589))) as Hs by (vm_compute; reflexivity).
  assert (ri_add (mkRationalInt 710 (-589)) (mkRationalInt 37 19)
          = Done (mkRationalInt 23 31)) as Hr by (vm_compute; reflexivity).
  split; [exact Hs|]. split; [exact Hr|].
  exact (proj1 (proj2 (ri_inverse_operations _ _ Hc Hd)) _ _ Hs Hr).
Defined.

(** X15.  Zero and one are neutral: on a value in canonical form,
    adding or subtracting 0/1 and multiplying or dividing by 1/1 return
    the value itself. *)
Theorem ri_neutral_elements (a : RationalInt) :
  canonical a →
  ri_add a ri_zero = Done a ∧ ri_add ri_zero a = Done a ∧
  ri_sub a ri_zero = Done a ∧
  ri_mul a ri_one = Done a ∧ ri_mul ri_one a = Done a ∧
  ri_div a ri_one = Done a.
Proof.
  intros Ha. pose proof (canonical_bounds _ Ha) as [Hn Hd].
  assert (∀ r, canonical r →
            numerator r * denominator a = numerator a * denominator r → r = a)
    as Huniq by (intros r Hr E; apply canonical_unique; assumption).
  split; [| split; [| split; [| split; [| split]]]].
  - destruct (ri_add_returns a ri_zero) as [r E]; simpl; try lia.
    rewrite E. f_equal. apply ri_add_cross in E as [Hc Hv]. simpl in Hv.
    apply Huniq; [assumption | lia].
  - destruct (ri_add_returns ri_zero a) as [r E]; simpl; try lia.
    rewrite E. f_equal. apply ri_add_cross in E as [Hc Hv]. simpl in Hv.
    apply Huniq; [assumption | lia].
  - destruct (ri_sub_returns a ri_zero) as [r E]; simpl; try lia.
    rewrite E. f_equal. apply ri_sub_cross in E as [Hc Hv]. simpl in Hv.
    apply Huniq; [assumption | lia].
  - destruct (ri_mul_returns a ri_one) as [r E]; simpl; try lia.
    rewrite E. f_equal. apply ri_mul_cross in E as [Hc Hv]. simpl in Hv.
    apply Huniq; [assumption | lia].
  - destruct (ri_mul_returns ri_one a) as [r E]; simpl; try lia.
    rewrite E. f_equal. apply ri_mul_cross in E as [Hc Hv]. simpl in Hv.
    apply Huniq; [assumption | lia].
  - destruct (ri_div_returns a ri_one) as [r E]; simpl; try lia.
    rewrite E. f_equal. apply ri_div_cross in E as (_ & Hc & Hv). simpl in Hv.
    apply Huniq; [assumption | lia].
Qed.

Lemma ri_neutral_elements_witness :
  ri_add (mkRationalInt 3 (-4)) ri_zero = Done (mkRationalInt 3 (-4)).
Proof.
  apply (ri_neutral_elements (mkRationalInt 3 (-4))).
  apply (bool_decide_unpack _). vm_compute. exact I.
Defined.

Lemma int_of_bind_comm {A} (x y : Z) (k : Z → Z → outcome A) :
  (a ← int_of x; b ← int_of y; k a b) = (b ← int_of y; a ← int_of x; k a b).
Proof. unfold int_of. repeat case_decide; reflexivity. Qed.

(** X16.  [ri_add] and [ri_mul] do not depend on the order of their
    operands, whether they return or fail. *)
Theorem ri_add_mul_commutative (lhs rhs : RationalInt) :
  ri_add lhs rhs = ri_add rhs lhs ∧ ri_mul lhs rhs = ri_mul rhs lhs.
Proof.
  split.
  - unfold ri_add. rewrite int_of_bind_comm.
    rewrite (Z.mul_comm (denominator lhs) (denominator rhs)).
    unfold int_of. repeat case_decide; try reflexivity;
      cbn [mbind outcome_bind]; rewrite (Z.add_comm (numerator rhs * _));
      reflexivity.
  - unfold ri_mul.
    rewrite (Z.mul_comm (numerator lhs)), (Z.mul_comm (denominator lhs)).
    reflexivity.
Qed.

(** X17.  Addition and multiplication are associative and
    multiplication distributes over addition, field by field: whenever
    the calls on both sides return, the two sides are the same
    structure. *)
Theorem ri_ring_laws (a b c : RationalInt) :
  denominator a ≠ 0 → denominator b ≠ 0 → denominator c ≠ 0 →
  (∀ ab bc l r,
     ri_add a b = Done ab → ri_add ab c = Done l →
     ri_add b c = Done bc → ri_add a bc = Done r → l = r) ∧
  (∀ ab bc l r,
     ri_mul a b = Done ab → ri_mul ab c = Done l →
     ri_mul b c = Done bc → ri_mul a bc = Done r → l = r) ∧
  (∀ bc ab ac l r,
     ri_add b c = Done bc → ri_mul a bc = Done l →
     ri_mul a b = Done ab → ri_mul a c = Done ac → ri_add ab ac = Done r →
     l = r).
Proof.
  intros Ha Hb Hc. split; [| split].
  - intros ab bc l r Eab El Ebc Er.
    pose proof (canonical_denominator _ (proj1 (ri_add_cross _ _ _ Eab))) as Hab.
    pose proof (canonical_denominator _ (proj1 (ri_add_cross _ _ _ Ebc))) as Hbc.
    pose proof (proj1 (ri_add_cross _ _ _ El)) as Hl.
    pose proof (proj1 (ri_add_cross _ _ _ Er)) as Hr.
    apply ri_add_value in Eab, El, Ebc, Er; try assumption.
    apply canonical_value_eq; try assumption.
    rewrite El, Er, Eab, Ebc. ring.
  - intros ab bc l r Eab El Ebc Er.
    pose proof (canonical_denominator _ (proj1 (ri_mul_cross _ _ _ Eab))) as Hab.
    pose proof (canonical_denominator _ (proj1 (ri_mul_cross _ _ _ Ebc))) as Hbc.
    pose proof (proj1 (ri_mul_cross _ _ _ El)) as Hl.
    pose proof (proj1 (ri_mul_cross _ _ _ Er)) as Hr.
    apply ri_mul_value in Eab, El, Ebc, Er; try assumption.
    apply canonical_value_eq; try assumption.
    rewrite El, Er, Eab, Ebc. ring.
  - intros bc ab ac l r Ebc El Eab Eac Er.
    pose proof (canonical_denominator _ (proj1 (ri_add_cross _ _ _ Ebc))) as Hbc.
    pose proof (canonical_denominator _ (proj1 (ri_mul_cross _ _ _ Eab))) as Hab.
    pose proof (canonical_denominator _ (proj1 (ri_mul_cross _ _ _ Eac))) as Hac.
    pose proof (proj1 (ri_mul_cross _ _ _ El)) as Hl.
    pose proof (proj1 (ri_add_cross _ _ _ Er)) as Hr.
    apply ri_add_value in Ebc, Er; try assumption.
    apply ri_mul_value in El, Eab, Eac; try assumption.
    apply canonical_value_eq; try assumption.
    rewrite El, Er, Eab, Eac, Ebc. ring.
Qed.

Lemma ri_ring_laws_witness :
  ∃ bc l r,
    ri_add (mkRationalInt 1 3) (mkRationalInt 1 (-6)) = Done bc ∧
    ri_mul (mkRationalInt 3 (-4)) bc = Done l ∧
    ri_add (mkRationalInt 1 (-4)) (mkRationalInt 1 8) = Done r ∧ l = r.
Proof.
  exists (mkRationalInt 1 6), (mkRationalInt 1 (-8)), (mkRationalInt 1 (-8)).
  assert (ri_add (mkRationalInt 1 3) (mkRationalInt 1 (-6))
          = Done (mkRationalInt 1 6)) as Ebc by (vm_compute; reflexivity).
  assert (ri_mul (mkRationalInt 3 (-4)) (mkRationalInt 1 6)
          = Done (mkRationalInt 1 (-8))) as El by (vm_compute; reflexivity).
  assert (ri_mul (mkRationalInt 3 (-4)) (mkRationalInt 1 3)
          = Done (mkRationalInt 1 (-4))) as Eab by (vm_compute; reflexivity).
  assert (ri_mul (mkRationalInt 3 (-4)) (mkRationalInt 1 (-6))
          = Done (mkRationalInt 1 8)) as Eac by (vm_compute; reflexivity).
  assert (ri_add (mkRationalInt 1 (-4)) (mkRationalInt 1 8)
          = Done (mkRationalInt 1 (-8))) as Er by (vm_compute; reflexivity).
  split; [exact Ebc|]. split; [exact El|]. split; [exact Er|].
  assert (denominator (mkRationalInt 3 (-4)) ≠ 0) as Ha by (simpl; lia).
  assert (denominator (mkRationalInt 1 3) ≠ 0) as Hb by (simpl; lia).
  assert (denominator (mkRationalInt 1 (-6)) ≠ 0) as Hc by (simpl; lia).
  exact (proj2 (proj2 (ri_ring_laws _ _ _ Ha Hb Hc)) _ _ _ _ _ Ebc El Eab Eac Er).
Defined.

(** X18.  [ri_cmp] on values in canonical form returns -1, 0 or +1; it
    returns 0 exactly for equal structures.  Unless both denominators
    are negative the result is the order of the values.  For two negative
    values the magnitudes are compared: -1 says that the left value is
    the greater one. *)
Theorem ri_cmp_order (lhs rhs : RationalInt) (c : Z) :
  canonical lhs → canonical rhs → ri_cmp lhs rhs = Done c →
  (c = -1 ∨ c = 0 ∨ c = 1) ∧
  (c = 0 ↔ lhs = rhs) ∧
  (0 < denominator lhs ∨ 0 < denominator rhs →
     (c = -1 ↔ (value lhs < value rhs)%Q) ∧
     (c = 1 ↔ (value rhs < value lhs)%Q)) ∧
  (denominator lhs < 0 → denominator rhs < 0 →
     (c = -1 ↔ (value rhs < value lhs)%Q) ∧
     (c = 1 ↔ (value lhs < value rhs)%Q)).
Proof.
  intros Hl Hr H.
  pose proof (canonical_denominator _ Hl) as Hd.
  pose proof (canonical_denominator _ Hr) as Hd'.
  apply ri_cmp_cases in H
    as [[-> ->]|[[Hs ->]|[[Hs ->]|[(Hs & Hv & ->)|(Hs & Hv & ->)]]]];
    try assumption.
  - split; [lia|]. split; [tauto|].
    split; intros; (split; (split; [lia | intros Hlt; apply Qlt_irrefl in Hlt; tauto])).
  - destruct (value_lt_mixed lhs rhs) as [Hlt Hnlt]; try assumption; try lia.
    split; [lia|]. split; [split; [lia | intros ->; lia]|].
    split; [intros _ | intros; lia].
    split; split; try lia; tauto.
  - destruct (value_lt_mixed rhs lhs) as [Hlt Hnlt]; try assumption; try lia.
    split; [lia|]. split; [split; [lia | intros ->; lia]|].
    split; [intros _ | intros; lia].
    split; split; try lia; tauto.
  - split; [lia|]. split; [split; [lia | intros ->; lia]|].
    split.
    + intros Hpos. assert (0 < denominator lhs ∧ 0 < denominator rhs) as [H1 H2] by nia.
      rewrite !value_lt by assumption.
      rewrite !Z.abs_eq in Hv by lia. lia.
    + intros H1 H2. rewrite !value_lt_neg by assumption.
      rewrite !Z.abs_neq in Hv by lia. lia.
  - split; [lia|]. split; [split; [lia | intros ->; lia]|].
    split.
    + intros Hpos. assert (0 < denominator lhs ∧ 0 < denominator rhs) as [H1 H2] by nia.
      rewrite !value_lt by assumption.
      rewrite !Z.abs_eq in Hv by lia. lia.
    + intros H1 H2. rewrite !value_lt_neg by assumption.
      rewrite !Z.abs_neq in Hv by lia. lia.
Qed.

Lemma ri_cmp_order_witness :
  (-1 = -1 ↔ (value (mkRationalInt 9 10) < value (mkRationalInt 19 20))%Q).
Proof.
  assert (canonical (mkRationalInt 9 10)) as H1
    by (apply (bool_decide_unpack _); vm_compute; exact I).
  assert (canonical (mkRationalInt 19 20)) as H2
    by (apply (bool_decide_unpack _); vm_compute; exact I).
  assert (ri_cmp (mkRationalInt 9 10) (mkRationalInt 19 20) = Done (-1)) as H3
    by (vm_compute; reflexivity).
  apply (ri_cmp_order _ _ _ H1 H2 H3). left. simpl. lia.
Defined.

(** X19.  The assertion of [ri_cmp] cannot fail on distinct values in
    canonical form: when its two products fit an [int] the comparison
    returns, and swapping the operands negates the result. *)
Theorem ri_cmp_antisymmetric (lhs rhs : RationalInt) :
  canonical lhs → canonical rhs →
  is_int (numerator lhs * Z.abs (denominator rhs)) →
  is_int (numerator rhs * Z.abs (denominator lhs)) →
  ∃ c, ri_cmp lhs rhs = Done c ∧ ri_cmp rhs lhs = Done (- c).
Proof.
  intros Hl Hr H1 H2.
  destruct (ri_cmp_returns lhs rhs) as [c E]; try assumption.
  destruct (ri_cmp_returns rhs lhs) as [c' E']; try assumption.
  exists c. split; [exact E|]. rewrite E'. f_equal.
  apply ri_cmp_cases in E
    as [[-> ->]|[[Hs ->]|[[Hs ->]|[(Hs & Hv & ->)|(Hs & Hv & ->)]]]];
    try assumption;
  apply ri_cmp_cases in E'
    as [[Heq ->]|[[Hs' ->]|[[Hs' ->]|[(Hs' & Hv' & ->)|(Hs' & Hv' & ->)]]]];
    try assumption; try lia; try (rewrite Heq in *; lia).
Qed.

Lemma ri_cmp_antisymmetric_witness :
  ∃ c, ri_cmp (mkRationalInt 9 10) (mkRationalInt 17 20) = Done c ∧
       ri_cmp (mkRationalInt 17 20) (mkRationalInt 9 10) = Done (- c).
Proof.
  apply ri_cmp_antisymmetric.
  - apply (bool_decide_unpack _). vm_compute. exact I.
  - apply (bool_decide_unpack _). vm_compute. exact I.
  - unfold is_int, INT_MIN, INT_MAX. simpl. lia.
  - unfold is_int, INT_MIN, INT_MAX. simpl. lia.
Defined.

(** X20.  A value in canonical form splits into its integer part and
    its fraction: [ri_integer] and [ri_fraction] return, the integer part
    has denominator 1 or -1 (what [ri_fmtproper] asserts), the fraction
    is proper, and [ri_add] puts the two together again. *)
Theorem ri_integer_fraction (val : RationalInt) :
  canonical val →
  ∃ i f, ri_integer val = Done i ∧ ri_fraction val = Done f ∧
         canonical i ∧ canonical f ∧
         (denominator i = 1 ∨ denominator i = -1) ∧
         numerator f < Z.abs (denominator f) ∧
         ri_add i f = Done val.
Proof.
  intros Hc.
  destruct (ri_integer_returns val Hc) as (i & Ei & Hci & Hni & Hdi).
  destruct (ri_fraction_returns val Hc) as (f & Ef & Hcf & Hnf & Hproper & Hle).
  exists i, f. do 6 (split; [assumption|]).
  pose proof (canonical_bounds _ Hc) as [Hn Hd].
  pose proof (canonical_bounds _ Hci) as [Hin Hid].
  pose proof (canonical_bounds _ Hcf) as [Hfn Hfd].
  assert (denominator val ≠ 0) as Hd0 by lia.
  pose proof (Z.quot_rem' (numerator val) (denominator val)) as Hqr.
  pose proof (Z.rem_nonneg (numerator val) (denominator val) Hd0 (proj1 Hn)) as Hr0.
  pose proof (Z.rem_bound_abs (numerator val) (denominator val) Hd0) as Hrb.
  assert (numerator val ÷ denominator val * denominator val
          = Z.abs (numerator val ÷ denominator val) * Z.abs (denominator val))
    as Hqd.
  { destruct (Z.abs_spec (denominator val)) as [[Hpos ->]|[Hneg ->]].
    - rewrite Z.abs_eq; [reflexivity|]. apply Z.quot_pos; lia.
    - rewrite Z.abs_neq; [ring|].
      rewrite <- (Z.opp_involutive (denominator val)), Z.quot_opp_r by lia.
      pose proof (Z.quot_pos (numerator val) (- denominator val)). lia. }
  set (q := numerator val ÷ denominator val) in *.
  set (r := Z.rem (numerator val) (denominator val)) in *.
  clearbody q r.
  assert (numerator i = Z.abs q) as Hiq by (destruct Hdi as [Hi|Hi]; rewrite Hi in Hni; lia).
  assert (numerator f * Z.abs (denominator val) = r * Z.abs (denominator f)) as Hnf'.
  { rewrite <- (Z.abs_eq (numerator f)), <- (Z.abs_eq r) by lia.
    rewrite <- !Z.abs_mul. f_equal. exact Hnf. }
  assert (numerator f ≤ r) as Hfr.
  { apply (Z.mul_le_mono_pos_r _ _ (Z.abs (denominator val))); [lia|].
    rewrite Hnf'. apply Z.mul_le_mono_nonneg_l; lia. }
  assert (Z.abs (numerator i * denominator f)
          ≤ Z.abs q * Z.abs (denominator val)) as Ha.
  { rewrite Z.abs_mul, Hiq, Z.abs_idemp.
    apply Z.mul_le_mono_nonneg_l; lia. }
  assert (Z.abs (numerator f * denominator i) ≤ r) as Hb
    by (rewrite Z.abs_mul; destruct Hdi as [Hi|Hi]; rewrite Hi; simpl; lia).
  assert (Z.abs (denominator i * denominator f) = Z.abs (denominator f)) as Hdd
    by (rewrite Z.abs_mul; destruct Hdi as [Hi|Hi]; rewrite Hi; simpl; lia).
  destruct (ri_add_returns i f) as [s Es]; try lia.
  rewrite Es. f_equal. apply ri_add_cross in Es as [Hcs Hv].
  apply canonical_unique; try assumption.
  apply (Z.mul_cancel_r _ _ (denominator i * denominator f));
    [apply mul_nonzero; lia|].
  replace (numerator s * denominator val * (denominator i * denominator f))
    with (numerator s * (denominator i * denominator f) * denominator val)
    by ring.
  rewrite Hv.
  replace ((numerator i * denominator f + numerator f * denominator i)
           * denominator s * denominator val)
    with ((numerator i * denominator f * denominator val
           + numerator f * denominator val * denominator i) * denominator s)
    by ring.
  rewrite Hnf, Hni, Hqr. ring.
Qed.

Lemma ri_integer_fraction_witness :
  ∃ i f, ri_integer (mkRationalInt 23 (-12)) = Done i ∧
         ri_fraction (mkRationalInt 23 (-12)) = Done f ∧
         canonical i ∧ canonical f ∧
         (denominator i = 1 ∨ denominator i = -1) ∧
         numerator f < Z.abs (denominator f) ∧
         ri_add i f = Done (mkRationalInt 23 (-12)).
Proof.
  apply ri_integer_fraction.
  apply (bool_decide_unpack _). vm_compute. exact I.
Defined.
